(** * rspamd/dkim/config.go: lexer, generic parser and typed projections

    A shallow embedding of the DKIM configuration parser.  A Go [string] and
    the decoded input stream are both modelled as lists of runes (code
    points): the lexer reads its input with [ReadRune], builds token text
    with [WriteRune] / [string(buf)], and every string function used later
    ([strings.Split] on a colon, [strings.TrimSpace], [strings.HasPrefix] with an
    ASCII prefix, [strings.ToLower]) acts rune by rune.  The reader is a pure
    list, so the only error [ReadRune] can produce is [io.EOF]. *)

From Stdlib Require Import ZArith Lia Bool List Ascii String.
From stdpp Require Import base option list countable gmap.

Local Open Scope Z_scope.

(** ** Runes and strings *)

Definition rune : Type := Z.
Definition gostring : Type := list rune.

Abbreviation smap := (gmap (list Z) (list Z)).
Abbreviation dmap := (gmap (list Z) (gmap (list Z) (list Z))).

(** The rune of an ASCII character literal, and the Go string of an ASCII
    string literal. *)
Definition ch (a : ascii) : rune := Z.of_N (N_of_ascii a).
Definition str (s : string) : gostring := List.map ch (list_ascii_of_string s).

(** The double quote and the backslash. *)
Definition quote : rune := 34.
Definition backslash : rune := 92.
(** A string literal of the configuration language: the text between two
    quote characters. *)
Definition quoted (s : gostring) : gostring := quote :: s ++ [quote].

(** ** Tokens, errors and results *)

Inductive tokenType : Type :=
| tokenEOF
| tokenIdent
| tokenString
| tokenLBrace
| tokenRBrace
| tokenEqual
| tokenSemicolon.

Definition tokenType_eqb (a b : tokenType) : bool :=
  match a, b with
  | tokenEOF, tokenEOF | tokenIdent, tokenIdent | tokenString, tokenString
  | tokenLBrace, tokenLBrace | tokenRBrace, tokenRBrace
  | tokenEqual, tokenEqual | tokenSemicolon, tokenSemicolon => true
  | _, _ => false
  end.

Record token : Type := Token { typ : tokenType; val : gostring }.

(** The errors of the package, one constructor per [fmt.Errorf] format (and
    [io.EOF], which [readString] passes on). *)
Inductive error : Type :=
| io_EOF
| ErrUnexpectedCharacter (r : rune)
| ErrUnexpectedToken (t : tokenType)
| ErrUnexpectedTokenInDomainRule (t : tokenType)
| ErrUnexpectedTokenInDomainBlock (t : tokenType)
| ErrUnexpectedValueToken (t : tokenType)
| ErrExpectedToken (want got : tokenType)
| ErrInvalidBoolean (v : gostring)
| ErrParse (key : gostring) (e : error).

(** [OutOfFuel] is not a Go outcome: it is what a loop of the model answers
    when its iteration budget is used up.  [parseRspamdConfig_total] shows
    that the budget the entry points give is always enough. *)
Inductive result (A : Type) : Type :=
| Ok (a : A)
| Err (e : error)
| OutOfFuel.
Arguments Ok {A} a.
Arguments Err {A} e.
Arguments OutOfFuel {A}.

(** ** The lexer state and its monad *)

(** The fields [r] (here [rd], the runes still to be read) and [peek] of the
    Go struct; [buf] is scratch space of [next] and is not part of the state. *)
Record lexer : Type := Lexer { rd : list rune; peek : option token }.

Definition newLexer (input : list rune) : lexer :=
  {| rd := input; peek := None |}.

(** A method on [*lexer]: a result together with the lexer afterwards (the
    reader keeps its position when a call fails). *)
Definition M (A : Type) : Type := lexer -> result A * lexer.

Definition ret {A : Type} (a : A) : M A := fun l => (Ok a, l).
Definition fail {A : Type} (e : error) : M A := fun l => (Err e, l).
Definition timeout {A : Type} : M A := fun l => (OutOfFuel, l).
Definition bind {A B : Type} (m : M A) (k : A -> M B) : M B :=
  fun l =>
    match m l with
    | (Ok a, l') => k a l'
    | (Err e, l') => (Err e, l')
    | (OutOfFuel, l') => (OutOfFuel, l')
    end.
(** [_, _ = m]: both results of the call are thrown away. *)
Definition discard {A : Type} (m : M A) : M unit :=
  fun l =>
    match m l with
    | (OutOfFuel, l') => (OutOfFuel, l')
    | (_, l') => (Ok tt, l')
    end.

Notation "x <- m ;; k" := (bind m (fun x => k))
  (at level 100, m at next level, right associativity).
Notation "m ;;; k" := (bind m (fun _ => k))
  (at level 100, right associativity).

(** Tables that are empty above Latin-1, and a case mapping that is the
    identity above ASCII.  On an ASCII text [unicode.IsSpace], [IsLetter],
    [IsDigit] and [ToLower] never read their table, so a run of the parser on
    such a text with these tables is the run of the Go program. *)
Module Latin1.
Definition White_Space (r : rune) : bool := false.
Definition Letter (r : rune) : bool := false.
Definition Digit (r : rune) : bool := false.
Definition To_LowerCase (r : rune) : rune := r.
End Latin1.

Section Unicode.

(** Go's [unicode] range tables above Latin-1, as [isExcludingLatin] reads
    them, and the case mapping [unicode.To(LowerCase, _)] above ASCII.  They
    belong to the Go distribution, not to this package. *)
Variable White_Space : rune -> bool.
Variable Letter : rune -> bool.
Variable Digit : rune -> bool.
Variable To_LowerCase : rune -> rune.

Definition MaxLatin1 : rune := 255.
Definition MaxASCII : rune := 127.
Definition isLatin1 (r : rune) : bool := (0 <=? r) && (r <=? MaxLatin1).

(** [unicode.IsSpace] *)
Definition unicode_IsSpace (r : rune) : bool :=
  if isLatin1 r then
    (r =? 9) || (r =? 10) || (r =? 11) || (r =? 12) || (r =? 13)
    || (r =? 32) || (r =? 133) || (r =? 160)
  else White_Space r.

(** [unicode.IsLetter]: below U+0100 the [properties] table marks as letters
    A-Z, a-z, U+00AA, U+00B5, U+00BA, U+00C0-U+00D6, U+00D8-U+00F6 and
    U+00F8-U+00FF. *)
Definition unicode_IsLetter (r : rune) : bool :=
  if isLatin1 r then
    ((65 <=? r) && (r <=? 90)) || ((97 <=? r) && (r <=? 122))
    || (r =? 170) || (r =? 181) || (r =? 186)
    || ((192 <=? r) && (r <=? 214)) || ((216 <=? r) && (r <=? 246))
    || ((248 <=? r) && (r <=? 255))
  else Letter r.

(** [unicode.IsDigit] *)
Definition unicode_IsDigit (r : rune) : bool :=
  if r <=? MaxLatin1 then (48 <=? r) && (r <=? 57) else Digit r.

(** [unicode.ToLower] *)
Definition unicode_ToLower (r : rune) : rune :=
  if r <=? MaxASCII then
    if (65 <=? r) && (r <=? 90) then r + 32 else r
  else To_LowerCase r.

(** [strings.Map]: a rune mapped to a negative value is dropped. *)
Definition strings_Map (f : rune -> rune) (s : gostring) : gostring :=
  flat_map (fun r => let r' := f r in if r' <? 0 then [] else [r']) s.

(** [strings.ToLower]; its ASCII fast path computes the same string. *)
Definition strings_ToLower (s : gostring) : gostring :=
  strings_Map unicode_ToLower s.

(** [strings.Split(s, sep)] for a separator of one rune. *)
Fixpoint strings_Split (s : gostring) (sep : rune) : list gostring :=
  match s with
  | [] => [[]]
  | c :: s' =>
      if c =? sep then [] :: strings_Split s' sep
      else match strings_Split s' sep with
           | p :: ps => (c :: p) :: ps
           | [] => [[c]]
           end
  end.

Fixpoint trimLeft (s : gostring) : gostring :=
  match s with
  | [] => []
  | c :: s' => if unicode_IsSpace c then trimLeft s' else s
  end.

(** [strings.TrimSpace] *)
Definition strings_TrimSpace (s : gostring) : gostring :=
  rev (trimLeft (rev (trimLeft s))).

(** [strings.HasPrefix] *)
Fixpoint strings_HasPrefix (s prefix : gostring) : bool :=
  match prefix, s with
  | [], _ => true
  | _ :: _, [] => false
  | p :: prefix', c :: s' => (c =? p) && strings_HasPrefix s' prefix'
  end.

Definition isEmpty (s : gostring) : bool :=
  match s with [] => true | _ => false end.

(** ** Lexer *)

Definition isIdentStart (r : rune) : bool :=
  unicode_IsLetter r || (r =? ch "_") || (r =? ch "$").

Definition isIdentPart (r : rune) : bool :=
  unicode_IsLetter r || unicode_IsDigit r || (r =? ch "_") || (r =? ch "-")
  || (r =? ch ".") || (r =? ch "/") || (r =? ch "$").

(** [readIdent]: appends to [buf] and returns the reader; the rune that ends
    the identifier is unread. *)
Fixpoint readIdent (s : list rune) (buf : list rune) : list rune * list rune :=
  match s with
  | [] => (buf, [])
  | c :: s' => if isIdentPart c then readIdent s' (buf ++ [c]) else (buf, s)
  end.

(** [readString], with the builder [b] as an accumulator. *)
Fixpoint readString (s : list rune) (b : gostring) : result gostring * list rune :=
  match s with
  | [] => (Err io_EOF, [])
  | c :: s' =>
      if c =? quote then (Ok b, s')
      else if c =? backslash then
        match s' with
        | [] => (Err io_EOF, [])
        | esc :: s'' => readString s'' (b ++ [esc])
        end
      else readString s' (b ++ [c])
  end.

Fixpoint skipLine (s : list rune) : list rune :=
  match s with
  | [] => []
  | c :: s' => if c =? 10 then s' else skipLine s'
  end.

(** The [for] loop of [next], on the reader. *)
Fixpoint next_loop (fuel : nat) (s : list rune) : result token * list rune :=
  match fuel with
  | O => (OutOfFuel, s)
  | S fuel' =>
      match s with
      | [] => (Ok (Token tokenEOF []), [])
      | c :: rest =>
          if c =? ch "#" then next_loop fuel' (skipLine rest)
          else if unicode_IsSpace c then next_loop fuel' rest
          else if c =? ch "{" then (Ok (Token tokenLBrace []), rest)
          else if c =? ch "}" then (Ok (Token tokenRBrace []), rest)
          else if c =? ch "=" then (Ok (Token tokenEqual []), rest)
          else if c =? ch ";" then (Ok (Token tokenSemicolon []), rest)
          else if c =? quote then
            match readString rest [] with
            | (Ok s', rest') => (Ok (Token tokenString s'), rest')
            | (Err e, rest') => (Err e, rest')
            | (OutOfFuel, rest') => (OutOfFuel, rest')
            end
          else if isIdentStart c then
            let '(buf, rest') := readIdent rest [c] in
            (Ok (Token tokenIdent buf), rest')
          else (Err (ErrUnexpectedCharacter c), rest)
      end
  end.

(** The loop of [next] with a budget that covers the whole reader. *)
Definition lex (s : list rune) : result token * list rune :=
  next_loop (S (length s)) s.

Definition next : M token := fun l =>
  match peek l with
  | Some tok => (Ok tok, {| rd := rd l; peek := None |})
  | None => let '(res, rest) := lex (rd l) in (res, {| rd := rest; peek := None |})
  end.

Definition unread (tok : token) : M unit := fun l =>
  (Ok tt, {| rd := rd l; peek := Some tok |}).

(** ** Generic parser *)

Definition parseValue : M gostring :=
  tok <- next ;;
  match typ tok with
  | tokenIdent | tokenString => ret (val tok)
  | t => fail (ErrUnexpectedValueToken t)
  end.

Definition expect (t : tokenType) : M unit :=
  tok <- next ;;
  if tokenType_eqb (typ tok) t then ret tt
  else fail (ErrExpectedToken t (typ tok)).

Definition tryConsume (t : tokenType) : M bool :=
  tok <- next ;;
  if tokenType_eqb (typ tok) t then ret true
  else (unread tok ;;; ret false).

(** The inner [for] of [parseDomainBlock]: the assignments of one rule. *)
Fixpoint ruleLoop (fuel : nat) (rule : smap) : M smap :=
  match fuel with
  | O => timeout
  | S fuel' =>
      t <- next ;;
      if tokenType_eqb (typ t) tokenRBrace then
        discard (tryConsume tokenSemicolon) ;;; ret rule
      else if negb (tokenType_eqb (typ t) tokenIdent) then
        fail (ErrUnexpectedTokenInDomainRule (typ t))
      else
        expect tokenEqual ;;;
        v <- parseValue ;;
        discard (tryConsume tokenSemicolon) ;;;
        ruleLoop fuel' (<[val t := v]> rule)
  end.

(** The outer [for] of [parseDomainBlock]. *)
Fixpoint domainLoop (fuel : nat) (domains : dmap) : M dmap :=
  match fuel with
  | O => timeout
  | S fuel' =>
      tok <- next ;;
      match typ tok with
      | tokenRBrace => discard (tryConsume tokenSemicolon) ;;; ret domains
      | tokenIdent | tokenString =>
          expect tokenLBrace ;;;
          rule <- ruleLoop fuel' ∅ ;;
          domainLoop fuel' (<[val tok := rule]> domains)
      | t => fail (ErrUnexpectedTokenInDomainBlock t)
      end
  end.

Definition parseDomainBlock (fuel : nat) (domains : dmap) : M dmap :=
  expect tokenLBrace ;;; domainLoop fuel domains.

(** The [for] of [parseRspamdConfig]. *)
Fixpoint configLoop (fuel : nat) (assignments : smap) (domains : dmap)
  : M (smap * dmap) :=
  match fuel with
  | O => timeout
  | S fuel' =>
      tok <- next ;;
      match typ tok with
      | tokenEOF => ret (assignments, domains)
      | tokenIdent =>
          if decide (val tok = str "domain") then
            domains' <- parseDomainBlock fuel' domains ;;
            configLoop fuel' assignments domains'
          else
            expect tokenEqual ;;;
            v <- parseValue ;;
            discard (tryConsume tokenSemicolon) ;;;
            configLoop fuel' (<[val tok := v]> assignments) domains
      | t => fail (ErrUnexpectedToken t)
      end
  end.

Definition parseRspamdConfig (input : list rune) : result (smap * dmap) :=
  fst (configLoop (S (length input)) ∅ ∅ (newLexer input)).

(** ** Typed projections *)

Definition parseBool (v : gostring) : result bool :=
  let low := strings_ToLower v in
  if decide (low = str "true") then Ok true
  else if decide (low = str "false") then Ok false
  else Err (ErrInvalidBoolean v).

Record SignHeader : Type := mkSignHeader {
  Name : gostring;
  Oversigned : bool;
  OptionalOversigned : bool
}.

(** The body of the [for] of [parseSignHeaders]: the entries one part
    appends to [out] (none after a [continue], one otherwise). *)
Definition signHeaderOf (part : gostring) : list SignHeader :=
  let h := strings_TrimSpace part in
  if isEmpty h then []
  else
    let '(h', oversigned, optionalOversigned) :=
      if strings_HasPrefix h (str "(o)") then
        (strings_TrimSpace (drop 3 h), true, false)
      else if strings_HasPrefix h (str "(x)") then
        (strings_TrimSpace (drop 3 h), false, true)
      else (h, false, false) in
    if isEmpty h' then []
    else [mkSignHeader h' oversigned optionalOversigned].

Definition parseSignHeaders (raw : gostring) : list SignHeader :=
  flat_map signHeaderOf (strings_Split raw (ch ":")).

Record DKIMConf : Type := mkDKIMConf {
  Enabled : option bool;
  SignHeaders : gostring;
  SignHeaderList : list SignHeader
}.

(** An absent key reads as the empty string. *)
Definition index (m : smap) (key : gostring) : gostring := default [] (m !! key).

(** The part of [ParseDKIMConf] after the generic parse. *)
Definition projectDKIMConf (assignments : smap) : result DKIMConf :=
  let signHeaders := index assignments (str "sign_headers") in
  let list := if isEmpty signHeaders then [] else parseSignHeaders signHeaders in
  match assignments !! str "enabled" with
  | Some v =>
      match parseBool v with
      | Ok parsed => Ok (mkDKIMConf (Some parsed) signHeaders list)
      | Err e => Err (ErrParse (str "enabled") e)
      | OutOfFuel => OutOfFuel
      end
  | None => Ok (mkDKIMConf None signHeaders list)
  end.

Definition ParseDKIMConf (input : list rune) : result DKIMConf :=
  match parseRspamdConfig input with
  | Ok (assignments, _) => projectDKIMConf assignments
  | Err e => Err e
  | OutOfFuel => OutOfFuel
  end.

Record DomainRule : Type := mkDomainRule {
  Selector : gostring;
  Path : gostring
}.

(** [Enabled], [Path] and [Selector] carry an [s] here, as the field names of
    [DKIMConf] and [DomainRule] are already taken. *)
Record DKIMSigningConf : Type := mkDKIMSigningConf {
  sEnabled : option bool;
  AllowUsernameMismatch : option bool;
  SignAuthenticated : option bool;
  SignLocal : option bool;
  SignInbound : option bool;
  UseDomain : gostring;
  UseDomainSignLocal : gostring;
  UseDomainSignNetworks : gostring;
  AllowHdrFromMismatch : option bool;
  UseESLD : option bool;
  TryFallback : option bool;
  sPath : gostring;
  sSelector : gostring;
  PathMap : gostring;
  SelectorMap : gostring;
  Domain : gmap (list Z) DomainRule
}.

(** The closure [setBool]: the new value of the destination, which stays
    [nil] when the key is absent. *)
Definition setBool (assignments : smap) (key : gostring) : result (option bool) :=
  match assignments !! key with
  | None => Ok None
  | Some v =>
      match parseBool v with
      | Ok parsed => Ok (Some parsed)
      | Err e => Err (ErrParse key e)
      | OutOfFuel => OutOfFuel
      end
  end.

Definition rbind {A B : Type} (r : result A) (k : A -> result B) : result B :=
  match r with
  | Ok a => k a
  | Err e => Err e
  | OutOfFuel => OutOfFuel
  end.

Definition projectDomainRule (rule : smap) : DomainRule :=
  mkDomainRule (index rule (str "selector")) (index rule (str "path")).

(** The part of [ParseDKIMSigningConf] after the generic parse. *)
Definition projectDKIMSigningConf (assignments : smap) (domain : dmap)
  : result DKIMSigningConf :=
  let get := index assignments in
  let dom := projectDomainRule <$> domain in
  rbind (setBool assignments (str "enabled")) (fun enabled =>
  rbind (setBool assignments (str "allow_username_mismatch")) (fun allowUser =>
  rbind (setBool assignments (str "sign_authenticated")) (fun signAuth =>
  rbind (setBool assignments (str "sign_local")) (fun signLocal =>
  rbind (setBool assignments (str "sign_inbound")) (fun signInbound =>
  rbind (setBool assignments (str "allow_hdrfrom_mismatch")) (fun allowHdr =>
  rbind (setBool assignments (str "use_esld")) (fun useESLD =>
  rbind (setBool assignments (str "try_fallback")) (fun tryFallback =>
  Ok {| sEnabled := enabled;
        AllowUsernameMismatch := allowUser;
        SignAuthenticated := signAuth;
        SignLocal := signLocal;
        SignInbound := signInbound;
        UseDomain := get (str "use_domain");
        UseDomainSignLocal := get (str "use_domain_sign_local");
        UseDomainSignNetworks := get (str "use_domain_sign_networks");
        AllowHdrFromMismatch := allowHdr;
        UseESLD := useESLD;
        TryFallback := tryFallback;
        sPath := get (str "path");
        sSelector := get (str "selector");
        PathMap := get (str "path_map");
        SelectorMap := get (str "selector_map");
        Domain := dom |})))))))).

Definition ParseDKIMSigningConf (input : list rune) : result DKIMSigningConf :=
  match parseRspamdConfig input with
  | Ok (assignments, domain) => projectDKIMSigningConf assignments domain
  | Err e => Err e
  | OutOfFuel => OutOfFuel
  end.

(** ** Map files *)

(** Modelled from the spec: the map-file parser ([ParseDKIMSelectorsMap],
    [ParseDKIMPathsMap], [ParseSignedDomainsMap] and the routine they share)
    is called by the tests but its source is not among the files.  The
    whitespace-separated fields of a line, in order. *)
Fixpoint fieldsFrom (s : gostring) (cur : gostring) : list gostring :=
  match s with
  | [] => if isEmpty cur then [] else [cur]
  | c :: s' =>
      if unicode_IsSpace c then
        if isEmpty cur then fieldsFrom s' [] else cur :: fieldsFrom s' []
      else fieldsFrom s' (cur ++ [c])
  end.

Definition fields (line : gostring) : list gostring := fieldsFrom line [].

(** Modelled from the spec: what one line does to the mapping built so far
    (section 4.5): a blank line and a line whose first non-whitespace
    character is the comment marker are skipped; a line of exactly two fields
    adds key and value, a later key overwriting an earlier one; any other line
    is a format error that carries the line. *)
Definition parseMapLine (m : smap) (line : gostring) : smap + gostring :=
  match fields line with
  | [] => inl m
  | first :: more =>
      if strings_HasPrefix first (str "#") then inl m
      else match more with
           | [value] => inl (<[first := value]> m)
           | _ => inr line
           end
  end.

(** Modelled from the spec: the lines are processed in order and the first
    format error ends the call. *)
Fixpoint parseMapLines (m : smap) (lines : list gostring) : smap + gostring :=
  match lines with
  | [] => inl m
  | line :: lines' =>
      match parseMapLine m line with
      | inl m' => parseMapLines m' lines'
      | inr bad => inr bad
      end
  end.

(** Modelled from the spec: the shared routine, on the whole stream. *)
Definition parseMap (input : gostring) : smap + gostring :=
  parseMapLines ∅ (strings_Split input 10).

(** Modelled from the spec: the three public operations use the identical
    routine (section 4.5). *)
Definition ParseDKIMSelectorsMap := parseMap.
Definition ParseDKIMPathsMap := parseMap.
Definition ParseSignedDomainsMap := parseMap.

(** ** Configuration texts

    The grammar of section 4.2 as a syntax tree, with the text of each
    construct, to state what the parser does on every configuration of that
    shape.  A flag records whether the optional semicolon is written. *)

Definition isIdentifier (s : gostring) : bool :=
  match s with
  | [] => false
  | c :: s' => negb (unicode_IsSpace c) && isIdentStart c && forallb isIdentPart s'
  end.

(** The body of a string literal that reads back as [s]. *)
Definition escape (s : gostring) : gostring :=
  flat_map (fun c => if (c =? quote) || (c =? backslash) then [backslash; c] else [c]) s.

Inductive value : Type :=
| Bare (s : gostring)
| Quoted (s : gostring).

Definition valueText (v : value) : gostring :=
  match v with Bare s => s | Quoted s => s end.

Definition renderValue (v : value) : gostring :=
  match v with Bare s => s | Quoted s => quoted (escape s) end.

Definition wfValue (v : value) : bool :=
  match v with Bare s => isIdentifier s | Quoted _ => true end.

Definition semicolon (b : bool) : gostring := if b then str ";" else [].

Record assignment : Type := Assign { akey : gostring; avalue : value; asemi : bool }.

Definition renderAssign (a : assignment) : gostring :=
  akey a ++ str " = " ++ renderValue (avalue a) ++ semicolon (asemi a).

Definition wfAssign (a : assignment) : bool :=
  isIdentifier (akey a) && wfValue (avalue a).

Definition renderBody (body : list assignment) : gostring :=
  flat_map (fun a => renderAssign a ++ str " ") body.

Record entry : Type := Entry { elabel : value; ebody : list assignment; esemi : bool }.

Definition renderEntry (e : entry) : gostring :=
  renderValue (elabel e) ++ str " { " ++ renderBody (ebody e) ++ str "}"
  ++ semicolon (esemi e).

Definition wfEntry (e : entry) : bool :=
  wfValue (elabel e) && forallb wfAssign (ebody e).

Definition renderEntries (es : list entry) : gostring :=
  flat_map (fun e => renderEntry e ++ str " ") es.

Definition renderDomain (es : list entry) (semi : bool) : gostring :=
  str "domain { " ++ renderEntries es ++ str "}" ++ semicolon semi.

Inductive item : Type :=
| ItemAssign (a : assignment)
| ItemDomain (es : list entry) (semi : bool).

Definition renderItem (i : item) : gostring :=
  match i with
  | ItemAssign a => renderAssign a
  | ItemDomain es semi => renderDomain es semi
  end.

Definition wfItem (i : item) : bool :=
  match i with
  | ItemAssign a => wfAssign a && negb (bool_decide (akey a = str "domain"))
  | ItemDomain es _ => forallb wfEntry es
  end.

(** Items one per line. *)
Definition render (items : list item) : gostring :=
  flat_map (fun i => renderItem i ++ [10]) items.

(** What section 4.2 says a configuration means: the last assignment to a key
    wins, and a domain entry replaces the Assignment Map of its label. *)
Definition assign (m : smap) (a : assignment) : smap :=
  <[akey a := valueText (avalue a)]> m.

Definition ruleOf (body : list assignment) : smap := fold_left assign body ∅.

Definition addEntry (d : dmap) (e : entry) : dmap :=
  <[valueText (elabel e) := ruleOf (ebody e)]> d.

Definition addItem (st : smap * dmap) (i : item) : smap * dmap :=
  match i with
  | ItemAssign a => (assign (fst st) a, snd st)
  | ItemDomain es _ => (fst st, fold_left addEntry es (snd st))
  end.

Definition meaning (items : list item) : smap * dmap :=
  fold_left addItem items (∅, ∅).

(** The same configuration with every optional semicolon written, or none. *)
Definition assignSemi (b : bool) (a : assignment) : assignment :=
  Assign (akey a) (avalue a) b.
Definition entrySemi (b : bool) (e : entry) : entry :=
  Entry (elabel e) (List.map (assignSemi b) (ebody e)) b.
Definition itemSemi (b : bool) (i : item) : item :=
  match i with
  | ItemAssign a => ItemAssign (assignSemi b a)
  | ItemDomain es _ => ItemDomain (List.map (entrySemi b) es) b
  end.

(** The first token of [rest] is read without error and is not a semicolon:
    what may follow a construct whose own semicolon is left out. *)
Definition firstTokenOk (rest : list rune) : bool :=
  match lex rest with
  | (Ok tok, _) => negb (tokenType_eqb (typ tok) tokenSemicolon)
  | _ => false
  end.

(** The rune after an identifier does not continue it. *)
Definition delimited (rest : list rune) : bool :=
  match rest with
  | [] => true
  | c :: _ => negb (isIdentPart c)
  end.

(** ** Notions used in the statements *)

(** The number of runes still to be read. *)
Definition size (l : lexer) : nat := length (rd l).

(** The call did not run out of budget and left at most [n] runes. *)
Definition good {A : Type} (n : nat) (x : result A * lexer) : Prop :=
  fst x <> OutOfFuel /\ (size (snd x) <= n)%nat.

(** The three loops with the budget the entry point gives them: by
    [ruleLoop_fuel], [domainLoop_fuel] and [configLoop_fuel] any larger budget
    computes the same. *)
Definition parseRule (rule : smap) : M smap :=
  fun l => ruleLoop (S (size l)) rule l.
Definition parseDomains (domains : dmap) : M dmap :=
  fun l => domainLoop (S (size l)) domains l.
Definition parseConfig (assignments : smap) (domains : dmap) : M (smap * dmap) :=
  fun l => configLoop (S (size l)) assignments domains l.

(** The type of the token a value is read as. *)
Definition kind (v : value) : tokenType :=
  match v with Bare _ => tokenIdent | Quoted _ => tokenString end.

(** The lexer in front of the text [s], with no token pushed back. *)
Definition at_ (s : list rune) : lexer := {| rd := s; peek := None |}.

(** A computation that starts by taking a token cannot tell a pushed-back
    token from the same token still in the reader. *)
Definition peeks {B : Type} (k : M B) : Prop :=
  forall l l', next l = next l' -> k l = k l'.

(** Whether the semicolon that ends the item is written. *)
Definition itemSemicolon (i : item) : bool :=
  match i with ItemAssign a => asemi a | ItemDomain _ b => b end.

(** A result without its value: success or the error, and the lexer. *)
Definition outcome {A : Type} (x : result A * lexer) : result unit * lexer :=
  (match fst x with Ok _ => Ok tt | Err e => Err e | OutOfFuel => OutOfFuel end,
   snd x).

(** A result of the generic parser without its Domain Block Map. *)
Definition assignmentsOf (x : result (smap * dmap)) : result smap :=
  match x with Ok (a, _) => Ok a | Err e => Err e | OutOfFuel => OutOfFuel end.

(** Two runs of the parser that agree on everything but the Domain Block
    Map. *)
Definition agree (x y : result (smap * dmap) * lexer) : Prop :=
  assignmentsOf (fst x) = assignmentsOf (fst y) /\ snd x = snd y.

(** The runes [next] rejects: those that reach the last branch of its
    [switch]. *)
Definition rejected (c : rune) : bool :=
  negb (c =? ch "#") && negb (unicode_IsSpace c) && negb (c =? ch "{")
  && negb (c =? ch "}") && negb (c =? ch "=") && negb (c =? ch ";")
  && negb (c =? quote) && negb (isIdentStart c).

(** The body of a string literal and the text it stands for, in the words of
    section 4.1: a backslash and the rune after it stand for that rune, any
    other rune but the quote stands for itself. *)
Inductive literal : list rune -> gostring -> Prop :=
| literal_nil : literal [] []
| literal_escape (x : rune) (s : list rune) (t : gostring) :
    literal s t -> literal (backslash :: x :: s) (x :: t)
| literal_plain (c : rune) (s : list rune) (t : gostring) :
    c <> quote -> c <> backslash -> literal s t -> literal (c :: s) (c :: t).

(** A line that is skipped, in the words of section 4.5: it is empty or
    whitespace-only, or its first non-whitespace character is the comment
    marker. *)
Definition skipped (line : gostring) : bool :=
  match trimLeft line with
  | [] => true
  | c :: _ => c =? ch "#"
  end.

(** A rune that is not whitespace. *)
Definition nonspace (c : rune) : bool := negb (unicode_IsSpace c).

(** A data line that does not have exactly two fields. *)
Definition malformed (line : gostring) : bool :=
  negb (skipped line) && negb (Nat.eqb (length (fields line)) 2).

(** The boolean a literal value stands for, in the words of section 4.3: a
    case-insensitive match of the two literals. *)
Definition coerce (v : gostring) : option bool :=
  if decide (strings_ToLower v = str "true") then Some true
  else if decide (strings_ToLower v = str "false") then Some false
  else None.

(** The optional-boolean keys of the signing configuration and their fields,
    in the order [ParseDKIMSigningConf] sets them. *)
Definition boolFields : list (gostring * (DKIMSigningConf -> option bool)) :=
  [ (str "enabled", sEnabled);
    (str "allow_username_mismatch", AllowUsernameMismatch);
    (str "sign_authenticated", SignAuthenticated);
    (str "sign_local", SignLocal);
    (str "sign_inbound", SignInbound);
    (str "allow_hdrfrom_mismatch", AllowHdrFromMismatch);
    (str "use_esld", UseESLD);
    (str "try_fallback", TryFallback) ].

(** A field agrees with the Assignment Map: unset when the key is absent, the
    coerced boolean when it is present. *)
Definition fieldAgrees (a : smap) (conf : DKIMSigningConf)
    (kf : gostring * (DKIMSigningConf -> option bool)) : Prop :=
  match a !! fst kf with
  | None => snd kf conf = None
  | Some v => exists b, coerce v = Some b /\ snd kf conf = Some b
  end.

(** The key is present with a value that is no boolean. *)
Definition invalidAt (a : smap) (key : gostring) : Prop :=
  exists v, a !! key = Some v /\ coerce v = None.

(** The texts of section 8: a domain block for [a.com], and a later block
    with the same label. *)
Definition firstBlock : gostring :=
  str "domain { " ++ quoted (str "a.com") ++ str " { selector = s1; path = "
  ++ quoted (str "/p") ++ str " } }".
Definition laterBlock : gostring :=
  str "domain { " ++ quoted (str "a.com") ++ str " { selector = s2 } }".

(** The keys assigned at the top level of a configuration. *)
Definition topKeys (items : list item) : list gostring :=
  flat_map (fun i => match i with ItemAssign a => [akey a] | ItemDomain _ _ => [] end)
           items.

(** Sample configurations for the runs at the end of the file. *)
Definition sampleRule : list assignment :=
  [Assign (str "selector") (Bare (str "s2")) false].
Definition sampleEarlier : list item :=
  [ ItemAssign (Assign (str "selector") (Bare (str "s0")) true);
    ItemDomain [Entry (Quoted (str "a.com"))
                  [Assign (str "selector") (Bare (str "s1")) true;
                   Assign (str "path") (Quoted (str "/p")) false] false] false ].
Definition sampleEntries : list entry :=
  [Entry (Bare (str "example.org"))
     [Assign (str "selector") (Bare (str "s1")) true] true].
Definition sampleItems : list item :=
  [ItemAssign (Assign (str "path") (Quoted (str "/k")) true);
   ItemDomain sampleEntries true].
Definition sampleEnabled : list item :=
  [ItemAssign (Assign (str "enabled") (Bare (str "true")) false)].
Definition sampleBlock : list entry :=
  [Entry (Bare (str "x")) [Assign (str "k") (Bare (str "v")) false] false].

(** The signing configuration of an input without assignments or blocks. *)
Definition unsetSigningConf : DKIMSigningConf :=
  {| sEnabled := None; AllowUsernameMismatch := None; SignAuthenticated := None;
     SignLocal := None; SignInbound := None; UseDomain := [];
     UseDomainSignLocal := []; UseDomainSignNetworks := [];
     AllowHdrFromMismatch := None; UseESLD := None; TryFallback := None;
     sPath := []; sSelector := []; PathMap := []; SelectorMap := [];
     Domain := ∅ |}.

(** Text the lexer passes over between two tokens: whitespace, and comments
    that run from the comment marker to the end of their line. *)
Inductive gap : list rune -> Prop :=
| gap_nil : gap []
| gap_space (c : rune) (g : list rune) :
    unicode_IsSpace c = true -> gap g -> gap (c :: g)
| gap_comment (comment g : list rune) :
    forallb (fun c => negb (c =? 10)) comment = true -> gap g ->
    gap (ch "#" :: comment ++ 10 :: g).

(** A gap whose first rune ends an identifier written before it. *)
Definition separates (g : list rune) : bool :=
  match g with
  | [] => false
  | c :: _ => negb (isIdentPart c)
  end.

(** Items, each followed by its own gap. *)
Definition renderSpaced (xs : list (item * list rune)) : gostring :=
  flat_map (fun x => renderItem (fst x) ++ snd x) xs.

(** A string without whitespace at either end. *)
Definition trimmed (s : gostring) : Prop :=
  trimLeft s = s /\ trimLeft (rev s) = rev s.

(** The entries a sign-header list can hold: a name that is not empty, has
    no whitespace at either end and no colon, at most one flag, and, without
    a flag, a name that does not itself start with a marker. *)
Definition wfSignHeader (h : SignHeader) : Prop :=
  Name h <> [] /\ trimmed (Name h) /\ ~ In (ch ":") (Name h)
  /\ Oversigned h && OptionalOversigned h = false
  /\ (Oversigned h || OptionalOversigned h = false ->
      strings_HasPrefix (Name h) (str "(o)") = false
      /\ strings_HasPrefix (Name h) (str "(x)") = false).

(** An entry as it is written in [sign_headers], and a list of entries
    joined by colons. *)
Definition renderSignHeader (h : SignHeader) : gostring :=
  (if Oversigned h then str "(o)"
   else if OptionalOversigned h then str "(x)" else [])
  ++ Name h.

Fixpoint renderSignHeaders (hs : list SignHeader) : gostring :=
  match hs with
  | [] => []
  | h :: hs' =>
      match hs' with
      | [] => renderSignHeader h
      | _ :: _ => renderSignHeader h ++ str ":" ++ renderSignHeaders hs'
      end
  end.

(** Assignments written without any whitespace, each with its semicolon. *)
Definition renderCompact (body : list assignment) : gostring :=
  flat_map (fun a => akey a ++ str "=" ++ renderValue (avalue a) ++ str ";") body.

(** The keys [ParseDKIMSigningConf] reads from the Assignment Map. *)
Definition signingKeys : list gostring :=
  [ str "enabled"; str "allow_username_mismatch"; str "sign_authenticated";
    str "sign_local"; str "sign_inbound"; str "allow_hdrfrom_mismatch";
    str "use_esld"; str "try_fallback"; str "use_domain";
    str "use_domain_sign_local"; str "use_domain_sign_networks"; str "path";
    str "selector"; str "path_map"; str "selector_map" ].

(** More sample texts and configurations for the runs at the end of the
    file: a space and a comment line, spaced items, and sign-header entries. *)
Definition sampleGap : list rune := 32 :: ch "#" :: str " note" ++ [10].
Definition sampleSpaced : list (item * list rune) :=
  [ (ItemAssign (Assign (str "enabled") (Bare (str "true")) false), sampleGap);
    (ItemDomain sampleBlock false, [10]) ].
Definition sampleAgain : assignment :=
  Assign (str "enabled") (Bare (str "false")) true.
Definition sampleOther : assignment :=
  Assign (str "other") (Bare (str "x")) false.
Definition sampleHeaders : list SignHeader :=
  [ mkSignHeader (str "from") true false;
    mkSignHeader (str "date") false true;
    mkSignHeader (str "plain") false false ].
Definition sampleCompact : list assignment :=
  [ Assign (str "a") (Bare (str "b")) true;
    Assign (str "c") (Quoted (str "d e")) true ].

(** The pairs of the data lines of a map file, in order, in the words of
    section 4.5: a line that is not skipped and has exactly two fields gives
    its key and its value. *)
Definition dataPairs (lines : list gostring) : list (gostring * gostring) :=
  flat_map (fun line =>
              if skipped line then []
              else match fields line with
                   | [key; value] => [(key, value)]
                   | _ => []
                   end) lines.

(** A pair added to a mapping: a later key overwrites an earlier one. *)
Definition addPair (m : smap) (kv : gostring * gostring) : smap :=
  <[fst kv := snd kv]> m.

(** A map file with a comment, a blank line, a key given twice and a tab as
    separator; and one whose second line has a single field. *)
Definition sampleMapFile : gostring :=
  str "# selectors" ++ [10] ++ [10] ++ str "foo.com   bar" ++ [10]
  ++ str "foo.com baz" ++ [10] ++ str "test.mailer.com" ++ [9] ++ str "mail" ++ [10].
Definition sampleBadMapFile : gostring :=
  str "a b" ++ [10] ++ str "lonely" ++ [10] ++ str "c d" ++ [10].

(** Case-insensitive equality with a literal written in lower-case ASCII
    letters, rune by rune: each rune of [v] is the letter of the literal or
    its capital, 32 below. *)
Fixpoint equalFold (v lit : gostring) : bool :=
  match v, lit with
  | [], [] => true
  | r :: v', c :: lit' => ((r =? c) || (r =? c - 32)) && equalFold v' lit'
  | _, _ => false
  end.

(** The boolean of section 4.3, without lower-casing the value. *)
Definition literalOf (v : gostring) : option bool :=
  if equalFold v (str "true") then Some true
  else if equalFold v (str "false") then Some false
  else None.

Definition isASCII (r : rune) : bool := (0 <=? r) && (r <=? MaxASCII).

(** A signing configuration whose only set field is [SignLocal]. *)
Definition onlySignLocal (b : bool) : DKIMSigningConf :=
  {| sEnabled := None; AllowUsernameMismatch := None; SignAuthenticated := None;
     SignLocal := Some b; SignInbound := None; UseDomain := [];
     UseDomainSignLocal := []; UseDomainSignNetworks := [];
     AllowHdrFromMismatch := None; UseESLD := None; TryFallback := None;
     sPath := []; sSelector := []; PathMap := []; SelectorMap := [];
     Domain := ∅ |}.

(** * Properties *)

(** ** The lexer always answers *)

Lemma skipLine_length (s : list rune) :
  (length (skipLine s) <= length s)%nat.
Proof.
  induction s as [|c s IH]; simpl; [lia|].
  destruct (c =? 10); lia.
Qed.

Lemma readIdent_length (s buf : list rune) :
  (length (snd (readIdent s buf)) <= length s)%nat.
Proof.
  revert buf; induction s as [|c s IH]; intros buf; simpl; [lia|].
  destruct (isIdentPart c); simpl; [|lia].
  specialize (IH (buf ++ [c])); lia.
Qed.

Lemma readString_length (s : list rune) (b : gostring) :
  (length (snd (readString s b)) <= length s)%nat.
Proof.
  remember (length s) as n eqn:Hn.
  assert (Hle : (length s <= n)%nat) by lia. clear Hn.
  revert s b Hle; induction n as [|n IH]; intros s b Hle.
  - destruct s; simpl in *; lia.
  - destruct s as [|c s]; simpl in *; [lia|].
    destruct (c =? quote); simpl; [lia|].
    destruct (c =? backslash).
    + destruct s as [|esc s]; simpl in *; [lia|].
      specialize (IH s (b ++ [esc])); lia.
    + specialize (IH s (b ++ [c])); lia.
Qed.

Lemma readString_not_timeout (s : list rune) (b : gostring) :
  fst (readString s b) <> OutOfFuel.
Proof.
  remember (length s) as n eqn:Hn.
  assert (Hle : (length s <= n)%nat) by lia. clear Hn.
  revert s b Hle; induction n as [|n IH]; intros s b Hle.
  - destruct s; simpl in *; [discriminate|lia].
  - destruct s as [|c s]; simpl in *; [discriminate|].
    destruct (c =? quote); simpl; [discriminate|].
    destruct (c =? backslash).
    + destruct s as [|esc s]; simpl in *; [discriminate|].
      apply IH; lia.
    + apply IH; lia.
Qed.

(** Any two budgets above the length of the reader give the same answer. *)
Lemma next_loop_fuel (f1 f2 : nat) (s : list rune) :
  (length s < f1)%nat -> (length s < f2)%nat ->
  next_loop f1 s = next_loop f2 s.
Proof.
  revert f2 s; induction f1 as [|f1 IH]; intros f2 s H1 H2; [lia|].
  destruct f2 as [|f2]; [lia|].
  destruct s as [|c rest]; simpl; [reflexivity|].
  simpl in H1, H2.
  destruct (c =? ch "#").
  { pose proof (skipLine_length rest). apply IH; lia. }
  destruct (unicode_IsSpace c); [apply IH; lia|reflexivity].
Qed.

Lemma lex_nil : lex [] = (Ok (Token tokenEOF []), []).
Proof. reflexivity. Qed.

(** The loop of [next], one iteration at a time. *)
Lemma lex_cons (c : rune) (rest : list rune) :
  lex (c :: rest) =
    if c =? ch "#" then lex (skipLine rest)
    else if unicode_IsSpace c then lex rest
    else if c =? ch "{" then (Ok (Token tokenLBrace []), rest)
    else if c =? ch "}" then (Ok (Token tokenRBrace []), rest)
    else if c =? ch "=" then (Ok (Token tokenEqual []), rest)
    else if c =? ch ";" then (Ok (Token tokenSemicolon []), rest)
    else if c =? quote then
      match readString rest [] with
      | (Ok s', rest') => (Ok (Token tokenString s'), rest')
      | (Err e, rest') => (Err e, rest')
      | (OutOfFuel, rest') => (OutOfFuel, rest')
      end
    else if isIdentStart c then
      let '(buf, rest') := readIdent rest [c] in
      (Ok (Token tokenIdent buf), rest')
    else (Err (ErrUnexpectedCharacter c), rest).
Proof.
  unfold lex at 1. cbn [length].
  remember (S (length rest)) as f eqn:Hf. cbn [next_loop].
  destruct (c =? ch "#").
  { pose proof (skipLine_length rest). apply next_loop_fuel; lia. }
  destruct (unicode_IsSpace c); [apply next_loop_fuel; lia|reflexivity].
Qed.

(** [lex] never runs out of budget, never lengthens the reader, and
    shortens it whenever it returns a token other than end of input. *)
Lemma lex_spec (s : list rune) :
  fst (lex s) <> OutOfFuel /\
  (length (snd (lex s)) <= length s)%nat /\
  (forall tok, fst (lex s) = Ok tok -> typ tok <> tokenEOF ->
     (length (snd (lex s)) < length s)%nat).
Proof.
  remember (length s) as n eqn:Hn.
  assert (Hle : (length s <= n)%nat) by lia.
  rewrite Hn. clear Hn.
  revert s Hle; induction n as [|n IH]; intros s Hle.
  { destruct s; simpl in Hle; [|lia]. rewrite lex_nil; simpl.
    repeat split; [discriminate|lia|]. intros tok [= <-]; simpl; congruence. }
  destruct s as [|c rest]; simpl in Hle.
  { rewrite lex_nil; simpl.
    repeat split; [discriminate|lia|]. intros tok [= <-]; simpl; congruence. }
  rewrite lex_cons.
  destruct (c =? ch "#").
  { pose proof (skipLine_length rest) as Hs.
    destruct (IH (skipLine rest) ltac:(lia)) as (H1 & H2 & H3).
    repeat split; [exact H1|simpl; lia|].
    intros tok Ht Hne. specialize (H3 tok Ht Hne). simpl; lia. }
  destruct (unicode_IsSpace c).
  { destruct (IH rest ltac:(lia)) as (H1 & H2 & H3).
    repeat split; [exact H1|simpl; lia|].
    intros tok Ht Hne. specialize (H3 tok Ht Hne). simpl; lia. }
  destruct (c =? ch "{"); [simpl; repeat split; [discriminate|lia|intros; lia]|].
  destruct (c =? ch "}"); [simpl; repeat split; [discriminate|lia|intros; lia]|].
  destruct (c =? ch "="); [simpl; repeat split; [discriminate|lia|intros; lia]|].
  destruct (c =? ch ";"); [simpl; repeat split; [discriminate|lia|intros; lia]|].
  destruct (c =? quote).
  { pose proof (readString_length rest []) as Hl.
    pose proof (readString_not_timeout rest []) as Ht.
    destruct (readString rest []) as [[str'|e|] rest']; simpl in *;
      repeat split; try discriminate; try lia; try congruence; intros; lia. }
  destruct (isIdentStart c).
  { pose proof (readIdent_length rest [c]) as Hl.
    destruct (readIdent rest [c]) as [buf rest']; simpl in *.
    repeat split; [discriminate|lia|intros; lia]. }
  simpl; repeat split; [discriminate|lia|intros; lia].
Qed.


(** ** The parser always answers *)

Lemma good_le {A : Type} (n m : nat) (x : result A * lexer) :
  good n x -> (n <= m)%nat -> good m x.
Proof. intros [H1 H2] Hle; split; [exact H1|lia]. Qed.

Lemma good_bind {A B : Type} (n : nat) (m : M A) (k : A -> M B) (l : lexer) :
  good n (m l) ->
  (forall a l', m l = (Ok a, l') -> good n (k a l')) ->
  good n (bind m k l).
Proof.
  intros Hm Hk. unfold bind.
  destruct (m l) as [[a|e|] l'] eqn:E; [apply Hk; reflexivity|..];
    destruct Hm as [H1 H2]; split; simpl in *; congruence.
Qed.

Lemma bind_ext {A B : Type} (m : M A) (k1 k2 : A -> M B) (l : lexer) :
  (forall a l', m l = (Ok a, l') -> k1 a l' = k2 a l') ->
  bind m k1 l = bind m k2 l.
Proof.
  intros H. unfold bind.
  destruct (m l) as [[a|e|] l'] eqn:E; [apply H; reflexivity|reflexivity..].
Qed.

Lemma good_discard {A : Type} (n : nat) (m : M A) (l : lexer) :
  good n (m l) -> good n (discard m l).
Proof.
  unfold discard, good. destruct (m l) as [[a|e|] l']; simpl; intuition discriminate.
Qed.

Lemma next_ok (l l1 : lexer) (t : token) :
  next l = (Ok t, l1) ->
  peek l1 = None /\ (size l1 <= size l)%nat /\
  (peek l = None -> typ t <> tokenEOF -> (size l1 < size l)%nat).
Proof.
  unfold next, size. destruct l as [s [p|]]; simpl.
  - intros [= <- <-]; simpl. repeat split; [lia|discriminate].
  - destruct (lex_spec s) as (_ & H2 & H3).
    destruct (lex s) as [r rest] eqn:E; simpl in *.
    intros [= -> <-]; simpl. repeat split; [exact H2|].
    intros _ Hne. apply (H3 t); [reflexivity|exact Hne].
Qed.

Lemma next_good (l : lexer) : good (size l) (next l).
Proof.
  unfold next, good, size. destruct l as [s [p|]]; simpl.
  - split; [discriminate|lia].
  - destruct (lex_spec s) as (H1 & H2 & _).
    destruct (lex s) as [r rest]; simpl in *. split; assumption.
Qed.

Lemma expect_ok (ty : tokenType) (l l1 : lexer) (u : unit) :
  expect ty l = (Ok u, l1) ->
  peek l1 = None /\ (size l1 <= size l)%nat /\
  (peek l = None -> ty <> tokenEOF -> (size l1 < size l)%nat).
Proof.
  unfold expect, bind. destruct (next l) as [[t|e|] l2] eqn:E; try discriminate.
  destruct (tokenType_eqb (typ t) ty) eqn:Et; [|discriminate].
  intros [= _ <-]. destruct (next_ok _ _ _ E) as (H1 & H2 & H3).
  repeat split; [exact H1|exact H2|].
  intros Hp Hne. apply H3; [exact Hp|].
  intros Heof. apply Hne. rewrite Heof in Et. destruct ty; simpl in Et; congruence.
Qed.

Lemma expect_good (ty : tokenType) (l : lexer) : good (size l) (expect ty l).
Proof.
  unfold expect. apply good_bind; [apply next_good|].
  intros t l' E. destruct (next_ok _ _ _ E) as (_ & H & _).
  destruct (tokenType_eqb (typ t) ty); split; simpl; try discriminate; exact H.
Qed.

Lemma parseValue_ok (l l1 : lexer) (v : gostring) :
  parseValue l = (Ok v, l1) -> peek l1 = None /\ (size l1 <= size l)%nat.
Proof.
  unfold parseValue, bind. destruct (next l) as [[t|e|] l2] eqn:E; try discriminate.
  destruct (next_ok _ _ _ E) as (H1 & H2 & _).
  destruct (typ t); simpl; try discriminate; intros [= _ <-]; split; assumption.
Qed.

Lemma parseValue_good (l : lexer) : good (size l) (parseValue l).
Proof.
  unfold parseValue. apply good_bind; [apply next_good|].
  intros t l' E. destruct (next_ok _ _ _ E) as (_ & H & _).
  destruct (typ t); split; simpl; try discriminate; exact H.
Qed.

Lemma tryConsume_good (ty : tokenType) (l : lexer) : good (size l) (tryConsume ty l).
Proof.
  unfold tryConsume. apply good_bind; [apply next_good|].
  intros t l' E. destruct (next_ok _ _ _ E) as (_ & H & _).
  destruct (tokenType_eqb (typ t) ty); split; simpl; try discriminate; exact H.
Qed.

Lemma skipSemicolon_good (l : lexer) :
  good (size l) (discard (tryConsume tokenSemicolon) l).
Proof. apply good_discard, tryConsume_good. Qed.

Lemma good_ok {A : Type} (n : nat) (m : M A) (l l' : lexer) (a : A) :
  good n (m l) -> m l = (Ok a, l') -> (size l' <= n)%nat.
Proof. intros [_ H] E. rewrite E in H. exact H. Qed.

Ltac ok_size :=
  repeat match goal with
    | H : next _ = (Ok _, _) |- _ => apply next_ok in H; destruct H as (? & ? & ?)
    | H : expect _ _ = (Ok _, _) |- _ => apply expect_ok in H; destruct H as (? & ? & ?)
    | H : parseValue _ = (Ok _, _) |- _ => apply parseValue_ok in H; destruct H as (? & ?)
    | H : discard (tryConsume tokenSemicolon) ?l = (Ok _, _) |- _ =>
        apply (good_ok _ _ _ _ _ (skipSemicolon_good l)) in H
    end.

Lemma ruleLoop_good (f : nat) (rule : smap) (l : lexer) :
  (size l < f)%nat -> good (size l) (ruleLoop f rule l).
Proof.
  revert rule l; induction f as [|f IH]; intros rule l Hf; [lia|].
  cbn [ruleLoop]. apply good_bind; [apply next_good|]. intros t l1 E1.
  assert (Hs1 := E1). ok_size.
  destruct (tokenType_eqb (typ t) tokenRBrace).
  { apply good_bind; [eapply good_le; [apply skipSemicolon_good|lia]|].
    intros u l2 E2. ok_size. split; simpl; [discriminate|lia]. }
  destruct (negb (tokenType_eqb (typ t) tokenIdent)).
  { split; simpl; [discriminate|lia]. }
  apply good_bind; [eapply good_le; [apply expect_good|lia]|]. intros u l2 E2.
  ok_size.
  apply good_bind; [eapply good_le; [apply parseValue_good|lia]|]. intros v l3 E3.
  ok_size.
  apply good_bind; [eapply good_le; [apply skipSemicolon_good|lia]|]. intros u' l4 E4.
  ok_size.
  assert (size l2 < size l1)%nat by (match goal with H : _ -> _ -> (size l2 < _)%nat |- _ => apply H; [assumption|discriminate] end).
  eapply good_le; [apply IH; lia|lia].
Qed.

Lemma ruleLoop_fuel (f1 f2 : nat) (rule : smap) (l : lexer) :
  (size l < f1)%nat -> (size l < f2)%nat ->
  ruleLoop f1 rule l = ruleLoop f2 rule l.
Proof.
  revert f2 rule l; induction f1 as [|f1 IH]; intros f2 rule l H1 H2; [lia|].
  destruct f2 as [|f2]; [lia|]. cbn [ruleLoop].
  apply bind_ext. intros t l1 E1. ok_size.
  destruct (tokenType_eqb (typ t) tokenRBrace); [reflexivity|].
  destruct (negb (tokenType_eqb (typ t) tokenIdent)); [reflexivity|].
  apply bind_ext. intros u l2 E2. ok_size.
  apply bind_ext. intros v l3 E3. ok_size.
  apply bind_ext. intros u' l4 E4. ok_size.
  assert (size l2 < size l1)%nat by (match goal with H : _ -> _ -> (size l2 < _)%nat |- _ => apply H; [assumption|discriminate] end).
  apply IH; lia.
Qed.

Ltac shorter l2 l1 :=
  assert (size l2 < size l1)%nat
    by (match goal with
        | H : _ -> _ -> (size l2 < _)%nat |- _ => apply H; [assumption|discriminate]
        end).

Lemma domainLoop_good (f : nat) (domains : dmap) (l : lexer) :
  (size l < f)%nat -> good (size l) (domainLoop f domains l).
Proof.
  revert domains l; induction f as [|f IH]; intros domains l Hf; [lia|].
  cbn [domainLoop]. apply good_bind; [apply next_good|]. intros t l1 E1. ok_size.
  assert (Hentry : good (size l)
            ((expect tokenLBrace ;;;
              rule <- ruleLoop f ∅ ;;
              domainLoop f (<[val t := rule]> domains)) l1)).
  { apply good_bind; [eapply good_le; [apply expect_good|lia]|]. intros u l2 E2.
    ok_size. shorter l2 l1.
    apply good_bind; [eapply good_le; [apply ruleLoop_good|]; lia|]. intros r l3 E3.
    apply (good_ok _ _ _ _ _ (ruleLoop_good f ∅ l2 ltac:(lia))) in E3.
    eapply good_le; [apply IH|]; lia. }
  destruct (typ t); try exact Hentry; try (split; simpl; [discriminate|lia]).
  apply good_bind; [eapply good_le; [apply skipSemicolon_good|lia]|].
  intros u l2 E2. ok_size. split; simpl; [discriminate|lia].
Qed.

Lemma domainLoop_fuel (f1 f2 : nat) (domains : dmap) (l : lexer) :
  (size l < f1)%nat -> (size l < f2)%nat ->
  domainLoop f1 domains l = domainLoop f2 domains l.
Proof.
  revert f2 domains l; induction f1 as [|f1 IH]; intros f2 domains l H1 H2; [lia|].
  destruct f2 as [|f2]; [lia|]. cbn [domainLoop].
  apply bind_ext. intros t l1 E1. ok_size.
  assert (Hentry :
    (expect tokenLBrace ;;; rule <- ruleLoop f1 ∅ ;;
     domainLoop f1 (<[val t := rule]> domains)) l1 =
    (expect tokenLBrace ;;; rule <- ruleLoop f2 ∅ ;;
     domainLoop f2 (<[val t := rule]> domains)) l1).
  { apply bind_ext. intros u l2 E2. ok_size. shorter l2 l1.
    unfold bind. rewrite (ruleLoop_fuel f1 f2 ∅ l2) by lia.
    destruct (ruleLoop f2 ∅ l2) as [[r|e|] l3] eqn:E3; try reflexivity.
    apply (good_ok _ _ _ _ _ (ruleLoop_good f2 ∅ l2 ltac:(lia))) in E3.
    apply IH; lia. }
  destruct (typ t); try exact Hentry; reflexivity.
Qed.

Lemma parseDomainBlock_good (f : nat) (domains : dmap) (l : lexer) :
  peek l = None -> (size l <= f)%nat ->
  good (size l) (parseDomainBlock f domains l) /\
  forall d l', parseDomainBlock f domains l = (Ok d, l') -> (size l' < size l)%nat.
Proof.
  intros Hp Hf. unfold parseDomainBlock. split.
  - apply good_bind; [apply expect_good|]. intros u l1 E1. ok_size. shorter l1 l.
    eapply good_le; [apply domainLoop_good|]; lia.
  - intros d l'. unfold bind.
    destruct (expect tokenLBrace l) as [[u|e|] l1] eqn:E1; try discriminate.
    ok_size. shorter l1 l. intros E2.
    apply (good_ok _ _ _ _ _ (domainLoop_good f domains l1 ltac:(lia))) in E2. lia.
Qed.

Lemma parseDomainBlock_fuel (f1 f2 : nat) (domains : dmap) (l : lexer) :
  peek l = None -> (size l <= f1)%nat -> (size l <= f2)%nat ->
  parseDomainBlock f1 domains l = parseDomainBlock f2 domains l.
Proof.
  intros Hp H1 H2. unfold parseDomainBlock.
  apply bind_ext. intros u l1 E1. ok_size. shorter l1 l.
  apply domainLoop_fuel; lia.
Qed.

Lemma configLoop_good (f : nat) (assignments : smap) (domains : dmap) (l : lexer) :
  (size l < f)%nat -> good (size l) (configLoop f assignments domains l).
Proof.
  revert assignments domains l; induction f as [|f IH];
    intros assignments domains l Hf; [lia|].
  cbn [configLoop]. apply good_bind; [apply next_good|]. intros t l1 E1. ok_size.
  destruct (typ t); try (split; simpl; [discriminate|lia]).
  destruct (decide (val t = str "domain")).
  - destruct (parseDomainBlock_good f domains l1 ltac:(assumption) ltac:(lia))
      as [Hg Hlt].
    apply good_bind; [eapply good_le; [exact Hg|lia]|]. intros d l2 E2.
    apply Hlt in E2. eapply good_le; [apply IH|]; lia.
  - apply good_bind; [eapply good_le; [apply expect_good|lia]|]. intros u l2 E2.
    ok_size. shorter l2 l1.
    apply good_bind; [eapply good_le; [apply parseValue_good|lia]|]. intros v l3 E3.
    ok_size.
    apply good_bind; [eapply good_le; [apply skipSemicolon_good|lia]|].
    intros u' l4 E4. ok_size.
    eapply good_le; [apply IH|]; lia.
Qed.

Lemma configLoop_fuel (f1 f2 : nat) (assignments : smap) (domains : dmap)
    (l : lexer) :
  (size l < f1)%nat -> (size l < f2)%nat ->
  configLoop f1 assignments domains l = configLoop f2 assignments domains l.
Proof.
  revert f2 assignments domains l; induction f1 as [|f1 IH];
    intros f2 assignments domains l H1 H2; [lia|].
  destruct f2 as [|f2]; [lia|]. cbn [configLoop].
  apply bind_ext. intros t l1 E1. ok_size.
  destruct (typ t); try reflexivity.
  destruct (decide (val t = str "domain")).
  - unfold bind.
    rewrite (parseDomainBlock_fuel f1 f2 domains l1) by (assumption || lia).
    destruct (parseDomainBlock_good f2 domains l1 ltac:(assumption) ltac:(lia))
      as [_ Hlt].
    destruct (parseDomainBlock f2 domains l1) as [[d|err|] l2] eqn:E2; try reflexivity.
    specialize (Hlt d l2 eq_refl). apply IH; lia.
  - apply bind_ext. intros u l2 E2. ok_size. shorter l2 l1.
    apply bind_ext. intros v l3 E3. ok_size.
    apply bind_ext. intros u' l4 E4. ok_size.
    apply IH; lia.
Qed.

Lemma parseRspamdConfig_parseConfig (input : list rune) :
  parseRspamdConfig input = fst (parseConfig ∅ ∅ (newLexer input)).
Proof. reflexivity. Qed.

(** One iteration of each loop, without budgets. *)
Lemma parseRule_eq (rule : smap) (l : lexer) :
  parseRule rule l =
    (t <- next ;;
     if tokenType_eqb (typ t) tokenRBrace then
       discard (tryConsume tokenSemicolon) ;;; ret rule
     else if negb (tokenType_eqb (typ t) tokenIdent) then
       fail (ErrUnexpectedTokenInDomainRule (typ t))
     else
       expect tokenEqual ;;;
       v <- parseValue ;;
       discard (tryConsume tokenSemicolon) ;;;
       parseRule (<[val t := v]> rule)) l.
Proof.
  unfold parseRule at 1. cbn [ruleLoop].
  apply bind_ext. intros t l1 E1. ok_size.
  destruct (tokenType_eqb (typ t) tokenRBrace); [reflexivity|].
  destruct (negb (tokenType_eqb (typ t) tokenIdent)); [reflexivity|].
  apply bind_ext. intros u l2 E2. ok_size. shorter l2 l1.
  apply bind_ext. intros v l3 E3. ok_size.
  apply bind_ext. intros u' l4 E4. ok_size.
  unfold parseRule. apply ruleLoop_fuel; lia.
Qed.

Lemma parseDomains_eq (domains : dmap) (l : lexer) :
  parseDomains domains l =
    (tok <- next ;;
     match typ tok with
     | tokenRBrace => discard (tryConsume tokenSemicolon) ;;; ret domains
     | tokenIdent | tokenString =>
         expect tokenLBrace ;;;
         rule <- parseRule ∅ ;;
         parseDomains (<[val tok := rule]> domains)
     | t => fail (ErrUnexpectedTokenInDomainBlock t)
     end) l.
Proof.
  unfold parseDomains at 1. cbn [domainLoop].
  apply bind_ext. intros t l1 E1. ok_size.
  assert (Hentry :
    (expect tokenLBrace ;;; rule <- ruleLoop (size l) ∅ ;;
     domainLoop (size l) (<[val t := rule]> domains)) l1 =
    (expect tokenLBrace ;;; rule <- parseRule ∅ ;;
     parseDomains (<[val t := rule]> domains)) l1).
  { apply bind_ext. intros u l2 E2. ok_size. shorter l2 l1.
    unfold bind, parseRule. rewrite (ruleLoop_fuel (size l) (S (size l2)) ∅ l2) by lia.
    destruct (ruleLoop (S (size l2)) ∅ l2) as [[r|e|] l3] eqn:E3; try reflexivity.
    apply (good_ok _ _ _ _ _ (ruleLoop_good (S (size l2)) ∅ l2 ltac:(lia))) in E3.
    unfold parseDomains. apply domainLoop_fuel; lia. }
  destruct (typ t); try exact Hentry; reflexivity.
Qed.

Lemma parseConfig_eq (assignments : smap) (domains : dmap) (l : lexer) :
  parseConfig assignments domains l =
    (tok <- next ;;
     match typ tok with
     | tokenEOF => ret (assignments, domains)
     | tokenIdent =>
         if decide (val tok = str "domain") then
           domains' <- (expect tokenLBrace ;;; parseDomains domains) ;;
           parseConfig assignments domains'
         else
           expect tokenEqual ;;;
           v <- parseValue ;;
           discard (tryConsume tokenSemicolon) ;;;
           parseConfig (<[val tok := v]> assignments) domains
     | t => fail (ErrUnexpectedToken t)
     end) l.
Proof.
  unfold parseConfig at 1. cbn [configLoop].
  apply bind_ext. intros t l1 E1. ok_size.
  destruct (typ t); try reflexivity.
  destruct (decide (val t = str "domain")).
  - assert (Hblock : parseDomainBlock (size l) domains l1 =
                     (expect tokenLBrace ;;; parseDomains domains) l1).
    { unfold parseDomainBlock. apply bind_ext. intros u l2 E2. ok_size. shorter l2 l1.
      unfold parseDomains. apply domainLoop_fuel; lia. }
    transitivity ((domains' <- parseDomainBlock (size l) domains ;;
                   parseConfig assignments domains') l1).
    2:{ unfold bind at 1 3. rewrite Hblock. reflexivity. }
    apply bind_ext. intros d l2 E2.
    destruct (parseDomainBlock_good (size l) domains l1 ltac:(assumption) ltac:(lia))
      as [_ Hlt].
    specialize (Hlt d l2 E2). unfold parseConfig. apply configLoop_fuel; lia.
  - apply bind_ext. intros u l2 E2. ok_size. shorter l2 l1.
    apply bind_ext. intros v l3 E3. ok_size.
    apply bind_ext. intros u' l4 E4. ok_size.
    unfold parseConfig. apply configLoop_fuel; lia.
Qed.

(** The generic parser returns a result or an error on every input. *)
Lemma parseRspamdConfig_total (input : list rune) :
  parseRspamdConfig input <> OutOfFuel.
Proof.
  unfold parseRspamdConfig.
  apply (configLoop_good (S (length input)) ∅ ∅ (newLexer input)).
  unfold size; simpl; lia.
Qed.

(** ** Sign-header lists *)

Lemma strings_Split_nonempty (s : gostring) (sep : rune) :
  strings_Split s sep <> [].
Proof.
  induction s as [|c s IH]; simpl; [discriminate|].
  destruct (c =? sep); [discriminate|].
  destruct (strings_Split s sep); [contradiction|discriminate].
Qed.

(** Splitting distributes over a separator. *)
Lemma strings_Split_app (a b : gostring) (sep : rune) :
  strings_Split (a ++ sep :: b) sep = strings_Split a sep ++ strings_Split b sep.
Proof.
  induction a as [|c a IH]; simpl.
  - rewrite Z.eqb_refl. reflexivity.
  - destruct (c =? sep); [rewrite IH; reflexivity|].
    rewrite IH. pose proof (strings_Split_nonempty a sep) as Hne.
    destruct (strings_Split a sep); [contradiction|reflexivity].
Qed.

Lemma parseSignHeaders_app (a b : gostring) :
  parseSignHeaders (a ++ str ":" ++ b) = parseSignHeaders a ++ parseSignHeaders b.
Proof.
  unfold parseSignHeaders. change (str ":" ++ b) with (ch ":" :: b).
  rewrite strings_Split_app, flat_map_app. reflexivity.
Qed.

Lemma trimLeft_blank (ws : gostring) :
  forallb unicode_IsSpace ws = true -> trimLeft ws = [].
Proof.
  induction ws as [|c ws IH]; simpl; [reflexivity|].
  intros H. apply andb_prop in H as [Hc Hws]. rewrite Hc. exact (IH Hws).
Qed.

Lemma strings_TrimSpace_blank (ws : gostring) :
  forallb unicode_IsSpace ws = true -> strings_TrimSpace ws = [].
Proof.
  intros H. unfold strings_TrimSpace. rewrite (trimLeft_blank ws H). reflexivity.
Qed.

Lemma strings_Split_blank (ws : gostring) :
  forallb unicode_IsSpace ws = true -> strings_Split ws (ch ":") = [ws].
Proof.
  induction ws as [|c ws IH]; simpl; [reflexivity|].
  intros H. apply andb_prop in H as [Hc Hws]. rewrite (IH Hws).
  destruct (c =? ch ":") eqn:E; [|reflexivity].
  apply Z.eqb_eq in E. subst c. discriminate Hc.
Qed.

Lemma signHeaderOf_blank (ws : gostring) :
  forallb unicode_IsSpace ws = true -> signHeaderOf ws = [].
Proof.
  intros H. unfold signHeaderOf. rewrite (strings_TrimSpace_blank ws H). reflexivity.
Qed.

Lemma parseSignHeaders_blank (ws : gostring) :
  forallb unicode_IsSpace ws = true -> parseSignHeaders ws = [].
Proof.
  intros H. unfold parseSignHeaders. rewrite (strings_Split_blank ws H). simpl.
  rewrite (signHeaderOf_blank ws H). reflexivity.
Qed.

(** The two markers exclude each other. *)
Lemma markers_exclusive (h : gostring) :
  strings_HasPrefix h (str "(o)") = true -> strings_HasPrefix h (str "(x)") = false.
Proof.
  destruct h as [|c0 [|c1 h]]; simpl; try discriminate.
  - rewrite andb_false_r. discriminate.
  - intros H. apply andb_prop in H as [_ H]. apply andb_prop in H as [H _].
    apply Z.eqb_eq in H. subst c1. rewrite andb_false_r. reflexivity.
Qed.

(** What one segment contributes, read off its trimmed text. *)
Lemma signHeaderOf_spec (part : gostring) (h : SignHeader) :
  In h (signHeaderOf part) ->
  let seg := strings_TrimSpace part in
  Oversigned h = strings_HasPrefix seg (str "(o)") /\
  OptionalOversigned h = strings_HasPrefix seg (str "(x)") /\
  Name h = (if Oversigned h || OptionalOversigned h
            then strings_TrimSpace (drop 3 seg) else seg) /\
  Name h <> [].
Proof.
  unfold signHeaderOf. cbv zeta.
  destruct (isEmpty (strings_TrimSpace part)) eqn:He; [intros []|].
  destruct (strings_HasPrefix (strings_TrimSpace part) (str "(o)")) eqn:Ho.
  - rewrite (markers_exclusive _ Ho).
    destruct (isEmpty (strings_TrimSpace (drop 3 (strings_TrimSpace part)))) eqn:He';
      [intros []|].
    intros [<-|[]]; simpl. repeat split. intros Hn. rewrite Hn in He'. discriminate.
  - destruct (strings_HasPrefix (strings_TrimSpace part) (str "(x)")) eqn:Hx.
    + destruct (isEmpty (strings_TrimSpace (drop 3 (strings_TrimSpace part)))) eqn:He';
        [intros []|].
      intros [<-|[]]; simpl. repeat split. intros Hn. rewrite Hn in He'. discriminate.
    + rewrite He. intros [<-|[]]; simpl. repeat split.
      intros Hn. rewrite Hn in He. discriminate.
Qed.

(** ** Quoted strings *)

Lemma readString_quote (s : list rune) (b : gostring) :
  readString (quote :: s) b = (Ok b, s).
Proof. reflexivity. Qed.

Lemma readString_backslash (x : rune) (s : list rune) (b : gostring) :
  readString (backslash :: x :: s) b = readString s (b ++ [x]).
Proof. reflexivity. Qed.

Lemma readString_plain (c : rune) (s : list rune) (b : gostring) :
  c <> quote -> c <> backslash -> readString (c :: s) b = readString s (b ++ [c]).
Proof.
  intros Hq Hb. simpl.
  apply Z.eqb_neq in Hq, Hb. rewrite Hq, Hb. reflexivity.
Qed.

(** An escaped body followed by the closing quote reads back as the text. *)
Lemma readString_escape (s : gostring) (rest : list rune) (b : gostring) :
  readString (escape s ++ quote :: rest) b = (Ok (b ++ s), rest).
Proof.
  revert b; induction s as [|c s IH]; intros b.
  - simpl. rewrite app_nil_r. reflexivity.
  - unfold escape in *. cbn [flat_map].
    destruct ((c =? quote) || (c =? backslash)) eqn:E.
    + cbn [app]. rewrite readString_backslash, IH, <- app_assoc. reflexivity.
    + apply orb_false_elim in E as [Eq Eb]. cbn [app readString].
      rewrite Eq, Eb, IH, <- app_assoc. reflexivity.
Qed.

(** Without a closing quote the reader runs into the end of the stream. *)
Lemma readString_unterminated (s : gostring) (b : gostring) :
  readString (escape s) b = (Err io_EOF, []).
Proof.
  revert b; induction s as [|c s IH]; intros b; [reflexivity|].
  unfold escape in *. cbn [flat_map].
  destruct ((c =? quote) || (c =? backslash)) eqn:E.
  - cbn [app]. rewrite readString_backslash. apply IH.
  - apply orb_false_elim in E as [Eq Eb]. cbn [app readString].
    rewrite Eq, Eb. apply IH.
Qed.

Lemma lex_quote (rest : list rune) :
  lex (quote :: rest) =
    match readString rest [] with
    | (Ok s', rest') => (Ok (Token tokenString s'), rest')
    | (Err e, rest') => (Err e, rest')
    | (OutOfFuel, rest') => (OutOfFuel, rest')
    end.
Proof. rewrite lex_cons. reflexivity. Qed.

Lemma lex_quoted (s : gostring) (rest : list rune) :
  lex (quoted (escape s) ++ rest) = (Ok (Token tokenString s), rest).
Proof.
  unfold quoted. cbn [app]. rewrite lex_quote, <- app_assoc. cbn [app].
  rewrite readString_escape. reflexivity.
Qed.

(** ** Reading one token of a known text *)

Lemma space_not_hash (c : rune) :
  unicode_IsSpace c = true -> (c =? ch "#") = false.
Proof.
  intros H. destruct (c =? ch "#") eqn:E; [|reflexivity].
  apply Z.eqb_eq in E. subst c. discriminate H.
Qed.

Lemma lex_space (c : rune) (rest : list rune) :
  unicode_IsSpace c = true -> lex (c :: rest) = lex rest.
Proof.
  intros H. rewrite lex_cons, (space_not_hash c H), H. reflexivity.
Qed.

Lemma lex_blank (ws rest : list rune) :
  forallb unicode_IsSpace ws = true -> lex (ws ++ rest) = lex rest.
Proof.
  induction ws as [|c ws IH]; simpl; [reflexivity|].
  intros H. apply andb_prop in H as [Hc Hws].
  rewrite (lex_space c _ Hc). exact (IH Hws).
Qed.

Lemma lex_lbrace (rest : list rune) :
  lex (str "{" ++ rest) = (Ok (Token tokenLBrace []), rest).
Proof. cbn [str list_ascii_of_string List.map app]. rewrite lex_cons. reflexivity. Qed.

Lemma lex_rbrace (rest : list rune) :
  lex (str "}" ++ rest) = (Ok (Token tokenRBrace []), rest).
Proof. cbn [str list_ascii_of_string List.map app]. rewrite lex_cons. reflexivity. Qed.

Lemma lex_equal (rest : list rune) :
  lex (str "=" ++ rest) = (Ok (Token tokenEqual []), rest).
Proof. cbn [str list_ascii_of_string List.map app]. rewrite lex_cons. reflexivity. Qed.

Lemma lex_semicolon (rest : list rune) :
  lex (str ";" ++ rest) = (Ok (Token tokenSemicolon []), rest).
Proof. cbn [str list_ascii_of_string List.map app]. rewrite lex_cons. reflexivity. Qed.

(** A rune that starts an identifier is none of the runes tested before. *)
Lemma isIdentStart_other (c : rune) :
  isIdentStart c = true ->
  (c =? ch "#") = false /\ (c =? ch "{") = false /\ (c =? ch "}") = false /\
  (c =? ch "=") = false /\ (c =? ch ";") = false /\ (c =? quote) = false.
Proof.
  intros H.
  repeat split;
    match goal with
    | |- (c =? ?x) = false =>
        destruct (c =? x) eqn:E; [apply Z.eqb_eq in E; subst c; discriminate H|reflexivity]
    end.
Qed.

Lemma readIdent_app (s rest buf : list rune) :
  forallb isIdentPart s = true -> delimited rest = true ->
  readIdent (s ++ rest) buf = (buf ++ s, rest).
Proof.
  revert buf; induction s as [|c s IH]; intros buf Hs Hd.
  - simpl. rewrite app_nil_r. destruct rest as [|c rest]; [reflexivity|].
    simpl in *. apply negb_true_iff in Hd. rewrite Hd. reflexivity.
  - simpl in *. apply andb_prop in Hs as [Hc Hs]. rewrite Hc.
    rewrite (IH (buf ++ [c]) Hs Hd), <- app_assoc. reflexivity.
Qed.

Lemma lex_identifier (id rest : list rune) :
  isIdentifier id = true -> delimited rest = true ->
  lex (id ++ rest) = (Ok (Token tokenIdent id), rest).
Proof.
  destruct id as [|c id]; [discriminate|]. cbn [isIdentifier].
  intros H Hd. apply andb_prop in H as [H Hid]. apply andb_prop in H as [Hsp Hst].
  apply negb_true_iff in Hsp.
  destruct (isIdentStart_other c Hst) as (E1 & E2 & E3 & E4 & E5 & E6).
  cbn [app]. rewrite lex_cons, E1, Hsp, E2, E3, E4, E5, E6, Hst.
  rewrite (readIdent_app id rest [c] Hid Hd). reflexivity.
Qed.

Lemma lex_value (v : value) (rest : list rune) :
  wfValue v = true -> delimited rest = true ->
  lex (renderValue v ++ rest) = (Ok (Token (kind v) (valueText v)), rest).
Proof.
  destruct v as [s|s]; simpl; intros Hv Hd.
  - apply lex_identifier; assumption.
  - apply (lex_quoted s rest).
Qed.

Lemma lex_quoted_value (s : gostring) (rest : list rune) :
  lex (renderValue (Quoted s) ++ rest) = (Ok (Token tokenString s), rest).
Proof. apply (lex_quoted s rest). Qed.

(** ** Running the parser on a known text *)

Lemma next_at (s : list rune) (tok : token) (rest : list rune) :
  lex s = (Ok tok, rest) -> next (at_ s) = (Ok tok, at_ rest).
Proof. intros H. unfold next, at_; simpl. rewrite H. reflexivity. Qed.

Lemma step_next {B : Type} (s rest : list rune) (tok : token) (k : token -> M B) :
  lex s = (Ok tok, rest) -> bind next k (at_ s) = k tok (at_ rest).
Proof. intros H. unfold bind. rewrite (next_at s tok rest H). reflexivity. Qed.

Lemma step_expect {B : Type} (s rest : list rune) (ty : tokenType) (v : gostring)
    (k : unit -> M B) :
  lex s = (Ok (Token ty v), rest) -> bind (expect ty) k (at_ s) = k tt (at_ rest).
Proof.
  intros H. unfold bind, expect, bind. rewrite (next_at s _ rest H). simpl.
  destruct ty; reflexivity.
Qed.

Lemma step_parseValue {B : Type} (s rest : list rune) (v : value) (k : gostring -> M B) :
  lex s = (Ok (Token (kind v) (valueText v)), rest) ->
  bind parseValue k (at_ s) = k (valueText v) (at_ rest).
Proof.
  intros H. unfold bind, parseValue, bind. rewrite (next_at s _ rest H).
  destruct v; reflexivity.
Qed.

Lemma peeks_bind {A B : Type} (m : M A) (k : A -> M B) : peeks m -> peeks (bind m k).
Proof. intros Hm l l' H. unfold bind. rewrite (Hm l l' H). reflexivity. Qed.

Lemma peeks_next : peeks next.
Proof. intros l l' H. exact H. Qed.

Lemma peeks_parseRule (r : smap) : peeks (parseRule r).
Proof.
  intros l l' H. rewrite !parseRule_eq. apply peeks_bind; [apply peeks_next|exact H].
Qed.

Lemma peeks_parseDomains (d : dmap) : peeks (parseDomains d).
Proof.
  intros l l' H. rewrite !parseDomains_eq. apply peeks_bind; [apply peeks_next|exact H].
Qed.

Lemma peeks_parseConfig (a : smap) (d : dmap) : peeks (parseConfig a d).
Proof.
  intros l l' H. rewrite !parseConfig_eq. apply peeks_bind; [apply peeks_next|exact H].
Qed.

Lemma peeks_blank {B : Type} (k : M B) (ws s : list rune) :
  peeks k -> forallb unicode_IsSpace ws = true -> k (at_ (ws ++ s)) = k (at_ s).
Proof.
  intros Hk Hws. apply Hk. unfold next, at_; simpl.
  rewrite (lex_blank ws s Hws). reflexivity.
Qed.

(** The optional semicolon, written. *)
Lemma step_semicolon {B : Type} (rest : list rune) (k : unit -> M B) :
  bind (discard (tryConsume tokenSemicolon)) k (at_ (str ";" ++ rest))
  = k tt (at_ rest).
Proof.
  unfold bind, discard, tryConsume, bind.
  rewrite (next_at _ _ rest (lex_semicolon rest)). reflexivity.
Qed.

(** The optional semicolon, left out before a token that reads well. *)
Lemma step_no_semicolon {B : Type} (rest : list rune) (k : unit -> M B) :
  peeks (k tt) -> firstTokenOk rest = true ->
  bind (discard (tryConsume tokenSemicolon)) k (at_ rest) = k tt (at_ rest).
Proof.
  intros Hk Hf. unfold firstTokenOk in Hf.
  destruct (lex rest) as [[tok|e|] rest'] eqn:E; try discriminate.
  apply negb_true_iff in Hf.
  unfold bind, discard, tryConsume, bind, unread.
  rewrite (next_at rest tok rest' E), Hf. simpl.
  apply Hk. rewrite (next_at rest tok rest' E). reflexivity.
Qed.

Lemma step_optional_semicolon {B : Type} (b : bool) (rest : list rune) (k : unit -> M B) :
  peeks (k tt) -> b || firstTokenOk rest = true ->
  bind (discard (tryConsume tokenSemicolon)) k (at_ (semicolon b ++ rest))
  = k tt (at_ rest).
Proof.
  intros Hk Hb. destruct b; simpl in Hb.
  - apply step_semicolon.
  - apply step_no_semicolon; assumption.
Qed.

(** The loops followed by a continuation, one iteration at a time. *)
Lemma parseRule_then {B : Type} (rule : smap) (k : smap -> M B) (l : lexer) :
  bind (parseRule rule) k l =
    (t <- next ;;
     if tokenType_eqb (typ t) tokenRBrace then
       discard (tryConsume tokenSemicolon) ;;; k rule
     else if negb (tokenType_eqb (typ t) tokenIdent) then
       fail (ErrUnexpectedTokenInDomainRule (typ t))
     else
       expect tokenEqual ;;;
       v <- parseValue ;;
       discard (tryConsume tokenSemicolon) ;;;
       bind (parseRule (<[val t := v]> rule)) k) l.
Proof.
  unfold bind at 1. rewrite parseRule_eq. unfold bind.
  destruct (next l) as [[t|e|] l1]; try reflexivity.
  destruct (tokenType_eqb (typ t) tokenRBrace).
  { destruct (discard (tryConsume tokenSemicolon) l1) as [[u|e|] l2]; reflexivity. }
  destruct (negb (tokenType_eqb (typ t) tokenIdent)); [reflexivity|].
  destruct (expect tokenEqual l1) as [[u|e|] l2]; try reflexivity.
  destruct (parseValue l2) as [[v|e|] l3]; try reflexivity.
  destruct (discard (tryConsume tokenSemicolon) l3) as [[u'|e|] l4]; reflexivity.
Qed.

Lemma parseDomains_then {B : Type} (domains : dmap) (k : dmap -> M B) (l : lexer) :
  bind (parseDomains domains) k l =
    (tok <- next ;;
     match typ tok with
     | tokenRBrace => discard (tryConsume tokenSemicolon) ;;; k domains
     | tokenIdent | tokenString =>
         expect tokenLBrace ;;;
         rule <- parseRule ∅ ;;
         bind (parseDomains (<[val tok := rule]> domains)) k
     | t => fail (ErrUnexpectedTokenInDomainBlock t)
     end) l.
Proof.
  unfold bind at 1. rewrite parseDomains_eq. unfold bind.
  destruct (next l) as [[t|e|] l1]; try reflexivity.
  destruct (typ t); try reflexivity.
  - destruct (expect tokenLBrace l1) as [[u|e|] l2]; try reflexivity.
    destruct (parseRule ∅ l2) as [[r|e|] l3]; reflexivity.
  - destruct (expect tokenLBrace l1) as [[u|e|] l2]; try reflexivity.
    destruct (parseRule ∅ l2) as [[r|e|] l3]; reflexivity.
  - destruct (discard (tryConsume tokenSemicolon) l1) as [[u|e|] l2]; reflexivity.
Qed.

Lemma parseConfig_then {B : Type} (assignments : smap) (domains : dmap)
    (k : smap * dmap -> M B) (l : lexer) :
  bind (parseConfig assignments domains) k l =
    (tok <- next ;;
     match typ tok with
     | tokenEOF => k (assignments, domains)
     | tokenIdent =>
         if decide (val tok = str "domain") then
           expect tokenLBrace ;;;
           domains' <- parseDomains domains ;;
           bind (parseConfig assignments domains') k
         else
           expect tokenEqual ;;;
           v <- parseValue ;;
           discard (tryConsume tokenSemicolon) ;;;
           bind (parseConfig (<[val tok := v]> assignments) domains) k
     | t => fail (ErrUnexpectedToken t)
     end) l.
Proof.
  unfold bind at 1. rewrite parseConfig_eq. unfold bind.
  destruct (next l) as [[t|e|] l1]; try reflexivity.
  destruct (typ t); try reflexivity.
  destruct (decide (val t = str "domain")).
  - destruct (expect tokenLBrace l1) as [[u|err|] l2]; try reflexivity.
    destruct (parseDomains domains l2) as [[d|err|] l3]; reflexivity.
  - destruct (expect tokenEqual l1) as [[u|err|] l2]; try reflexivity.
    destruct (parseValue l2) as [[v|err|] l3]; try reflexivity.
    destruct (discard (tryConsume tokenSemicolon) l3) as [[u'|err|] l4]; reflexivity.
Qed.

Lemma bind_ret_r {A : Type} (m : M A) (l : lexer) : bind m ret l = m l.
Proof. unfold bind, ret. destruct (m l) as [[a|e|] l']; reflexivity. Qed.

(** ** The parser on the text of a configuration *)

Lemma lex_sp (rest : list rune) : lex (str " " ++ rest) = lex rest.
Proof. apply (lex_blank (str " ") rest). reflexivity. Qed.

Lemma delimited_sp (rest : list rune) : delimited (str " " ++ rest) = true.
Proof. reflexivity. Qed.

Lemma delimited_semicolon (rest : list rune) : delimited (str ";" ++ rest) = true.
Proof. reflexivity. Qed.

(** After [key], the text [ = value] and then [rest]. *)
Lemma step_assignment {B : Type} (v : value) (rest : list rune) (k : gostring -> M B) :
  wfValue v = true -> delimited rest = true ->
  (expect tokenEqual ;;; x <- parseValue ;; k x)
    (at_ (str " = " ++ renderValue v ++ rest))
  = k (valueText v) (at_ rest).
Proof.
  intros Hv Hd.
  change (str " = " ++ renderValue v ++ rest)
    with (str " " ++ str "=" ++ str " " ++ renderValue v ++ rest).
  rewrite (step_expect _ (str " " ++ renderValue v ++ rest) tokenEqual []).
  2:{ rewrite lex_sp. apply lex_equal. }
  apply step_parseValue. rewrite lex_sp. apply lex_value; assumption.
Qed.

Lemma delimited_semicolon_opt (b : bool) (rest : list rune) :
  b || delimited rest = true -> delimited (semicolon b ++ rest) = true.
Proof. destruct b; simpl; [reflexivity|auto]. Qed.

(** The first token of the body of a rule, of a list of entries and of a
    list of items is never a semicolon. *)
Lemma firstTokenOk_sp (rest : list rune) :
  firstTokenOk (str " " ++ rest) = firstTokenOk rest.
Proof. unfold firstTokenOk. rewrite lex_sp. reflexivity. Qed.

Lemma firstTokenOk_identifier (id rest : list rune) :
  isIdentifier id = true -> delimited rest = true -> firstTokenOk (id ++ rest) = true.
Proof.
  intros Hi Hd. unfold firstTokenOk. rewrite (lex_identifier id rest Hi Hd). reflexivity.
Qed.

Lemma firstTokenOk_rbrace (rest : list rune) : firstTokenOk (str "}" ++ rest) = true.
Proof. unfold firstTokenOk. rewrite lex_rbrace. reflexivity. Qed.

Lemma firstTokenOk_value (v : value) (rest : list rune) :
  wfValue v = true -> delimited rest = true ->
  firstTokenOk (renderValue v ++ rest) = true.
Proof.
  intros Hv Hd. unfold firstTokenOk. rewrite (lex_value v rest Hv Hd).
  destruct v; reflexivity.
Qed.

Lemma renderAssign_app (a : assignment) (rest : list rune) :
  renderAssign a ++ rest
  = akey a ++ str " " ++ str "= " ++ renderValue (avalue a) ++ semicolon (asemi a) ++ rest.
Proof. unfold renderAssign. rewrite <- !app_assoc. reflexivity. Qed.

Lemma firstTokenOk_body (body : list assignment) (rest : list rune) :
  forallb wfAssign body = true ->
  firstTokenOk (renderBody body ++ str "}" ++ rest) = true.
Proof.
  destruct body as [|a body]; intros Hwf.
  - apply firstTokenOk_rbrace.
  - simpl in Hwf. apply andb_prop in Hwf as [Ha _]. apply andb_prop in Ha as [Hk _].
    unfold renderBody. cbn [flat_map]. rewrite <- !app_assoc, renderAssign_app.
    apply firstTokenOk_identifier; [exact Hk|apply delimited_sp].
Qed.

(** The assignments of a rule up to its closing brace. *)
Lemma parseRule_body {B : Type} (body : list assignment) (r : smap) (b : bool)
    (rest : list rune) (k : smap -> M B) :
  forallb wfAssign body = true ->
  (forall x, peeks (k x)) ->
  b || firstTokenOk rest = true ->
  bind (parseRule r) k (at_ (renderBody body ++ str "}" ++ semicolon b ++ rest))
  = k (fold_left assign body r) (at_ rest).
Proof.
  revert r; induction body as [|a body IH]; intros r Hwf Hk Hb.
  - cbn [renderBody flat_map app fold_left]. rewrite parseRule_then.
    rewrite (step_next _ _ _ _ (lex_rbrace _)). cbn [typ tokenType_eqb].
    apply step_optional_semicolon; [apply Hk|exact Hb].
  - simpl in Hwf. apply andb_prop in Hwf as [Ha Hbody].
    pose proof Ha as Ha'. apply andb_prop in Ha' as [Hkey Hval].
    unfold renderBody. cbn [flat_map fold_left]. rewrite <- !app_assoc.
    fold (renderBody body). rewrite renderAssign_app.
    rewrite parseRule_then.
    rewrite (step_next _ _ _ _ (lex_identifier (akey a) _ Hkey (delimited_sp _))).
    cbn [typ val tokenType_eqb negb].
    change (str " " ++ str "= " ++ ?x) with (str " = " ++ x).
    rewrite step_assignment;
      [|exact Hval|apply delimited_semicolon_opt; rewrite orb_true_r; reflexivity].
    rewrite step_optional_semicolon.
    + rewrite (peeks_blank _ (str " ") _ (peeks_bind _ _ (peeks_parseRule _)) eq_refl).
      apply (IH _ Hbody Hk Hb).
    + apply peeks_bind, peeks_parseRule.
    + rewrite firstTokenOk_sp, (firstTokenOk_body body _ Hbody). apply orb_true_r.
Qed.

Lemma renderEntry_app (e : entry) (rest : list rune) :
  renderEntry e ++ rest
  = renderValue (elabel e) ++ str " " ++ str "{" ++ str " " ++ renderBody (ebody e)
    ++ str "}" ++ semicolon (esemi e) ++ rest.
Proof. unfold renderEntry. rewrite <- !app_assoc. reflexivity. Qed.

Lemma firstTokenOk_entries (es : list entry) (rest : list rune) :
  forallb wfEntry es = true ->
  firstTokenOk (renderEntries es ++ str "}" ++ rest) = true.
Proof.
  destruct es as [|e es]; intros Hwf.
  - apply firstTokenOk_rbrace.
  - simpl in Hwf. apply andb_prop in Hwf as [He _]. apply andb_prop in He as [Hl _].
    unfold renderEntries. cbn [flat_map]. rewrite <- !app_assoc, renderEntry_app.
    apply firstTokenOk_value; [exact Hl|apply delimited_sp].
Qed.

(** The entries of a domain block up to its closing brace. *)
Lemma parseDomains_entries {B : Type} (es : list entry) (d : dmap) (b : bool)
    (rest : list rune) (k : dmap -> M B) :
  forallb wfEntry es = true ->
  (forall x, peeks (k x)) ->
  b || firstTokenOk rest = true ->
  bind (parseDomains d) k (at_ (renderEntries es ++ str "}" ++ semicolon b ++ rest))
  = k (fold_left addEntry es d) (at_ rest).
Proof.
  revert d; induction es as [|e es IH]; intros d Hwf Hk Hb.
  - cbn [renderEntries flat_map app fold_left]. rewrite parseDomains_then.
    rewrite (step_next _ _ _ _ (lex_rbrace _)). cbn [typ].
    apply step_optional_semicolon; [apply Hk|exact Hb].
  - simpl in Hwf. apply andb_prop in Hwf as [He Hes].
    pose proof He as He'. apply andb_prop in He' as [Hlabel Hbody].
    unfold renderEntries. cbn [flat_map fold_left]. rewrite <- !app_assoc.
    fold (renderEntries es). rewrite renderEntry_app.
    rewrite parseDomains_then.
    rewrite (step_next _ _ _ _ (lex_value (elabel e) _ Hlabel (delimited_sp _))).
    cbn [typ val].
    assert (Hentry :
      (expect tokenLBrace ;;; rule <- parseRule ∅ ;;
       bind (parseDomains (<[valueText (elabel e) := rule]> d)) k)
        (at_ (str " " ++ str "{" ++ str " " ++ renderBody (ebody e) ++ str "}"
              ++ semicolon (esemi e) ++ str " " ++ renderEntries es ++ str "}"
              ++ semicolon b ++ rest))
      = k (fold_left addEntry es (addEntry d e)) (at_ rest)).
    { erewrite (step_expect _ _ tokenLBrace []); [|rewrite lex_sp; apply lex_lbrace].
      rewrite (peeks_blank _ (str " ") _ (peeks_bind _ _ (peeks_parseRule _)) eq_refl).
      rewrite parseRule_body.
      - rewrite (peeks_blank _ (str " ") _ (peeks_bind _ _ (peeks_parseDomains _))
                   eq_refl).
        apply (IH _ Hes Hk Hb).
      - exact Hbody.
      - intros x. apply peeks_bind, peeks_parseDomains.
      - rewrite firstTokenOk_sp, (firstTokenOk_entries es _ Hes). apply orb_true_r. }
    destruct (elabel e); exact Hentry.
Qed.

(** A top-level assignment. *)
Lemma parseConfig_assign {B : Type} (x : assignment) (a : smap) (d : dmap)
    (rest : list rune) (k : smap * dmap -> M B) :
  wfItem (ItemAssign x) = true ->
  asemi x || (delimited rest && firstTokenOk rest) = true ->
  bind (parseConfig a d) k (at_ (renderAssign x ++ rest))
  = bind (parseConfig (assign a x) d) k (at_ rest).
Proof.
  cbn [wfItem]. intros Hwf Hf. apply andb_prop in Hwf as [Hx Hnd].
  apply andb_prop in Hx as [Hkey Hval].
  apply negb_true_iff, bool_decide_eq_false in Hnd.
  rewrite renderAssign_app, parseConfig_then.
  rewrite (step_next _ _ _ _ (lex_identifier (akey x) _ Hkey (delimited_sp _))).
  cbn [typ val]. destruct (decide (akey x = str "domain")) as [Heq|_]; [contradiction|].
  change (str " " ++ str "= " ++ ?y) with (str " = " ++ y).
  rewrite step_assignment; [|exact Hval|].
  - apply step_optional_semicolon; [apply peeks_bind, peeks_parseConfig|].
    destruct (asemi x); [reflexivity|]. simpl in *.
    apply andb_prop in Hf as [_ Hf]. exact Hf.
  - apply delimited_semicolon_opt. destruct (asemi x); [reflexivity|]. simpl in *.
    apply andb_prop in Hf as [Hf _]. exact Hf.
Qed.

(** A domain block. *)
Lemma parseConfig_domain {B : Type} (es : list entry) (b : bool) (a : smap)
    (d : dmap) (rest : list rune) (k : smap * dmap -> M B) :
  forallb wfEntry es = true ->
  b || firstTokenOk rest = true ->
  bind (parseConfig a d) k (at_ (renderDomain es b ++ rest))
  = bind (parseConfig a (fold_left addEntry es d)) k (at_ rest).
Proof.
  intros Hwf Hb. unfold renderDomain. rewrite <- !app_assoc.
  change (str "domain { " ++ ?y)
    with (str "domain" ++ str " " ++ str "{" ++ str " " ++ y).
  rewrite parseConfig_then.
  rewrite (step_next _ _ _ _ (lex_identifier (str "domain") _ eq_refl (delimited_sp _))).
  cbn [typ val]. destruct (decide (str "domain" = str "domain")) as [_|Hne];
    [|contradiction].
  erewrite (step_expect _ _ tokenLBrace []); [|rewrite lex_sp; apply lex_lbrace].
  rewrite (peeks_blank _ (str " ") _ (peeks_bind _ _ (peeks_parseDomains _)) eq_refl).
  apply parseDomains_entries; [exact Hwf| |exact Hb].
  intros x. apply peeks_bind, peeks_parseConfig.
Qed.

Lemma parseConfig_item {B : Type} (i : item) (a : smap) (d : dmap)
    (rest : list rune) (k : smap * dmap -> M B) :
  wfItem i = true ->
  itemSemicolon i || (delimited rest && firstTokenOk rest) = true ->
  bind (parseConfig a d) k (at_ (renderItem i ++ rest))
  = bind (parseConfig (fst (addItem (a, d) i)) (snd (addItem (a, d) i))) k (at_ rest).
Proof.
  destruct i as [x|es b]; intros Hwf Hf.
  - apply parseConfig_assign; assumption.
  - apply parseConfig_domain; [exact Hwf|].
    simpl in Hf. destruct b; [reflexivity|]. simpl in *.
    apply andb_prop in Hf as [_ Hf]. exact Hf.
Qed.

Lemma lex_nl (rest : list rune) : lex (10 :: rest) = lex rest.
Proof. apply (lex_blank [10] rest). reflexivity. Qed.

Lemma firstTokenOk_item (i : item) (rest : list rune) :
  wfItem i = true -> firstTokenOk (renderItem i ++ 10 :: rest) = true.
Proof.
  destruct i as [x|es b]; cbn [wfItem renderItem]; intros Hwf.
  - apply andb_prop in Hwf as [Hx _]. apply andb_prop in Hx as [Hkey _].
    rewrite renderAssign_app. apply firstTokenOk_identifier; [exact Hkey|apply delimited_sp].
  - unfold renderDomain. rewrite <- !app_assoc.
    change (str "domain { " ++ ?y) with (str "domain" ++ str " { " ++ y).
    apply firstTokenOk_identifier; reflexivity.
Qed.

Lemma firstTokenOk_render (items : list item) (rest : list rune) :
  forallb wfItem items = true -> firstTokenOk rest = true ->
  firstTokenOk (render items ++ rest) = true.
Proof.
  destruct items as [|i items]; intros Hwf Hrest; [exact Hrest|].
  simpl in Hwf. apply andb_prop in Hwf as [Hi _].
  unfold render. cbn [flat_map]. rewrite <- !app_assoc. cbn [app].
  apply firstTokenOk_item. exact Hi.
Qed.

(** The parser on a configuration written one item per line, in front of any
    text whose first token reads well. *)
Lemma parseConfig_render {B : Type} (items : list item) (a : smap) (d : dmap)
    (rest : list rune) (k : smap * dmap -> M B) :
  forallb wfItem items = true ->
  firstTokenOk rest = true ->
  bind (parseConfig a d) k (at_ (render items ++ rest))
  = bind (parseConfig (fst (fold_left addItem items (a, d)))
                      (snd (fold_left addItem items (a, d)))) k (at_ rest).
Proof.
  revert a d; induction items as [|i items IH]; intros a d Hwf Hrest; [reflexivity|].
  simpl in Hwf. apply andb_prop in Hwf as [Hi Hitems].
  unfold render. cbn [flat_map fold_left]. rewrite <- !app_assoc. cbn [app].
  fold (render items).
  rewrite parseConfig_item; [|exact Hi|].
  - change (10 :: render items ++ rest) with ([10] ++ (render items ++ rest)).
    rewrite (peeks_blank _ [10] _ (peeks_bind _ _ (peeks_parseConfig _ _)) eq_refl).
    rewrite (IH _ _ Hitems Hrest).
    destruct (addItem (a, d) i); reflexivity.
  - cbn [delimited]. unfold firstTokenOk. rewrite lex_nl.
    fold (firstTokenOk (render items ++ rest)).
    rewrite (firstTokenOk_render items rest Hitems Hrest). apply orb_true_r.
Qed.

Lemma parseConfig_end (a : smap) (d : dmap) :
  parseConfig a d (at_ []) = (Ok (a, d), at_ []).
Proof. rewrite parseConfig_eq. reflexivity. Qed.

(** The generic parser computes the meaning of every well-formed
    configuration, whichever optional semicolons are written. *)
Lemma parseRspamdConfig_render (items : list item) :
  forallb wfItem items = true ->
  parseRspamdConfig (render items) = Ok (meaning items).
Proof.
  intros Hwf. rewrite parseRspamdConfig_parseConfig.
  change (newLexer (render items)) with (at_ (render items)).
  rewrite <- bind_ret_r, <- (app_nil_r (render items)).
  rewrite (parseConfig_render items ∅ ∅ [] ret Hwf eq_refl).
  rewrite bind_ret_r, parseConfig_end. unfold meaning.
  destruct (fold_left addItem items (∅, ∅)); reflexivity.
Qed.

Lemma parseRspamdConfig_item (i : item) :
  wfItem i = true -> parseRspamdConfig (renderItem i) = Ok (addItem (∅, ∅) i).
Proof.
  intros Hwf. rewrite parseRspamdConfig_parseConfig.
  change (newLexer (renderItem i)) with (at_ (renderItem i)).
  rewrite <- bind_ret_r, <- (app_nil_r (renderItem i)).
  rewrite (parseConfig_item i ∅ ∅ [] ret Hwf); [|apply orb_true_r].
  rewrite bind_ret_r, parseConfig_end.
  destruct (addItem (∅, ∅) i); reflexivity.
Qed.

(** ** The domain blocks do not reach the assignments *)

Lemma outcome_bind {A B C : Type} (m : M A) (k1 : A -> M B) (k2 : A -> M C)
    (l : lexer) :
  (forall a l', outcome (k1 a l') = outcome (k2 a l')) ->
  outcome (bind m k1 l) = outcome (bind m k2 l).
Proof.
  intros H. unfold bind. destruct (m l) as [[a|e|] l']; [apply H|reflexivity..].
Qed.

Lemma domainLoop_outcome (f : nat) (d1 d2 : dmap) (l : lexer) :
  outcome (domainLoop f d1 l) = outcome (domainLoop f d2 l).
Proof.
  revert d1 d2 l; induction f as [|f IH]; intros d1 d2 l; [reflexivity|].
  cbn [domainLoop]. apply outcome_bind. intros t l1.
  assert (Hentry :
    outcome ((expect tokenLBrace ;;; rule <- ruleLoop f ∅ ;;
              domainLoop f (<[val t := rule]> d1)) l1) =
    outcome ((expect tokenLBrace ;;; rule <- ruleLoop f ∅ ;;
              domainLoop f (<[val t := rule]> d2)) l1)).
  { apply outcome_bind. intros u l2. apply outcome_bind. intros r l3. apply IH. }
  destruct (typ t); try exact Hentry; try reflexivity.
  apply outcome_bind. intros u l2. reflexivity.
Qed.

Lemma parseDomainBlock_outcome (f : nat) (d1 d2 : dmap) (l : lexer) :
  outcome (parseDomainBlock f d1 l) = outcome (parseDomainBlock f d2 l).
Proof.
  unfold parseDomainBlock. apply outcome_bind. intros u l1. apply domainLoop_outcome.
Qed.

Lemma agree_bind {A B : Type} (m1 : M A) (m2 : M B)
    (k1 : A -> M (smap * dmap)) (k2 : B -> M (smap * dmap)) (l : lexer) :
  outcome (m1 l) = outcome (m2 l) ->
  (forall a b l', agree (k1 a l') (k2 b l')) ->
  agree (bind m1 k1 l) (bind m2 k2 l).
Proof.
  intros Ho Hk. unfold bind, outcome in *.
  destruct (m1 l) as [[a|e1|] l1]; destruct (m2 l) as [[b|e2|] l2];
    simpl in Ho; try discriminate; injection Ho as ->; subst;
    try (split; reflexivity).
  apply Hk.
Qed.

Lemma agree_bind_same {A : Type} (m : M A) (k1 k2 : A -> M (smap * dmap))
    (l : lexer) :
  (forall a l', agree (k1 a l') (k2 a l')) ->
  agree (bind m k1 l) (bind m k2 l).
Proof.
  intros Hk. unfold bind.
  destruct (m l) as [[a|e|] l1]; [apply Hk|split; reflexivity..].
Qed.

Lemma configLoop_assignments (f : nat) (a : smap) (d1 d2 : dmap) (l : lexer) :
  agree (configLoop f a d1 l) (configLoop f a d2 l).
Proof.
  revert a d1 d2 l; induction f as [|f IH]; intros a d1 d2 l; [split; reflexivity|].
  cbn [configLoop]. apply agree_bind_same. intros t l1.
  destruct (typ t); try (split; reflexivity).
  destruct (decide (val t = str "domain")).
  - apply agree_bind; [apply parseDomainBlock_outcome|]. intros d1' d2' l2. apply IH.
  - apply agree_bind_same. intros u l2. apply agree_bind_same. intros v l3.
    apply agree_bind_same. intros u' l4. apply IH.
Qed.

Lemma parseConfig_assignments (a : smap) (d1 d2 : dmap) (l : lexer) :
  assignmentsOf (fst (parseConfig a d1 l)) = assignmentsOf (fst (parseConfig a d2 l)).
Proof. apply (configLoop_assignments (S (size l)) a d1 d2 l). Qed.

(** [ParseDKIMConf] reads the Assignment Map only. *)
Lemma ParseDKIMConf_assignments (input : list rune) :
  ParseDKIMConf input =
    match assignmentsOf (parseRspamdConfig input) with
    | Ok a => projectDKIMConf a
    | Err e => Err e
    | OutOfFuel => OutOfFuel
    end.
Proof.
  unfold ParseDKIMConf. destruct (parseRspamdConfig input) as [[a d]|e|]; reflexivity.
Qed.

(** ** Lexical errors *)

Lemma lex_rejected (c : rune) (rest : list rune) :
  rejected c = true -> lex (c :: rest) = (Err (ErrUnexpectedCharacter c), rest).
Proof.
  unfold rejected. intros H.
  repeat (apply andb_prop in H as [H ?]).
  repeat match goal with
         | H : negb _ = true |- _ => apply negb_true_iff in H
         end.
  rewrite lex_cons.
  repeat match goal with
         | H : _ = false |- _ => rewrite H; clear H
         end.
  reflexivity.
Qed.

(** Where the parser asks for a token it must have, the error of the lexer
    ends the call: here at the start of an item, after blank text. *)
Lemma parseRspamdConfig_rejected (ws : list rune) (c : rune) (rest : list rune) :
  forallb unicode_IsSpace ws = true -> rejected c = true ->
  parseRspamdConfig (ws ++ c :: rest) = Err (ErrUnexpectedCharacter c).
Proof.
  intros Hws Hc. rewrite parseRspamdConfig_parseConfig, parseConfig_eq.
  unfold bind, next, newLexer; simpl.
  rewrite (lex_blank ws _ Hws), (lex_rejected c rest Hc). reflexivity.
Qed.

(** Where the parser probes for the optional semicolon, the error is dropped
    together with the rune: the call goes on behind it. *)
Lemma skipSemicolon_rejected {B : Type} (ws : list rune) (c : rune)
    (rest : list rune) (k : unit -> M B) :
  forallb unicode_IsSpace ws = true -> rejected c = true ->
  bind (discard (tryConsume tokenSemicolon)) k (at_ (ws ++ c :: rest))
  = k tt (at_ rest).
Proof.
  intros Hws Hc. unfold bind, discard, tryConsume, bind, next, at_; simpl.
  rewrite (lex_blank ws _ Hws), (lex_rejected c rest Hc). reflexivity.
Qed.

(** ** Blank input *)

Lemma parseRspamdConfig_blank (ws : list rune) :
  forallb unicode_IsSpace ws = true -> parseRspamdConfig ws = Ok (∅, ∅).
Proof.
  intros Hws. rewrite parseRspamdConfig_parseConfig, parseConfig_eq.
  unfold bind, next, newLexer; simpl.
  rewrite <- (app_nil_r ws), (lex_blank ws [] Hws), lex_nil. reflexivity.
Qed.

(** ** The text of a string literal *)

Lemma readString_literal (s : list rune) (t : gostring) :
  literal s t ->
  forall (rest : list rune) (b : gostring),
    readString (s ++ quote :: rest) b = (Ok (b ++ t), rest)
    /\ readString s b = (Err io_EOF, [])
    /\ readString (s ++ [backslash]) b = (Err io_EOF, []).
Proof.
  induction 1 as [|x s t Hb IH|c s t Hq Hbs Hb IH]; intros rest b.
  - simpl. rewrite app_nil_r. repeat split.
  - cbn [app]. rewrite !readString_backslash.
    destruct (IH rest (b ++ [x])) as (H1 & H2 & H3).
    rewrite H1, H2, H3, <- app_assoc. repeat split.
  - cbn [app]. rewrite !(readString_plain c _ b Hq Hbs).
    destruct (IH rest (b ++ [c])) as (H1 & H2 & H3).
    rewrite H1, H2, H3, <- app_assoc. repeat split.
Qed.

(** Every text is the text of a literal. *)
Lemma literal_escape_text (t : gostring) : literal (escape t) t.
Proof.
  induction t as [|c t IH]; [constructor|].
  unfold escape in *. cbn [flat_map].
  destruct (c =? quote) eqn:Eq; [|destruct (c =? backslash) eqn:Eb]; simpl.
  - apply literal_escape, IH.
  - apply literal_escape, IH.
  - apply Z.eqb_neq in Eq, Eb. apply literal_plain; assumption.
Qed.

(** ** Map files *)

Lemma fieldsFrom_started (s : gostring) (c : rune) (cur : gostring) :
  exists f more, fieldsFrom s (c :: cur) = (c :: f) :: more.
Proof.
  revert cur; induction s as [|x s IH]; intros cur; simpl.
  - exists cur, []. reflexivity.
  - destruct (unicode_IsSpace x).
    + exists cur, (fieldsFrom s []). reflexivity.
    + apply (IH (cur ++ [x])).
Qed.

Lemma fields_trimLeft (line : gostring) : fields line = fields (trimLeft line).
Proof.
  unfold fields. induction line as [|c line IH]; simpl; [reflexivity|].
  destruct (unicode_IsSpace c) eqn:E; simpl; [exact IH|].
  rewrite E. reflexivity.
Qed.

(** The model skips exactly the lines the spec says are skipped. *)
Lemma fields_skipped (line : gostring) :
  skipped line =
    match fields line with
    | [] => true
    | first :: _ => strings_HasPrefix first (str "#")
    end.
Proof.
  unfold skipped. rewrite fields_trimLeft.
  assert (Hhead : forall t, trimLeft line = t ->
            match t with [] => True | c :: _ => unicode_IsSpace c = false end).
  { intros t <-. induction line as [|c line IH]; simpl; [exact I|].
    destruct (unicode_IsSpace c) eqn:E; [exact IH|exact E]. }
  specialize (Hhead _ eq_refl).
  destruct (trimLeft line) as [|c t]; [reflexivity|].
  unfold fields. cbn [fieldsFrom]. rewrite Hhead. cbn [isEmpty app].
  destruct (fieldsFrom_started t c []) as (f & more & ->).
  cbn [strings_HasPrefix str list_ascii_of_string List.map].
  destruct (c =? ch "#"); destruct f; reflexivity.
Qed.

Lemma parseMapLine_spec (m : smap) (line : gostring) :
  parseMapLine m line =
    if skipped line then inl m
    else match fields line with
         | [key; value] => inl (<[key := value]> m)
         | _ => inr line
         end.
Proof.
  unfold parseMapLine. rewrite fields_skipped.
  destruct (fields line) as [|first more]; [reflexivity|].
  destruct (strings_HasPrefix first (str "#")); [reflexivity|].
  destruct more as [|v [|]]; reflexivity.
Qed.

(** Fields are non-empty and free of whitespace. *)
Lemma fieldsFrom_fields (s cur : gostring) :
  forallb nonspace cur = true ->
  Forall (fun f => f <> [] /\ forallb nonspace f = true) (fieldsFrom s cur).
Proof.
  revert cur; induction s as [|c s IH]; intros cur Hcur; simpl.
  - destruct cur; simpl; [constructor|].
    constructor; [split; [discriminate|exact Hcur]|constructor].
  - destruct (unicode_IsSpace c) eqn:E.
    + destruct cur as [|x cur]; simpl; [apply IH; reflexivity|].
      constructor; [split; [discriminate|exact Hcur]|apply IH; reflexivity].
    + apply IH. rewrite forallb_app, Hcur. simpl. unfold nonspace. rewrite E.
      reflexivity.
Qed.

Lemma fieldsFrom_word (w s cur : gostring) :
  forallb nonspace w = true -> fieldsFrom (w ++ s) cur = fieldsFrom s (cur ++ w).
Proof.
  revert cur; induction w as [|c w IH]; intros cur Hw; simpl.
  - rewrite app_nil_r. reflexivity.
  - simpl in Hw. apply andb_prop in Hw as [Hc Hw]. unfold nonspace in Hc.
    apply negb_true_iff in Hc. rewrite Hc, (IH _ Hw), <- app_assoc. reflexivity.
Qed.

Lemma fieldsFrom_gap (ws s : gostring) :
  forallb unicode_IsSpace ws = true -> fieldsFrom (ws ++ s) [] = fieldsFrom s [].
Proof.
  induction ws as [|c ws IH]; intros Hws; simpl; [reflexivity|].
  simpl in Hws. apply andb_prop in Hws as [Hc Hws]. rewrite Hc. apply (IH Hws).
Qed.

(** Key, a run of whitespace, value: two fields. *)
Lemma fields_two (key ws value : gostring) :
  key <> [] -> forallb nonspace key = true ->
  ws <> [] -> forallb unicode_IsSpace ws = true ->
  value <> [] -> forallb nonspace value = true ->
  fields (key ++ ws ++ value) = [key; value].
Proof.
  intros Hk Hks Hw Hws Hv Hvs. unfold fields.
  rewrite (fieldsFrom_word key _ [] Hks). cbn [app].
  destruct ws as [|c ws]; [contradiction|]. simpl in Hws.
  apply andb_prop in Hws as [Hc Hws]. cbn [app fieldsFrom]. rewrite Hc.
  destruct key as [|k0 key]; [contradiction|]. cbn [isEmpty].
  rewrite (fieldsFrom_gap ws value Hws).
  rewrite <- (app_nil_r value) at 1. rewrite (fieldsFrom_word value [] [] Hvs).
  simpl. destruct value; [contradiction|reflexivity].
Qed.

(** The call fails exactly when some line is malformed, and the error is the
    first such line. *)
Lemma parseMapLines_spec (lines : list gostring) (m : smap) :
  match parseMapLines m lines with
  | inl _ => existsb malformed lines = false
  | inr bad =>
      exists before after,
        lines = before ++ bad :: after /\ existsb malformed before = false
        /\ malformed bad = true
  end.
Proof.
  revert m; induction lines as [|line lines IH]; intros m; simpl; [reflexivity|].
  rewrite parseMapLine_spec. unfold malformed at 1.
  destruct (skipped line) eqn:Hs; simpl.
  { specialize (IH m). destruct (parseMapLines m lines) as [m'|bad]; [exact IH|].
    destruct IH as (before & after & -> & Hb & Hbad).
    exists (line :: before), after. simpl. unfold malformed at 1. rewrite Hs. auto. }
  destruct (fields line) as [|k [|v [|x more]]] eqn:Hf; simpl.
  - exists [], lines. unfold malformed. rewrite Hs, Hf. auto.
  - exists [], lines. unfold malformed. rewrite Hs, Hf. auto.
  - specialize (IH (<[k := v]> m)).
    destruct (parseMapLines (<[k := v]> m) lines) as [m'|bad]; [exact IH|].
    destruct IH as (before & after & -> & Hb & Hbad).
    exists (line :: before), after. simpl. unfold malformed at 1.
    rewrite Hs, Hf. auto.
  - exists [], lines. unfold malformed. rewrite Hs, Hf. auto.
Qed.

(** ** Boolean coercion *)

Lemma parseBool_coerce (v : gostring) :
  parseBool v =
    match coerce v with
    | Some b => Ok b
    | None => Err (ErrInvalidBoolean v)
    end.
Proof.
  unfold parseBool, coerce.
  destruct (decide (strings_ToLower v = str "true")); [reflexivity|].
  destruct (decide (strings_ToLower v = str "false")); reflexivity.
Qed.

(** A value that matches a lower-case literal up to the case of its letters
    lower-cases to the literal. *)
Lemma equalFold_ToLower (lit v : gostring) :
  forallb (fun c => (97 <=? c) && (c <=? 122)) lit = true ->
  equalFold v lit = true -> strings_ToLower v = lit.
Proof.
  revert v; induction lit as [|c lit IH]; intros [|r v] Hlit H; try discriminate H.
  - reflexivity.
  - cbn [forallb] in Hlit. apply andb_prop in Hlit as [Hc Hlit].
    cbn [equalFold] in H. apply andb_prop in H as [Hr H].
    specialize (IH v Hlit H). unfold strings_ToLower, strings_Map in *.
    cbn [flat_map]. rewrite IH. cbv zeta.
    assert (Hlow : unicode_ToLower r = c).
    { unfold unicode_ToLower, MaxASCII.
      apply orb_prop in Hr as [Hr|Hr]; apply Z.eqb_eq in Hr; subst r.
      - replace (c <=? 127) with true by lia.
        replace ((65 <=? c) && (c <=? 90)) with false by lia. reflexivity.
      - replace (c - 32 <=? 127) with true by lia.
        replace ((65 <=? c - 32) && (c - 32 <=? 90)) with true by lia. lia. }
    rewrite Hlow. replace (c <? 0) with false by lia. reflexivity.
Qed.

(** On ASCII text lower-casing changes capitals only, so a value that
    lower-cases to a literal matches it up to case. *)
Lemma ToLower_equalFold (lit v : gostring) :
  forallb isASCII v = true ->
  strings_ToLower v = lit -> equalFold v lit = true.
Proof.
  revert lit; induction v as [|r v IH]; intros lit Hv H.
  - cbn in H. subst lit. reflexivity.
  - cbn [forallb] in Hv. apply andb_prop in Hv as [Hr Hv].
    unfold isASCII, MaxASCII in Hr.
    unfold strings_ToLower, strings_Map in H. cbn [flat_map] in H. cbv zeta in H.
    assert (Hlow : unicode_ToLower r = r \/ unicode_ToLower r = r + 32).
    { unfold unicode_ToLower, MaxASCII. replace (r <=? 127) with true by lia.
      destruct ((65 <=? r) && (r <=? 90)); [right|left]; reflexivity. }
    replace (unicode_ToLower r <? 0) with false in H by lia.
    destruct lit as [|c lit]; [discriminate H|]. cbn [app] in H.
    injection H as Hc Hrest. cbn [equalFold].
    rewrite (IH lit Hv Hrest), andb_true_r.
    apply orb_true_intro. destruct Hlow as [E|E]; rewrite E in Hc; [left|right]; lia.
Qed.

(** The coercion of the code accepts every spelling of the two literals in
    upper and lower case. *)
Lemma coerce_literalOf (v : gostring) (b : bool) :
  literalOf v = Some b -> coerce v = Some b.
Proof.
  unfold literalOf, coerce. intros H.
  destruct (equalFold v (str "true")) eqn:Et.
  - rewrite (equalFold_ToLower (str "true") v eq_refl Et).
    destruct (decide (str "true" = str "true")); [exact H|contradiction].
  - destruct (equalFold v (str "false")) eqn:Ef; [|discriminate H].
    rewrite (equalFold_ToLower (str "false") v eq_refl Ef).
    destruct (decide (str "false" = str "true")) as [E|_]; [discriminate E|].
    destruct (decide (str "false" = str "false")); [exact H|contradiction].
Qed.

(** On ASCII values it accepts nothing else. *)
Lemma coerce_ascii (v : gostring) :
  forallb isASCII v = true -> coerce v = literalOf v.
Proof.
  intros Hv. destruct (literalOf v) as [b|] eqn:E; [exact (coerce_literalOf v b E)|].
  unfold literalOf in E. unfold coerce.
  destruct (decide (strings_ToLower v = str "true")) as [Ht|_].
  { rewrite (ToLower_equalFold _ v Hv Ht) in E. discriminate E. }
  destruct (equalFold v (str "true")); [discriminate E|].
  destruct (decide (strings_ToLower v = str "false")) as [Hf|_]; [|reflexivity].
  rewrite (ToLower_equalFold _ v Hv Hf) in E. discriminate E.
Qed.

Lemma setBool_spec (a : smap) (key : gostring) :
  setBool a key =
    match a !! key with
    | None => Ok None
    | Some v =>
        match coerce v with
        | Some b => Ok (Some b)
        | None => Err (ErrParse key (ErrInvalidBoolean v))
        end
    end.
Proof.
  unfold setBool. destruct (a !! key) as [v|]; [|reflexivity].
  rewrite parseBool_coerce. destruct (coerce v); reflexivity.
Qed.

Lemma setBool_Ok (a : smap) (conf : DKIMSigningConf)
    (key : gostring) (field : DKIMSigningConf -> option bool) :
  setBool a key = Ok (field conf) -> fieldAgrees a conf (key, field).
Proof.
  rewrite setBool_spec. unfold fieldAgrees. simpl.
  destruct (a !! key) as [v|]; [|intros [= <-]; reflexivity].
  destruct (coerce v) as [b|]; [|discriminate].
  intros [= <-]. exists b. split; reflexivity.
Qed.

Lemma setBool_Err (a : smap) (key : gostring) (e : error) :
  setBool a key = Err e ->
  exists v, a !! key = Some v /\ coerce v = None
            /\ e = ErrParse key (ErrInvalidBoolean v).
Proof.
  rewrite setBool_spec. destruct (a !! key) as [v|]; [|discriminate].
  destruct (coerce v) as [b|] eqn:E; [discriminate|].
  intros [= <-]. exists v. repeat split. exact E.
Qed.

Lemma setBool_valid (a : smap) (key : gostring) :
  ~ invalidAt a key -> exists o, setBool a key = Ok o.
Proof.
  intros H. rewrite setBool_spec. unfold invalidAt in H.
  destruct (a !! key) as [v|]; [|eexists; reflexivity].
  destruct (coerce v) as [b|] eqn:E; [eexists; reflexivity|].
  exfalso. apply H. exists v. split; [reflexivity|exact E].
Qed.

Ltac next_setBool E :=
  match goal with
  | |- context [rbind (setBool ?a ?k) _] =>
      destruct (setBool a k) as [?o|?e|] eqn:E; cbn [rbind]
  end.

Lemma projectDKIMSigningConf_Ok (a : smap) (d : dmap) (conf : DKIMSigningConf) :
  projectDKIMSigningConf a d = Ok conf ->
  Forall (fieldAgrees a conf) boolFields.
Proof.
  unfold projectDKIMSigningConf.
  next_setBool E1; try discriminate. next_setBool E2; try discriminate.
  next_setBool E3; try discriminate. next_setBool E4; try discriminate.
  next_setBool E5; try discriminate. next_setBool E6; try discriminate.
  next_setBool E7; try discriminate. next_setBool E8; try discriminate.
  intros [= <-]. unfold boolFields.
  repeat (constructor; [apply setBool_Ok; simpl; assumption|]).
  constructor.
Qed.

Lemma projectDKIMSigningConf_Err (a : smap) (d : dmap) (e : error) :
  projectDKIMSigningConf a d = Err e ->
  exists key v, In key (List.map fst boolFields) /\ a !! key = Some v
                /\ coerce v = None /\ e = ErrParse key (ErrInvalidBoolean v).
Proof.
  unfold projectDKIMSigningConf.
  repeat match goal with
         | |- context [rbind (setBool ?a ?k) _] =>
             let E := fresh "E" in
             destruct (setBool a k) as [?o|?e|] eqn:E; cbn [rbind];
             [|intros [= <-]; apply setBool_Err in E as (v & ? & ? & ?);
               exists k, v; split; [simpl; tauto|auto]
              |discriminate]
         end.
  discriminate.
Qed.

Lemma projectDKIMSigningConf_valid (a : smap) (d : dmap) :
  (forall key, In key (List.map fst boolFields) -> ~ invalidAt a key) ->
  exists conf, projectDKIMSigningConf a d = Ok conf.
Proof.
  intros H. unfold projectDKIMSigningConf.
  repeat match goal with
         | |- context [rbind (setBool ?a ?k) _] =>
             let o := fresh "o" in let E := fresh "E" in
             destruct (setBool_valid a k ltac:(apply H; simpl; tauto)) as [o E];
             rewrite E; cbn [rbind]
         end.
  eexists; reflexivity.
Qed.

Lemma setBool_total (a : smap) (key : gostring) : setBool a key <> OutOfFuel.
Proof.
  rewrite setBool_spec. destruct (a !! key) as [v|]; [|discriminate].
  destruct (coerce v); discriminate.
Qed.

Lemma projectDKIMSigningConf_total (a : smap) (d : dmap) :
  projectDKIMSigningConf a d <> OutOfFuel.
Proof.
  unfold projectDKIMSigningConf.
  repeat match goal with
         | |- context [rbind (setBool ?a ?k) _] =>
             let E := fresh "E" in
             destruct (setBool a k) as [?o|?e|] eqn:E; cbn [rbind];
             [|discriminate|exfalso; exact (setBool_total a k E)]
         end.
  discriminate.
Qed.

Lemma projectDKIMConf_spec (a : smap) :
  projectDKIMConf a =
    let signHeaders := index a (str "sign_headers") in
    let list := if isEmpty signHeaders then [] else parseSignHeaders signHeaders in
    match a !! str "enabled" with
    | None => Ok (mkDKIMConf None signHeaders list)
    | Some v =>
        match coerce v with
        | Some b => Ok (mkDKIMConf (Some b) signHeaders list)
        | None => Err (ErrParse (str "enabled") (ErrInvalidBoolean v))
        end
    end.
Proof.
  unfold projectDKIMConf. cbv zeta.
  destruct (a !! str "enabled") as [v|]; [|reflexivity].
  rewrite parseBool_coerce. destruct (coerce v); reflexivity.
Qed.

(** ** Semicolon flags do not change the meaning *)

Lemma fold_left_assignSemi (b : bool) (body : list assignment) (m : smap) :
  fold_left assign (List.map (assignSemi b) body) m = fold_left assign body m.
Proof.
  revert m; induction body as [|x body IH]; intros m; simpl; [reflexivity|].
  apply IH.
Qed.

Lemma addEntry_entrySemi (b : bool) (d : dmap) (e : entry) :
  addEntry d (entrySemi b e) = addEntry d e.
Proof.
  unfold addEntry, ruleOf; simpl. rewrite fold_left_assignSemi. reflexivity.
Qed.

Lemma fold_left_entrySemi (b : bool) (es : list entry) (d : dmap) :
  fold_left addEntry (List.map (entrySemi b) es) d = fold_left addEntry es d.
Proof.
  revert d; induction es as [|e es IH]; intros d; simpl; [reflexivity|].
  rewrite addEntry_entrySemi. apply IH.
Qed.

Lemma addItem_itemSemi (b : bool) (st : smap * dmap) (i : item) :
  addItem st (itemSemi b i) = addItem st i.
Proof.
  destruct i as [x|es s]; simpl; [reflexivity|].
  rewrite fold_left_entrySemi. reflexivity.
Qed.

Lemma fold_left_itemSemi (b : bool) (items : list item) (st : smap * dmap) :
  fold_left addItem (List.map (itemSemi b) items) st = fold_left addItem items st.
Proof.
  revert st; induction items as [|i items IH]; intros st; simpl; [reflexivity|].
  rewrite addItem_itemSemi. apply IH.
Qed.

Lemma meaning_itemSemi (b : bool) (items : list item) :
  meaning (List.map (itemSemi b) items) = meaning items.
Proof. apply fold_left_itemSemi. Qed.

Lemma wfEntry_entrySemi (b : bool) (e : entry) :
  wfEntry (entrySemi b e) = wfEntry e.
Proof.
  unfold wfEntry; simpl. f_equal.
  induction (ebody e) as [|x body IH]; simpl; [reflexivity|].
  rewrite IH. reflexivity.
Qed.

Lemma wfItem_itemSemi (b : bool) (i : item) : wfItem (itemSemi b i) = wfItem i.
Proof.
  destruct i as [x|es s]; simpl; [reflexivity|].
  induction es as [|e es IH]; simpl; [reflexivity|].
  rewrite wfEntry_entrySemi, IH. reflexivity.
Qed.

Lemma forallb_wfItem_itemSemi (b : bool) (items : list item) :
  forallb wfItem (List.map (itemSemi b) items) = forallb wfItem items.
Proof.
  induction items as [|i items IH]; simpl; [reflexivity|].
  rewrite wfItem_itemSemi, IH. reflexivity.
Qed.

Lemma meaning_app (items : list item) (i : item) :
  meaning (items ++ [i]) = addItem (meaning items) i.
Proof. unfold meaning. rewrite fold_left_app. reflexivity. Qed.

(** A key no assignment of the body mentions is absent from its rule. *)
Lemma fold_left_assign_absent (body : list assignment) (m : smap) (key : gostring) :
  ~ In key (List.map akey body) -> fold_left assign body m !! key = m !! key.
Proof.
  revert m; induction body as [|x body IH]; intros m Hk; simpl; [reflexivity|].
  simpl in Hk. rewrite IH by tauto. unfold assign.
  apply lookup_insert_ne. intros Heq. apply Hk. left. exact Heq.
Qed.

Lemma ruleOf_absent (body : list assignment) (key : gostring) :
  ~ In key (List.map akey body) -> ruleOf body !! key = None.
Proof.
  intros Hk. unfold ruleOf. rewrite (fold_left_assign_absent body ∅ key Hk).
  apply lookup_empty.
Qed.

(** [domain] where a key is expected opens a domain block, so an equals sign
    after it is an error, with or without a semicolon. *)
Lemma parseRspamdConfig_domain_key (v : value) (b : bool) :
  parseRspamdConfig (renderAssign (Assign (str "domain") v b))
  = Err (ErrExpectedToken tokenLBrace tokenEqual).
Proof.
  rewrite parseRspamdConfig_parseConfig.
  change (newLexer ?x) with (at_ x).
  rewrite <- (app_nil_r (renderAssign _)), renderAssign_app. cbn [akey avalue asemi].
  rewrite parseConfig_eq.
  rewrite (step_next _ _ _ _ (lex_identifier (str "domain") _ eq_refl (delimited_sp _))).
  cbn [typ val]. destruct (decide (str "domain" = str "domain")) as [_|Hne];
    [|contradiction].
  unfold bind at 1. unfold bind at 1. unfold expect, bind.
  erewrite next_at; [|rewrite lex_sp; apply (lex_equal (str " " ++ _))].
  reflexivity.
Qed.

(** A key is absent from the Assignment Map exactly when no top-level
    assignment of the configuration names it. *)
Lemma fold_left_addItem_absent (items : list item) (st : smap * dmap)
    (key : gostring) :
  fst (fold_left addItem items st) !! key = None
  <-> fst st !! key = None /\ ~ In key (topKeys items).
Proof.
  revert st; induction items as [|i items IH]; intros st; simpl; [tauto|].
  rewrite IH. destruct i as [x|es b]; simpl; [|tauto].
  unfold assign. rewrite lookup_insert_None. intuition congruence.
Qed.

Lemma meaning_absent (items : list item) (key : gostring) :
  fst (meaning items) !! key = None <-> ~ In key (topKeys items).
Proof.
  unfold meaning. rewrite fold_left_addItem_absent. simpl.
  rewrite lookup_empty. tauto.
Qed.

(** The rejected rune that follows a value: the call succeeds as if the text
    ended before it. *)
Lemma parseRspamdConfig_rejected_after_value (key : gostring) (v : value) (c : rune) :
  isIdentifier key = true -> key <> str "domain" -> wfValue v = true ->
  rejected c = true ->
  parseRspamdConfig (renderAssign (Assign key v false) ++ str " " ++ [c])
  = Ok ({[ key := valueText v ]}, ∅).
Proof.
  intros Hkey Hne Hv Hc. rewrite parseRspamdConfig_parseConfig.
  change (newLexer ?x) with (at_ x).
  rewrite <- bind_ret_r, renderAssign_app. cbn [akey avalue asemi semicolon app].
  rewrite parseConfig_then.
  rewrite (step_next _ _ _ _ (lex_identifier key _ Hkey (delimited_sp _))).
  cbn [typ val]. destruct (decide (key = str "domain")) as [Heq|_]; [contradiction|].
  change (str " " ++ str "= " ++ ?y) with (str " = " ++ y).
  rewrite step_assignment; [|exact Hv|apply delimited_sp].
  rewrite (skipSemicolon_rejected (str " ") c [] _ eq_refl Hc).
  rewrite bind_ret_r, parseConfig_end. reflexivity.
Qed.

Lemma ParseDKIMConf_total (input : list rune) : ParseDKIMConf input <> OutOfFuel.
Proof.
  unfold ParseDKIMConf. pose proof (parseRspamdConfig_total input) as Ht.
  destruct (parseRspamdConfig input) as [[a d]|e|]; [|discriminate|contradiction].
  rewrite projectDKIMConf_spec. cbv zeta.
  destruct (a !! str "enabled") as [v|]; [destruct (coerce v)|]; discriminate.
Qed.

Lemma ParseDKIMSigningConf_total (input : list rune) :
  ParseDKIMSigningConf input <> OutOfFuel.
Proof.
  unfold ParseDKIMSigningConf. pose proof (parseRspamdConfig_total input) as Ht.
  destruct (parseRspamdConfig input) as [[a d]|e|]; [|discriminate|contradiction].
  apply projectDKIMSigningConf_total.
Qed.

(** * The claims *)

(** C1: a character the lexer rejects must make [ParseDKIMConf] and
    [ParseDKIMSigningConf] fail, also where the parser probes for the
    optional semicolon.  The code does not do that: on [a = b @] the error of
    [next] is dropped by [tryConsume]'s callers and both calls succeed, while
    the same character after a written semicolon, or at the start of an
    item, is reported. *)
Theorem lexical_error_dropped_by_semicolon_probe :
  parseRspamdConfig (str "a = b @") = Ok ({[ str "a" := str "b" ]}, ∅)
  /\ ParseDKIMConf (str "a = b @") = Ok (mkDKIMConf None [] [])
  /\ ParseDKIMSigningConf (str "a = b @") = Ok unsetSigningConf
  /\ lex (str "@") = (Err (ErrUnexpectedCharacter (ch "@")), [])
  /\ ParseDKIMConf (str "a = b; @") = Err (ErrUnexpectedCharacter (ch "@"))
  /\ ParseDKIMConf (str "@ a = b") = Err (ErrUnexpectedCharacter (ch "@")).
Proof. repeat split; vm_compute; reflexivity. Qed.

(** A text without the separator is a single part. *)
Lemma strings_Split_whole (s : gostring) (sep : rune) :
  ~ In sep s -> strings_Split s sep = [s].
Proof.
  induction s as [|c s IH]; intros H; [reflexivity|]. simpl in *.
  destruct (c =? sep) eqn:E.
  - apply Z.eqb_eq in E. exfalso. apply H. left. exact E.
  - rewrite IH; [reflexivity|]. intros Hin. apply H. right. exact Hin.
Qed.

(** The whole call: the first malformed line as the error, or else the
    mapping of the pairs of the data lines, a later pair for a key replacing
    an earlier one. *)
Lemma parseMapLines_result (lines : list gostring) (m : smap) :
  parseMapLines m lines =
    match find malformed lines with
    | Some bad => inr bad
    | None => inl (fold_left addPair (dataPairs lines) m)
    end.
Proof.
  revert m; induction lines as [|line lines IH]; intros m; [reflexivity|].
  cbn [parseMapLines find dataPairs flat_map]. rewrite parseMapLine_spec.
  unfold malformed at 1. destruct (skipped line) eqn:Hs; cbn [negb andb app].
  { apply IH. }
  destruct (fields line) as [|k [|v [|x more]]]; cbn [length Nat.eqb negb];
    try reflexivity.
  rewrite IH. reflexivity.
Qed.

(** C2: the three map-file operations are one routine; a blank or comment
    line is skipped, a line of a key, a run of whitespace and a value adds
    the pair, any other line is returned as the format error, and the call
    fails exactly on the first malformed line.  Each operation returns the
    first malformed line of its input as the error, and otherwise the mapping
    of the pairs of its data lines, the last pair of a key winning. *)
Theorem map_file_lines (m : smap) (line key ws value : gostring)
    (lines : list gostring) (input : gostring) :
  key <> [] -> forallb nonspace key = true ->
  strings_HasPrefix key (str "#") = false ->
  ws <> [] -> forallb unicode_IsSpace ws = true ->
  value <> [] -> forallb nonspace value = true ->
  (ParseDKIMSelectorsMap = parseMap /\ ParseDKIMPathsMap = parseMap
   /\ ParseSignedDomainsMap = parseMap)
  /\ parseMapLine m line =
       (if skipped line then inl m
        else match fields line with
             | [k; v] => inl (<[k := v]> m)
             | _ => inr line
             end)
  /\ Forall (fun f => f <> [] /\ forallb nonspace f = true) (fields line)
  /\ parseMapLine m (key ++ ws ++ value) = inl (<[key := value]> m)
  /\ parseMapLine m key = inr key
  /\ match parseMapLines m lines with
     | inl _ => existsb malformed lines = false
     | inr bad =>
         exists before after,
           lines = before ++ bad :: after /\ existsb malformed before = false
           /\ malformed bad = true
     end
  /\ ParseDKIMSelectorsMap input =
       match find malformed (strings_Split input 10) with
       | Some bad => inr bad
       | None => inl (fold_left addPair (dataPairs (strings_Split input 10)) ∅)
       end
  /\ ParseDKIMPathsMap input = ParseDKIMSelectorsMap input
  /\ ParseSignedDomainsMap input = ParseDKIMSelectorsMap input
  /\ (~ In 10 ws ->
      ParseDKIMSelectorsMap (key ++ ws ++ value) = inl {[ key := value ]})
  /\ ParseDKIMSelectorsMap sampleMapFile
     = inl {[ str "foo.com" := str "baz"; str "test.mailer.com" := str "mail" ]}
  /\ ParseDKIMPathsMap sampleBadMapFile = inr (str "lonely")
  /\ ParseSignedDomainsMap (str "key value # note") = inr (str "key value # note")
  /\ ParseSignedDomainsMap [] = inl ∅.
Proof.
  intros Hk Hks Hkc Hw Hws Hv Hvs.
  assert (Hline : parseMapLine m (key ++ ws ++ value) = inl (<[key := value]> m)).
  { unfold parseMapLine. rewrite (fields_two key ws value Hk Hks Hw Hws Hv Hvs), Hkc.
    reflexivity. }
  split; [repeat split|]. split; [apply parseMapLine_spec|].
  split; [apply fieldsFrom_fields; reflexivity|].
  split; [exact Hline|]. split; [|split; [apply parseMapLines_spec|]].
  - unfold parseMapLine, fields. rewrite <- (app_nil_r key) at 1.
    rewrite (fieldsFrom_word key [] [] Hks). simpl.
    destruct key; [contradiction|]. cbn [isEmpty]. rewrite Hkc. reflexivity.
  - split; [apply parseMapLines_result|]. split; [reflexivity|].
    split; [reflexivity|]. split.
    { intros Hwsnl. unfold ParseDKIMSelectorsMap, parseMap.
      assert (Hnl : forall w : gostring, forallb nonspace w = true -> ~ In 10 w).
      { intros w Hw' Hin. rewrite forallb_forall in Hw'. specialize (Hw' 10 Hin).
        discriminate Hw'. }
      rewrite strings_Split_whole.
      - cbn [parseMapLines]. unfold parseMapLine.
        rewrite (fields_two key ws value Hk Hks Hw Hws Hv Hvs), Hkc. reflexivity.
      - intros Hin.
        apply in_app_or in Hin as [Hin|Hin]; [exact (Hnl key Hks Hin)|].
        apply in_app_or in Hin as [Hin|Hin];
          [exact (Hwsnl Hin)|exact (Hnl value Hvs Hin)]. }
    repeat split; vm_compute; reflexivity.
Qed.

(** C3: after a successful generic parse, every optional-boolean field of
    both configurations is unset exactly when its key is absent from the
    Assignment Map and holds the coerced boolean when the key is present; if
    some such key has a value that is neither literal, the call returns the
    error naming an offending key and its raw value, and no configuration.
    On the text of a well-formed configuration a field of either
    configuration is unset exactly when no top-level assignment names its
    key.  The coercion accepts every spelling of true and false in upper and
    lower case, and on ASCII values nothing else. *)
Theorem optional_boolean_fields (input : list rune) (a : smap) (d : dmap)
    (items : list item) :
  parseRspamdConfig input = Ok (a, d) ->
  forallb wfItem items = true ->
  (forall conf, ParseDKIMSigningConf input = Ok conf ->
     Forall (fieldAgrees a conf) boolFields)
  /\ (forall conf, ParseDKIMSigningConf (render items) = Ok conf ->
      Forall (fun kf => snd kf conf = None <-> ~ In (fst kf) (topKeys items))
             boolFields)
  /\ ((forall key, In key (List.map fst boolFields) -> ~ invalidAt a key) ->
      exists conf, ParseDKIMSigningConf input = Ok conf)
  /\ ((exists key, In key (List.map fst boolFields) /\ invalidAt a key) ->
      exists key v, In key (List.map fst boolFields) /\ a !! key = Some v
        /\ coerce v = None
        /\ ParseDKIMSigningConf input = Err (ErrParse key (ErrInvalidBoolean v)))
  /\ ParseDKIMConf input =
       (let signHeaders := index a (str "sign_headers") in
        let list := if isEmpty signHeaders then [] else parseSignHeaders signHeaders in
        match a !! str "enabled" with
        | None => Ok (mkDKIMConf None signHeaders list)
        | Some v =>
            match coerce v with
            | Some b => Ok (mkDKIMConf (Some b) signHeaders list)
            | None => Err (ErrParse (str "enabled") (ErrInvalidBoolean v))
            end
        end)
  /\ (forall conf, ParseDKIMConf (render items) = Ok conf ->
      (Enabled conf = None <-> ~ In (str "enabled") (topKeys items)))
  /\ (forall v b, literalOf v = Some b -> coerce v = Some b)
  /\ (forall v, forallb isASCII v = true -> coerce v = literalOf v)
  /\ ParseDKIMConf (str "enabled = TRUE") = Ok (mkDKIMConf (Some true) [] [])
  /\ ParseDKIMConf (str "enabled = FaLsE;") = Ok (mkDKIMConf (Some false) [] [])
  /\ ParseDKIMConf (str "enabled = yes")
     = Err (ErrParse (str "enabled") (ErrInvalidBoolean (str "yes")))
  /\ ParseDKIMConf (str "sign_local = yes") = Ok (mkDKIMConf None [] [])
  /\ ParseDKIMSigningConf (str "sign_local = True") = Ok (onlySignLocal true)
  /\ ParseDKIMSigningConf (str "sign_local = fALSE") = Ok (onlySignLocal false)
  /\ ParseDKIMSigningConf (str "sign_local = TRUE; use_esld = on")
     = Err (ErrParse (str "use_esld") (ErrInvalidBoolean (str "on"))).
Proof.
  intros Hparse Hitems.
  assert (Htext : forall conf, ParseDKIMSigningConf (render items) = Ok conf ->
            Forall (fun kf => snd kf conf = None <-> ~ In (fst kf) (topKeys items))
                   boolFields).
  { intros conf. unfold ParseDKIMSigningConf.
    rewrite (parseRspamdConfig_render items Hitems).
    destruct (meaning items) as [a' d'] eqn:Em. intros Hconf.
    apply projectDKIMSigningConf_Ok in Hconf.
    eapply Forall_impl; [exact Hconf|]. intros [key field] Hagree.
    unfold fieldAgrees in Hagree. simpl in *.
    rewrite <- (meaning_absent items key), Em. simpl.
    destruct (a' !! key) as [v|]; [|tauto].
    destruct Hagree as (b & _ & ->). split; discriminate. }
  assert (Htext' : forall conf, ParseDKIMConf (render items) = Ok conf ->
            (Enabled conf = None <-> ~ In (str "enabled") (topKeys items))).
  { intros conf. unfold ParseDKIMConf.
    rewrite (parseRspamdConfig_render items Hitems).
    destruct (meaning items) as [a' d'] eqn:Em. rewrite projectDKIMConf_spec.
    cbv zeta. rewrite <- (meaning_absent items (str "enabled")), Em. simpl.
    destruct (a' !! str "enabled") as [v|].
    - destruct (coerce v); [|discriminate]. intros [= <-]. simpl.
      split; discriminate.
    - intros [= <-]. simpl. tauto. }
  assert (Hruns :
    ParseDKIMConf (str "enabled = TRUE") = Ok (mkDKIMConf (Some true) [] [])
    /\ ParseDKIMConf (str "enabled = FaLsE;") = Ok (mkDKIMConf (Some false) [] [])
    /\ ParseDKIMConf (str "enabled = yes")
       = Err (ErrParse (str "enabled") (ErrInvalidBoolean (str "yes")))
    /\ ParseDKIMConf (str "sign_local = yes") = Ok (mkDKIMConf None [] [])
    /\ ParseDKIMSigningConf (str "sign_local = True") = Ok (onlySignLocal true)
    /\ ParseDKIMSigningConf (str "sign_local = fALSE") = Ok (onlySignLocal false)
    /\ ParseDKIMSigningConf (str "sign_local = TRUE; use_esld = on")
       = Err (ErrParse (str "use_esld") (ErrInvalidBoolean (str "on")))).
  { repeat split; vm_compute; reflexivity. }
  unfold ParseDKIMSigningConf at 1 3 4, ParseDKIMConf at 1. rewrite Hparse.
  split; [apply projectDKIMSigningConf_Ok|]. split; [exact Htext|].
  split; [apply projectDKIMSigningConf_valid|].
  split; [|split; [apply projectDKIMConf_spec|]];
    [|split; [exact Htext'|]; split; [exact coerce_literalOf|];
      split; [exact coerce_ascii|exact Hruns]].
  intros (key & Hin & v & Hv & Hc).
  destruct (projectDKIMSigningConf a d) as [conf|e|] eqn:E.
  - exfalso. pose proof (projectDKIMSigningConf_Ok a d conf E) as Hall.
    rewrite Forall_forall in Hall.
    apply in_map_iff in Hin as ([k field] & <- & Hin).
    apply list_elem_of_In in Hin. specialize (Hall _ Hin). unfold fieldAgrees in Hall.
    simpl in *. rewrite Hv in Hall. destruct Hall as (b & Hb & _). congruence.
  - destruct (projectDKIMSigningConf_Err a d e E) as (k' & v' & H1 & H2 & H3 & ->).
    exists k', v'. auto.
  - exfalso. exact (projectDKIMSigningConf_total a d E).
Qed.

(** C4: [parseSignHeaders] on the text of section 8 gives the three entries
    in order; it is a function of its input alone, one part after the other,
    and a part that is empty or whitespace-only, between two colons or alone,
    gives no entry. *)
Theorem parseSignHeaders_example_and_blank_parts (before ws after : gostring) :
  forallb unicode_IsSpace ws = true ->
  parseSignHeaders (str "(o)from:(x)date:plain")
  = [ mkSignHeader (str "from") true false;
      mkSignHeader (str "date") false true;
      mkSignHeader (str "plain") false false ]
  /\ parseSignHeaders (before ++ str ":" ++ ws ++ str ":" ++ after)
     = parseSignHeaders (before ++ str ":" ++ after)
  /\ parseSignHeaders (before ++ str ":" ++ after)
     = parseSignHeaders before ++ parseSignHeaders after
  /\ parseSignHeaders ws = [].
Proof.
  intros Hws. split; [vm_compute; reflexivity|].
  rewrite !parseSignHeaders_app, (parseSignHeaders_blank ws Hws).
  repeat split.
Qed.

(** C5: the domain block of section 8 parses to the map of its two keys, a
    later block with the same label replaces it (the path is gone and reads
    as the empty string), and in every well-formed configuration the rule of
    a label is exactly the Assignment Map of its last entry, with no key of
    an earlier entry left. *)
Theorem later_domain_entry_replaces_earlier (items : list item) (label : value)
    (rule : list assignment) (s1 s2 : bool) (key : gostring) :
  forallb wfItem items = true ->
  wfEntry (Entry label rule s1) = true ->
  ~ In key (List.map akey rule) ->
  parseRspamdConfig firstBlock
  = Ok (∅, {[ str "a.com" := {[ str "selector" := str "s1"; str "path" := str "/p" ]} ]})
  /\ parseRspamdConfig (firstBlock ++ [10] ++ laterBlock)
     = Ok (∅, {[ str "a.com" := {[ str "selector" := str "s2" ]} ]})
  /\ (exists conf, ParseDKIMSigningConf (firstBlock ++ [10] ++ laterBlock) = Ok conf
        /\ Domain conf = {[ str "a.com" := mkDomainRule (str "s2") [] ]})
  /\ (exists a d,
        parseRspamdConfig (render (items ++ [ItemDomain [Entry label rule s1] s2]))
        = Ok (a, d)
        /\ d !! valueText label = Some (ruleOf rule)
        /\ ruleOf rule !! key = None).
Proof.
  intros Hitems Hentry Hkey.
  split; [vm_compute; reflexivity|]. split; [vm_compute; reflexivity|].
  split.
  { eexists. split; [vm_compute; reflexivity|]. vm_compute. reflexivity. }
  exists (fst (meaning (items ++ [ItemDomain [Entry label rule s1] s2]))),
         (snd (meaning (items ++ [ItemDomain [Entry label rule s1] s2]))).
  split.
  - rewrite parseRspamdConfig_render.
    + destruct (meaning _); reflexivity.
    + rewrite forallb_app, Hitems. simpl. rewrite Hentry. reflexivity.
  - rewrite meaning_app. simpl. unfold addEntry at 1. simpl.
    split; [apply lookup_insert_eq|apply ruleOf_absent; exact Hkey].
Qed.

(** C6: [key = val;] and [key = val] parse to the same result for every key
    and value, so do a domain block with and without its semicolons, and so
    do any two well-formed configurations that differ only in which optional
    semicolons are written; none of them fails for a missing semicolon. *)
Theorem trailing_semicolon_is_optional (items items' : list item)
    (key : gostring) (v : value) (es : list entry) :
  isIdentifier key = true -> wfValue v = true ->
  forallb wfEntry es = true ->
  forallb wfItem items = true ->
  List.map (itemSemi false) items' = List.map (itemSemi false) items ->
  parseRspamdConfig (renderAssign (Assign key v true))
  = parseRspamdConfig (renderAssign (Assign key v false))
  /\ parseRspamdConfig (renderAssign (Assign key v false))
     = (if decide (key = str "domain")
        then Err (ErrExpectedToken tokenLBrace tokenEqual)
        else Ok ({[ key := valueText v ]}, ∅))
  /\ parseRspamdConfig (renderDomain (List.map (entrySemi true) es) true)
     = Ok (∅, fold_left addEntry es ∅)
  /\ parseRspamdConfig (renderDomain (List.map (entrySemi false) es) false)
     = Ok (∅, fold_left addEntry es ∅)
  /\ parseRspamdConfig (render items') = parseRspamdConfig (render items)
  /\ parseRspamdConfig (render items) = Ok (meaning items).
Proof.
  intros Hkey Hv Hes Hitems Hsame.
  assert (Hassign : forall b,
    parseRspamdConfig (renderAssign (Assign key v b))
    = (if decide (key = str "domain")
       then Err (ErrExpectedToken tokenLBrace tokenEqual)
       else Ok ({[ key := valueText v ]}, ∅))).
  { intros b. destruct (decide (key = str "domain")) as [->|Hne].
    - apply parseRspamdConfig_domain_key.
    - apply (parseRspamdConfig_item (ItemAssign (Assign key v b))).
      unfold wfItem, wfAssign. cbn [akey avalue]. rewrite Hkey, Hv. simpl.
      apply negb_true_iff, bool_decide_eq_false. exact Hne. }
  assert (Hblock : forall b,
    parseRspamdConfig (renderDomain (List.map (entrySemi b) es) b)
    = Ok (∅, fold_left addEntry es ∅)).
  { intros b.
    change (renderDomain (List.map (entrySemi b) es) b)
      with (renderItem (itemSemi b (ItemDomain es b))).
    rewrite parseRspamdConfig_item.
    - rewrite addItem_itemSemi. reflexivity.
    - rewrite wfItem_itemSemi. exact Hes. }
  split; [rewrite !Hassign; reflexivity|]. split; [apply Hassign|].
  split; [apply Hblock|]. split; [apply Hblock|].
  assert (Hwf' : forallb wfItem items' = true).
  { rewrite <- (forallb_wfItem_itemSemi false), Hsame, forallb_wfItem_itemSemi.
    exact Hitems. }
  rewrite !parseRspamdConfig_render by assumption.
  split; [|reflexivity].
  rewrite <- (meaning_itemSemi false items'), Hsame, meaning_itemSemi. reflexivity.
Qed.

(** C7: after the opening quote the runes of a literal are copied as they
    are, a backslash gives the rune after it whatever it is (backslash-n
    gives n, backslash-backslash a backslash, backslash-quote a quote that
    does not close the literal), the first quote outside such a pair ends the
    token, and a stream that ends before it, also just after a backslash,
    gives the error and no token. *)
Theorem quoted_string_lexing (s : list rune) (t : gostring) (rest : list rune) :
  literal s t ->
  lex (quote :: s ++ quote :: rest) = (Ok (Token tokenString t), rest)
  /\ next (newLexer (quote :: s ++ quote :: rest))
     = (Ok (Token tokenString t), newLexer rest)
  /\ lex (quote :: s) = (Err io_EOF, [])
  /\ lex (quote :: s ++ [backslash]) = (Err io_EOF, [])
  /\ fst (next (newLexer (quote :: s))) = Err io_EOF
  /\ literal [backslash; ch "n"] [ch "n"]
  /\ literal [backslash; backslash] [backslash]
  /\ literal [backslash; quote; ch "x"] [quote; ch "x"]
  /\ literal (escape t) t.
Proof.
  intros Hlit.
  destruct (readString_literal s t Hlit rest []) as (H1 & H2 & H3).
  assert (Hlex : lex (quote :: s ++ quote :: rest) = (Ok (Token tokenString t), rest))
    by (rewrite lex_quote, H1; reflexivity).
  assert (Hopen : lex (quote :: s) = (Err io_EOF, []))
    by (rewrite lex_quote, H2; reflexivity).
  split; [exact Hlex|]. split; [apply (next_at _ _ _ Hlex)|].
  split; [exact Hopen|]. split; [rewrite lex_quote, H3; reflexivity|].
  split; [unfold next, newLexer; simpl; rewrite Hopen; reflexivity|].
  split; [repeat constructor|]. split; [repeat constructor|].
  split; [|apply literal_escape_text].
  apply literal_escape, literal_plain; [discriminate..|constructor].
Qed.

(** C8: no entry of [parseSignHeaders] has both flags set: an entry comes
    from one part of the input, is oversigned exactly when the trimmed part
    starts with the marker (o), optional-oversigned exactly when it starts
    with (x), and its name is not empty. *)
Theorem oversign_flags_exclusive (raw : gostring) (h : SignHeader) :
  In h (parseSignHeaders raw) ->
  Oversigned h && OptionalOversigned h = false
  /\ exists part, In part (strings_Split raw (ch ":"))
       /\ Oversigned h = strings_HasPrefix (strings_TrimSpace part) (str "(o)")
       /\ OptionalOversigned h = strings_HasPrefix (strings_TrimSpace part) (str "(x)")
       /\ Name h <> [].
Proof.
  unfold parseSignHeaders. intros Hin.
  apply in_flat_map in Hin as (part & Hpart & Hh).
  destruct (signHeaderOf_spec part h Hh) as (Ho & Hx & _ & Hn).
  split.
  - destruct (Oversigned h) eqn:E; [|reflexivity].
    symmetry in Ho. rewrite Hx, (markers_exclusive _ Ho). reflexivity.
  - exists part. auto.
Qed.

(** C9: on an empty or whitespace-only stream both entry points succeed:
    [ParseDKIMConf] with [Enabled] unset, no sign headers and an empty list,
    [ParseDKIMSigningConf] with every optional boolean unset, every string
    empty and an empty [Domain] map. *)
Theorem blank_input_gives_unset_configuration (input : list rune) :
  forallb unicode_IsSpace input = true ->
  ParseDKIMConf input = Ok (mkDKIMConf None [] [])
  /\ ParseDKIMSigningConf input = Ok unsetSigningConf
  /\ ParseDKIMConf [] = Ok (mkDKIMConf None [] [])
  /\ ParseDKIMSigningConf [] = Ok unsetSigningConf.
Proof.
  intros Hws. unfold ParseDKIMConf, ParseDKIMSigningConf.
  rewrite (parseRspamdConfig_blank input Hws), (parseRspamdConfig_blank [] eq_refl).
  repeat split; vm_compute; reflexivity.
Qed.

Lemma firstTokenOk_domain (es : list entry) (b : bool) (rest : list rune) :
  firstTokenOk (renderDomain es b ++ rest) = true.
Proof.
  unfold renderDomain. rewrite <- !app_assoc.
  change (str "domain { " ++ ?y) with (str "domain" ++ str " { " ++ y).
  apply firstTokenOk_identifier; reflexivity.
Qed.

(** A well-formed domain block on a line of its own leaves the result of
    [ParseDKIMConf], configuration or error, unchanged when it is put after
    well-formed items and before any text whose first token is read without
    error and is not a semicolon, or, written with its semicolon, in front of
    any text at all. *)
Lemma domain_block_is_discarded (items : list item) (es : list entry) (b : bool)
    (rest : list rune) :
  forallb wfItem items = true ->
  forallb wfEntry es = true ->
  firstTokenOk rest = true \/ (items = [] /\ b = true) ->
  ParseDKIMConf (render items ++ renderDomain es b ++ 10 :: rest)
  = ParseDKIMConf (render items ++ rest).
Proof.
  intros Hitems Hes Hrest. rewrite !ParseDKIMConf_assignments.
  assert (Hsame :
    assignmentsOf (parseRspamdConfig (render items ++ renderDomain es b ++ 10 :: rest))
    = assignmentsOf (parseRspamdConfig (render items ++ rest)));
    [|rewrite Hsame; reflexivity].
  rewrite !parseRspamdConfig_parseConfig. change (newLexer ?x) with (at_ x).
  rewrite <- !(bind_ret_r (parseConfig ∅ ∅)).
  assert (Hblock : forall a d,
    b || firstTokenOk rest = true ->
    bind (parseConfig a d) ret (at_ (renderDomain es b ++ 10 :: rest))
    = bind (parseConfig a (fold_left addEntry es d)) ret (at_ rest)).
  { intros a d Hb. rewrite parseConfig_domain; [|exact Hes|].
    - change (10 :: rest) with ([10] ++ rest).
      apply (peeks_blank _ [10] rest (peeks_bind _ _ (peeks_parseConfig _ _)) eq_refl).
    - unfold firstTokenOk. rewrite lex_nl. exact Hb. }
  destruct Hrest as [Hrest|[-> ->]].
  - rewrite (parseConfig_render items ∅ ∅ _ ret Hitems (firstTokenOk_domain es b _)).
    rewrite Hblock by (rewrite Hrest; apply orb_true_r).
    rewrite (parseConfig_render items ∅ ∅ rest ret Hitems Hrest).
    rewrite !bind_ret_r. apply parseConfig_assignments.
  - cbn [render flat_map app]. rewrite Hblock by reflexivity.
    rewrite !bind_ret_r. apply parseConfig_assignments.
Qed.

(** An input the generic parser accepts starts with an identifier or has no
    token at all. *)
Lemma accepted_firstTokenOk (input : list rune) (r : smap * dmap) :
  parseRspamdConfig input = Ok r -> firstTokenOk input = true.
Proof.
  rewrite parseRspamdConfig_parseConfig, parseConfig_eq.
  unfold bind, next, newLexer, firstTokenOk. cbn [peek rd].
  destruct (lex input) as [[tok|e|] rest]; cbn [fst]; try discriminate.
  destruct (typ tok); try reflexivity; discriminate.
Qed.

Lemma render_app (items more : list item) :
  render (items ++ more) = render items ++ render more.
Proof. apply flat_map_app. Qed.

(** C10: [ParseDKIMConf] reads the Assignment Map only, so a well-formed
    domain block on a line of its own is accepted and discarded.  In front of
    every input that [ParseDKIMConf] accepts it leaves the returned
    configuration unchanged; among the items of every well-formed
    configuration, in any place, the configuration with the block is parsed
    without error and [ParseDKIMConf] returns what it returns without the
    block, the projection of the assignments; and so it does between
    well-formed items and any text that starts with a token other than a
    semicolon. *)
Theorem domain_block_leaves_DKIMConf_unchanged (input : list rune) (conf : DKIMConf)
    (items more : list item) (es : list entry) (b : bool) :
  ParseDKIMConf input = Ok conf ->
  forallb wfEntry es = true ->
  forallb wfItem items = true ->
  forallb wfItem more = true ->
  ParseDKIMConf (renderDomain es b ++ 10 :: input) = Ok conf
  /\ ParseDKIMConf (render (items ++ ItemDomain es b :: more))
     = ParseDKIMConf (render (items ++ more))
  /\ parseRspamdConfig (render (items ++ ItemDomain es b :: more))
     = Ok (meaning (items ++ ItemDomain es b :: more))
  /\ ParseDKIMConf (render (items ++ ItemDomain es b :: more))
     = projectDKIMConf (fst (meaning (items ++ more)))
  /\ (forall rest, firstTokenOk rest = true ->
      ParseDKIMConf (render items ++ renderDomain es b ++ 10 :: rest)
      = ParseDKIMConf (render items ++ rest))
  /\ ParseDKIMConf input =
       match assignmentsOf (parseRspamdConfig input) with
       | Ok a => projectDKIMConf a
       | Err e => Err e
       | OutOfFuel => OutOfFuel
       end.
Proof.
  intros Hconf Hes Hitems Hmore.
  assert (Hwf : forallb wfItem (items ++ ItemDomain es b :: more) = true).
  { rewrite forallb_app. cbn [forallb wfItem]. rewrite Hitems, Hes, Hmore. reflexivity. }
  assert (Hwf' : forallb wfItem (items ++ more) = true).
  { rewrite forallb_app, Hitems, Hmore. reflexivity. }
  assert (Hin : ParseDKIMConf (render (items ++ ItemDomain es b :: more))
                = ParseDKIMConf (render (items ++ more))).
  { rewrite !render_app. change (render (ItemDomain es b :: more))
      with ((renderDomain es b ++ [10]) ++ render more).
    rewrite <- app_assoc. cbn [app].
    apply domain_block_is_discarded; [exact Hitems|exact Hes|]. left.
    rewrite <- (app_nil_r (render more)).
    apply firstTokenOk_render; [exact Hmore|reflexivity]. }
  split; [|split; [exact Hin|split; [exact (parseRspamdConfig_render _ Hwf)|split]]].
  - rewrite <- Hconf.
    apply (domain_block_is_discarded [] es b input eq_refl Hes).
    left. unfold ParseDKIMConf in Hconf.
    destruct (parseRspamdConfig input) as [r|e|] eqn:E; try discriminate Hconf.
    exact (accepted_firstTokenOk input r E).
  - rewrite Hin. unfold ParseDKIMConf.
    rewrite (parseRspamdConfig_render _ Hwf'). destruct (meaning (items ++ more)).
    reflexivity.
  - split; [|apply ParseDKIMConf_assignments].
    intros rest Hrest. apply domain_block_is_discarded; [exact Hitems|exact Hes|].
    left. exact Hrest.
Qed.

(** * Further properties *)

(** ** Whitespace and comments *)

Lemma skipLine_line (comment rest : list rune) :
  forallb (fun c => negb (c =? 10)) comment = true ->
  skipLine (comment ++ 10 :: rest) = rest /\ skipLine comment = [].
Proof.
  induction comment as [|c comment IH]; intros H; [split; reflexivity|].
  simpl in H. apply andb_prop in H as [Hc H]. apply negb_true_iff in Hc.
  simpl. rewrite Hc. exact (IH H).
Qed.

Lemma lex_hash (rest : list rune) : lex (ch "#" :: rest) = lex (skipLine rest).
Proof. rewrite lex_cons. reflexivity. Qed.

Lemma lex_gap (g rest : list rune) : gap g -> lex (g ++ rest) = lex rest.
Proof.
  induction 1 as [|c g Hc Hg IH|comment g Hcomment Hg IH]; [reflexivity| |].
  - cbn [app]. rewrite (lex_space c _ Hc). exact IH.
  - cbn [app]. rewrite lex_hash, <- app_assoc. cbn [app].
    etransitivity; [|exact IH]. f_equal.
    exact (proj1 (skipLine_line comment (g ++ rest) Hcomment)).
Qed.

Lemma peeks_gap {B : Type} (k : M B) (g s : list rune) :
  peeks k -> gap g -> k (at_ (g ++ s)) = k (at_ s).
Proof.
  intros Hk Hg. apply Hk. unfold next, at_; simpl.
  rewrite (lex_gap g s Hg). reflexivity.
Qed.

(** X1: whitespace and comment lines in front of a text change nothing: the
    generic parser and both entry points answer as on the text alone,
    whatever the text is; a text that is only a gap and a last comment
    without its newline is the empty configuration. *)
Theorem gap_before_text_is_skipped (g comment rest : list rune) :
  gap g ->
  forallb (fun c => negb (c =? 10)) comment = true ->
  parseRspamdConfig (g ++ rest) = parseRspamdConfig rest
  /\ ParseDKIMConf (g ++ rest) = ParseDKIMConf rest
  /\ ParseDKIMSigningConf (g ++ rest) = ParseDKIMSigningConf rest
  /\ parseRspamdConfig (g ++ ch "#" :: comment) = Ok (∅, ∅).
Proof.
  intros Hg Hc.
  assert (H : parseRspamdConfig (g ++ rest) = parseRspamdConfig rest).
  { rewrite !parseRspamdConfig_parseConfig. change (newLexer ?x) with (at_ x).
    rewrite (peeks_gap _ g rest (peeks_parseConfig ∅ ∅) Hg). reflexivity. }
  split; [exact H|]. unfold ParseDKIMConf, ParseDKIMSigningConf. rewrite H.
  split; [reflexivity|]. split; [reflexivity|].
  rewrite parseRspamdConfig_parseConfig. change (newLexer ?x) with (at_ x).
  rewrite (peeks_gap _ g _ (peeks_parseConfig ∅ ∅) Hg), parseConfig_eq.
  unfold bind, next, at_; simpl.
  rewrite lex_hash, (proj2 (skipLine_line comment [] Hc)), lex_nil. reflexivity.
Qed.

Lemma firstTokenOk_item_any (i : item) (rest : list rune) :
  wfItem i = true -> firstTokenOk (renderItem i ++ rest) = true.
Proof.
  destruct i as [x|es b]; cbn [wfItem renderItem]; intros Hwf.
  - apply andb_prop in Hwf as [Hx _]. apply andb_prop in Hx as [Hkey _].
    rewrite renderAssign_app. apply firstTokenOk_identifier; [exact Hkey|apply delimited_sp].
  - apply firstTokenOk_domain.
Qed.

Lemma delimited_separates (g rest : list rune) :
  separates g = true -> delimited (g ++ rest) = true.
Proof. destruct g as [|c g]; [discriminate|]. intros H. exact H. Qed.

Lemma firstTokenOk_gap (g rest : list rune) :
  gap g -> firstTokenOk (g ++ rest) = firstTokenOk rest.
Proof. intros Hg. unfold firstTokenOk. rewrite (lex_gap g rest Hg). reflexivity. Qed.

Lemma firstTokenOk_renderSpaced (xs : list (item * list rune)) :
  Forall (fun x => wfItem (fst x) = true /\ gap (snd x) /\ separates (snd x) = true) xs ->
  firstTokenOk (renderSpaced xs) = true.
Proof.
  destruct 1 as [|[i g] xs (Hi & _ & _) _]; [reflexivity|].
  unfold renderSpaced. cbn [flat_map fst snd]. rewrite <- app_assoc.
  apply firstTokenOk_item_any. exact Hi.
Qed.

Lemma parseConfig_renderSpaced {B : Type} (xs : list (item * list rune))
    (a : smap) (d : dmap) (k : smap * dmap -> M B) :
  Forall (fun x => wfItem (fst x) = true /\ gap (snd x) /\ separates (snd x) = true) xs ->
  bind (parseConfig a d) k (at_ (renderSpaced xs))
  = bind (parseConfig (fst (fold_left addItem (List.map fst xs) (a, d)))
                      (snd (fold_left addItem (List.map fst xs) (a, d)))) k (at_ []).
Proof.
  intros Hxs. revert a d.
  induction Hxs as [|[i g] xs (Hi & Hg & Hs) Hxs IH]; intros a d; [reflexivity|].
  unfold renderSpaced. cbn [flat_map fst snd List.map fold_left].
  fold (renderSpaced xs). rewrite <- app_assoc.
  rewrite parseConfig_item; [|exact Hi|].
  - rewrite (peeks_gap _ g _ (peeks_bind _ _ (peeks_parseConfig _ _)) Hg).
    rewrite IH. destruct (addItem (a, d) i); reflexivity.
  - rewrite (delimited_separates g _ Hs), (firstTokenOk_gap g _ Hg).
    rewrite (firstTokenOk_renderSpaced xs Hxs). apply orb_true_r.
Qed.

(** X2: whatever whitespace and comments stand between the items of a
    well-formed configuration, and whichever optional semicolons are
    written, the generic parser returns the meaning of the items. *)
Theorem gaps_between_items_do_not_matter (xs : list (item * list rune)) :
  Forall (fun x => wfItem (fst x) = true /\ gap (snd x) /\ separates (snd x) = true) xs ->
  parseRspamdConfig (renderSpaced xs) = Ok (meaning (List.map fst xs)).
Proof.
  intros Hxs. rewrite parseRspamdConfig_parseConfig.
  change (newLexer ?x) with (at_ x).
  rewrite <- bind_ret_r, (parseConfig_renderSpaced xs ∅ ∅ ret Hxs).
  rewrite bind_ret_r, parseConfig_end. unfold meaning.
  destruct (fold_left addItem (List.map fst xs) (∅, ∅)); reflexivity.
Qed.

(** ** Identifiers *)

Lemma readIdent_run (s buf : list rune) :
  exists id rest,
    readIdent s buf = (buf ++ id, rest) /\ s = id ++ rest
    /\ forallb isIdentPart id = true /\ delimited rest = true.
Proof.
  revert buf; induction s as [|c s IH]; intros buf.
  - exists [], []. simpl. rewrite app_nil_r. repeat split.
  - simpl. destruct (isIdentPart c) eqn:E.
    + destruct (IH (buf ++ [c])) as (id & rest & H1 & H2 & H3 & H4).
      exists (c :: id), rest. rewrite H1, <- app_assoc. simpl. rewrite E, H3.
      repeat split; [congruence|exact H4].
    + exists [], (c :: s). simpl. rewrite app_nil_r, E. repeat split.
Qed.

(** X3: a rune that starts an identifier may also continue one, and the
    identifier token that starts at it is the longest run of identifier runes:
    its text is a prefix of the input made of such runes only, and what is
    left is empty or starts with a rune that cannot continue it. *)
Theorem identifier_is_the_longest_run (c : rune) (s : list rune) :
  isIdentStart c = true -> unicode_IsSpace c = false ->
  isIdentPart c = true
  /\ exists id rest,
       lex (c :: s) = (Ok (Token tokenIdent (c :: id)), rest)
       /\ s = id ++ rest
       /\ forallb isIdentPart id = true
       /\ delimited rest = true.
Proof.
  intros Hst Hsp. split.
  { unfold isIdentStart in Hst. unfold isIdentPart.
    apply orb_prop in Hst as [Hst|Hst]; [apply orb_prop in Hst as [Hst|Hst]|];
      rewrite Hst; rewrite ?orb_true_r; reflexivity. }
  destruct (isIdentStart_other c Hst) as (E1 & E2 & E3 & E4 & E5 & E6).
  destruct (readIdent_run s [c]) as (id & rest & H1 & H2 & H3 & H4).
  exists id, rest. rewrite lex_cons, E1, Hsp, E2, E3, E4, E5, E6, Hst, H1.
  repeat split; assumption.
Qed.

Lemma next_at_err (s : list rune) (e : error) (rest : list rune) :
  lex s = (Err e, rest) -> next (at_ s) = (Err e, at_ rest).
Proof. intros H. unfold next, at_; simpl. rewrite H. reflexivity. Qed.

(** A rune that may continue an identifier but not start one is rejected
    where a token starts. *)
Lemma part_only_rejected (c : rune) :
  isIdentPart c = true -> isIdentStart c = false -> unicode_IsSpace c = false ->
  rejected c = true.
Proof.
  intros Hp Hs Hsp. unfold rejected. rewrite Hs, Hsp. simpl.
  repeat match goal with
         | |- context [c =? ?x] =>
             destruct (c =? x) eqn:?E;
             [apply Z.eqb_eq in E; subst c; discriminate Hp|clear E]
         end.
  reflexivity.
Qed.

(** X4: a value must be quoted unless it starts like an identifier: after
    [key =], a rune that may continue an identifier but not start one (a
    digit, a slash, a dash, a dot) ends the call with the lexical error that
    names it, whatever follows. *)
Theorem unquoted_value_must_start_an_identifier (key : gostring) (c : rune)
    (rest : list rune) :
  isIdentifier key = true -> key <> str "domain" ->
  isIdentPart c = true -> isIdentStart c = false -> unicode_IsSpace c = false ->
  parseRspamdConfig (key ++ str " = " ++ c :: rest) = Err (ErrUnexpectedCharacter c)
  /\ ParseDKIMConf (key ++ str " = " ++ c :: rest) = Err (ErrUnexpectedCharacter c)
  /\ ParseDKIMSigningConf (key ++ str " = " ++ c :: rest)
     = Err (ErrUnexpectedCharacter c).
Proof.
  intros Hkey Hne Hp Hs Hsp.
  assert (H : parseRspamdConfig (key ++ str " = " ++ c :: rest)
              = Err (ErrUnexpectedCharacter c)).
  { rewrite parseRspamdConfig_parseConfig. change (newLexer ?x) with (at_ x).
    change (str " = " ++ c :: rest) with (str " " ++ str "=" ++ str " " ++ c :: rest).
    rewrite parseConfig_eq.
    rewrite (step_next _ _ _ _ (lex_identifier key _ Hkey (delimited_sp _))).
    cbn [typ val]. destruct (decide (key = str "domain")) as [Heq|_]; [contradiction|].
    erewrite (step_expect _ _ tokenEqual []); [|rewrite lex_sp; apply lex_equal].
    assert (Hlex : lex (str " " ++ c :: rest) = (Err (ErrUnexpectedCharacter c), rest))
      by (rewrite lex_sp; apply lex_rejected, part_only_rejected; assumption).
    unfold bind, parseValue, bind. rewrite (next_at_err _ _ _ Hlex). reflexivity. }
  unfold ParseDKIMConf, ParseDKIMSigningConf. rewrite H. repeat split.
Qed.

(** ** Syntax errors *)

Lemma parseRspamdConfig_after_key (key : gostring) (rest : list rune) :
  isIdentifier key = true -> key <> str "domain" -> delimited rest = true ->
  parseRspamdConfig (key ++ rest)
  = fst ((expect tokenEqual ;;;
          v <- parseValue ;;
          discard (tryConsume tokenSemicolon) ;;;
          parseConfig (<[key := v]> ∅) ∅) (at_ rest)).
Proof.
  intros Hkey Hne Hd. rewrite parseRspamdConfig_parseConfig.
  change (newLexer ?x) with (at_ x). rewrite parseConfig_eq.
  rewrite (step_next _ _ _ _ (lex_identifier key _ Hkey Hd)).
  cbn [typ val]. destruct (decide (key = str "domain")) as [Heq|_]; [contradiction|].
  reflexivity.
Qed.

(** X5: an assignment that is cut short is a syntax error that names what
    was expected and what was found: a key alone, a key followed by a value
    without the equals sign, and a key and equals sign followed by the end of
    the input or by a semicolon. *)
Theorem incomplete_assignment_is_an_error (key : gostring) (v : value) :
  isIdentifier key = true -> key <> str "domain" -> wfValue v = true ->
  parseRspamdConfig key = Err (ErrExpectedToken tokenEqual tokenEOF)
  /\ parseRspamdConfig (key ++ str " " ++ renderValue v)
     = Err (ErrExpectedToken tokenEqual (kind v))
  /\ parseRspamdConfig (key ++ str " =") = Err (ErrUnexpectedValueToken tokenEOF)
  /\ parseRspamdConfig (key ++ str " = ;")
     = Err (ErrUnexpectedValueToken tokenSemicolon).
Proof.
  intros Hkey Hne Hv. split; [|split; [|split]].
  - rewrite <- (app_nil_r key), (parseRspamdConfig_after_key key [] Hkey Hne eq_refl).
    reflexivity.
  - rewrite (parseRspamdConfig_after_key key _ Hkey Hne (delimited_sp _)).
    unfold bind, expect, bind.
    erewrite next_at;
      [|rewrite lex_sp, <- (app_nil_r (renderValue v)); apply (lex_value v [] Hv eq_refl)].
    destruct v; reflexivity.
  - rewrite (parseRspamdConfig_after_key key (str " =") Hkey Hne eq_refl). reflexivity.
  - rewrite (parseRspamdConfig_after_key key (str " = ;") Hkey Hne eq_refl). reflexivity.
Qed.




(** ** The pushed-back token *)

(** X7: probing for a token loses nothing: when the next token has the type
    asked for it is taken, otherwise it is pushed back and the next call of
    [next] returns it and leaves the lexer where [next] alone would. *)
Theorem tryConsume_keeps_the_token (l l' : lexer) (t : tokenType) (tok : token) :
  next l = (Ok tok, l') ->
  (if tokenType_eqb (typ tok) t
   then tryConsume t l = (Ok true, l')
   else tryConsume t l = (Ok false, {| rd := rd l'; peek := Some tok |})
        /\ (tryConsume t ;;; next) l = next l).
Proof.
  intros Hn. unfold tryConsume, bind. rewrite Hn.
  destruct (tokenType_eqb (typ tok) t); [reflexivity|].
  destruct (next_ok l l' tok Hn) as (Hp & _ & _).
  destruct l' as [s p]. simpl in *. subst p. split; reflexivity.
Qed.

(** ** Assignments and the module configuration *)

Lemma fold_left_addItem_agree (items : list item) (st1 st2 : smap * dmap)
    (key : gostring) :
  fst st1 !! key = fst st2 !! key ->
  fst (fold_left addItem items st1) !! key = fst (fold_left addItem items st2) !! key.
Proof.
  revert st1 st2; induction items as [|i items IH]; intros st1 st2 H; [exact H|].
  simpl. apply IH. destruct i as [x|es b]; simpl; [|exact H].
  unfold assign. destruct (decide (akey x = key)) as [->|Hne].
  - rewrite !lookup_insert_eq. reflexivity.
  - rewrite !lookup_insert_ne by exact Hne. exact H.
Qed.

Lemma fold_left_addItem_untouched (items : list item) (st : smap * dmap)
    (key : gostring) :
  ~ In key (topKeys items) ->
  fst (fold_left addItem items st) !! key = fst st !! key.
Proof.
  revert st; induction items as [|i items IH]; intros st Hk; [reflexivity|].
  simpl in *. destruct i as [x|es b]; simpl in *.
  - rewrite IH by tauto. simpl. unfold assign.
    apply lookup_insert_ne. intros Heq. apply Hk. left. exact Heq.
  - rewrite IH by exact Hk. reflexivity.
Qed.

(** X8: the last assignment to a key wins: in a well-formed configuration
    the Assignment Map gives a key the value of its last top-level
    assignment, whatever was assigned to it before. *)
Theorem last_assignment_wins (items : list item) (a : assignment)
    (more : list item) :
  forallb wfItem (items ++ ItemAssign a :: more) = true ->
  ~ In (akey a) (topKeys more) ->
  exists m d,
    parseRspamdConfig (render (items ++ ItemAssign a :: more)) = Ok (m, d)
    /\ m !! akey a = Some (valueText (avalue a)).
Proof.
  intros Hwf Hlast.
  exists (fst (meaning (items ++ ItemAssign a :: more))),
         (snd (meaning (items ++ ItemAssign a :: more))).
  split.
  - rewrite (parseRspamdConfig_render _ Hwf). destruct (meaning _); reflexivity.
  - unfold meaning. rewrite fold_left_app. cbn [fold_left].
    rewrite (fold_left_addItem_untouched more _ (akey a) Hlast). simpl.
    unfold assign. apply lookup_insert_eq.
Qed.

(** The module configuration is read off two keys. *)
Lemma projectDKIMConf_ext (a1 a2 : smap) :
  a1 !! str "enabled" = a2 !! str "enabled" ->
  a1 !! str "sign_headers" = a2 !! str "sign_headers" ->
  projectDKIMConf a1 = projectDKIMConf a2.
Proof.
  intros He Hs. unfold projectDKIMConf, index, gostring, rune in *.
  rewrite He, Hs. reflexivity.
Qed.

(** X9: [ParseDKIMConf] ignores every key but [enabled] and
    [sign_headers]: an assignment to another key, anywhere in a well-formed
    configuration, leaves its result unchanged. *)
Theorem ParseDKIMConf_ignores_other_keys (items : list item) (a : assignment)
    (more : list item) :
  forallb wfItem (items ++ ItemAssign a :: more) = true ->
  akey a <> str "enabled" -> akey a <> str "sign_headers" ->
  ParseDKIMConf (render (items ++ ItemAssign a :: more))
  = ParseDKIMConf (render (items ++ more)).
Proof.
  intros Hwf He Hs.
  assert (Hwf' : forallb wfItem (items ++ more) = true).
  { rewrite forallb_app in *. simpl in Hwf.
    apply andb_prop in Hwf as [H1 H2]. apply andb_prop in H2 as [_ H2].
    rewrite H1, H2. reflexivity. }
  unfold ParseDKIMConf.
  rewrite (parseRspamdConfig_render _ Hwf), (parseRspamdConfig_render _ Hwf').
  assert (Hsame : forall key, akey a <> key ->
            fst (meaning (items ++ ItemAssign a :: more)) !! key
            = fst (meaning (items ++ more)) !! key).
  { intros key Hne. unfold meaning. rewrite !fold_left_app. cbn [fold_left].
    apply fold_left_addItem_agree. simpl. unfold assign.
    apply lookup_insert_ne. exact Hne. }
  pose proof (projectDKIMConf_ext _ _ (Hsame _ He) (Hsame _ Hs)) as Hp.
  destruct (meaning (items ++ ItemAssign a :: more)), (meaning (items ++ more)).
  exact Hp.
Qed.

(** X10: the list of sign headers is derived from the raw string: whenever
    [ParseDKIMConf] succeeds, [SignHeaderList] is [parseSignHeaders] of
    [SignHeaders], and it is empty when the key is absent. *)
Theorem SignHeaderList_is_derived (input : list rune) (conf : DKIMConf) :
  ParseDKIMConf input = Ok conf ->
  SignHeaderList conf = parseSignHeaders (SignHeaders conf)
  /\ exists a d, parseRspamdConfig input = Ok (a, d)
       /\ SignHeaders conf = default [] (a !! str "sign_headers")
       /\ (a !! str "sign_headers" = None -> SignHeaderList conf = []).
Proof.
  unfold ParseDKIMConf.
  destruct (parseRspamdConfig input) as [[a d]|e|]; try discriminate.
  rewrite projectDKIMConf_spec. cbv zeta. unfold index.
  assert (Hlist : (if isEmpty (default [] (a !! str "sign_headers")) then []
                   else parseSignHeaders (default [] (a !! str "sign_headers")))
                  = parseSignHeaders (default [] (a !! str "sign_headers"))).
  { destruct (default [] (a !! str "sign_headers")); reflexivity. }
  intros Hconf.
  assert (Hc : SignHeaders conf = default [] (a !! str "sign_headers")
               /\ SignHeaderList conf
                  = parseSignHeaders (default [] (a !! str "sign_headers"))).
  { rewrite <- Hlist.
    destruct (a !! str "enabled") as [v|]; [destruct (coerce v)|];
      try discriminate; injection Hconf as <-; split; reflexivity. }
  destruct Hc as [H1 H2]. split; [rewrite H1; exact H2|].
  exists a, d. split; [reflexivity|]. split; [exact H1|].
  intros Hnone. rewrite H2. unfold gostring, rune in *. rewrite Hnone. reflexivity.
Qed.

(** ** The range of [parseSignHeaders] *)

Lemma trimLeft_head (s : gostring) :
  match trimLeft s with
  | [] => True
  | c :: _ => unicode_IsSpace c = false
  end.
Proof.
  induction s as [|c s IH]; simpl; [exact I|].
  destruct (unicode_IsSpace c) eqn:E; [exact IH|exact E].
Qed.

Lemma trimLeft_suffix (s : gostring) : exists p, s = p ++ trimLeft s.
Proof.
  induction s as [|c s [p IH]]; [exists []; reflexivity|]. simpl.
  destruct (unicode_IsSpace c).
  - exists (c :: p). simpl. rewrite <- IH. reflexivity.
  - exists []. reflexivity.
Qed.

Lemma trimLeft_nonspace (c : rune) (s : gostring) :
  unicode_IsSpace c = false -> trimLeft (c :: s) = c :: s.
Proof. intros H. simpl. rewrite H. reflexivity. Qed.

Lemma trimLeft_idem (s : gostring) : trimLeft (trimLeft s) = trimLeft s.
Proof.
  pose proof (trimLeft_head s) as H. destruct (trimLeft s) as [|c t]; [reflexivity|].
  apply trimLeft_nonspace. exact H.
Qed.

Lemma trimLeft_fixed (s : gostring) :
  trimLeft s = s -> match s with [] => True | c :: _ => unicode_IsSpace c = false end.
Proof. intros H. pose proof (trimLeft_head s) as Hh. rewrite H in Hh. exact Hh. Qed.

Lemma trimLeft_app (s t : gostring) :
  s <> [] -> trimLeft s = s -> trimLeft (s ++ t) = s ++ t.
Proof.
  intros Hne H. apply trimLeft_fixed in H. destruct s as [|c s]; [contradiction|].
  apply (trimLeft_nonspace c (s ++ t) H).
Qed.

Lemma strings_TrimSpace_trimmed (s : gostring) : trimmed (strings_TrimSpace s).
Proof.
  unfold trimmed, strings_TrimSpace. rewrite rev_involutive, trimLeft_idem.
  split; [|reflexivity].
  destruct (trimLeft_suffix (rev (trimLeft s))) as [p Hp].
  pose proof (trimLeft_head s) as Hh.
  assert (Hu : trimLeft s = rev (trimLeft (rev (trimLeft s))) ++ rev p).
  { rewrite <- rev_app_distr, <- Hp, rev_involutive. reflexivity. }
  destruct (rev (trimLeft (rev (trimLeft s)))) as [|c t]; [reflexivity|].
  rewrite Hu in Hh. apply trimLeft_nonspace. exact Hh.
Qed.

Lemma trimmed_TrimSpace (s : gostring) : trimmed s -> strings_TrimSpace s = s.
Proof.
  intros [H1 H2]. unfold strings_TrimSpace. rewrite H1, H2. apply rev_involutive.
Qed.

Lemma In_trimLeft (x : rune) (s : gostring) : In x (trimLeft s) -> In x s.
Proof.
  destruct (trimLeft_suffix s) as [p Hp]. intros H. rewrite Hp.
  apply in_or_app. right. exact H.
Qed.

Lemma In_TrimSpace (x : rune) (s : gostring) : In x (strings_TrimSpace s) -> In x s.
Proof.
  unfold strings_TrimSpace. intros H.
  apply in_rev, In_trimLeft in H. apply In_trimLeft. apply in_rev. exact H.
Qed.

Lemma In_drop (x : rune) (n : nat) (s : gostring) : In x (drop n s) -> In x s.
Proof.
  revert s; induction n as [|n IH]; intros s; [destruct s; auto|].
  destruct s as [|c s]; simpl; [auto|]. intros H. right. exact (IH s H).
Qed.

Lemma strings_Split_no_sep (s : gostring) (sep : rune) (part : gostring) :
  In part (strings_Split s sep) -> ~ In sep part.
Proof.
  revert part; induction s as [|c s IH]; intros part; simpl.
  - intros [<-|[]] [].
  - destruct (c =? sep) eqn:E.
    + intros [<-|H]; [intros []|exact (IH part H)].
    + apply Z.eqb_neq in E.
      pose proof (strings_Split_nonempty s sep) as Hne.
      destruct (strings_Split s sep) as [|q qs]; [contradiction|].
      intros [<-|H].
      * intros [Hc|Hq]; [congruence|]. exact (IH q (or_introl eq_refl) Hq).
      * exact (IH part (or_intror H)).
Qed.

(** X11: every entry [parseSignHeaders] returns is well formed: its name is
    not empty, has no whitespace at either end and no colon, it carries at
    most one flag, and a name without a flag does not start with a marker. *)
Theorem parseSignHeaders_entries_are_well_formed (raw : gostring) (h : SignHeader) :
  In h (parseSignHeaders raw) -> wfSignHeader h.
Proof.
  unfold parseSignHeaders. intros Hin.
  apply in_flat_map in Hin as (part & Hpart & Hh).
  destruct (signHeaderOf_spec part h Hh) as (Ho & Hx & Hname & Hne).
  cbv zeta in *. set (seg := strings_TrimSpace part) in *.
  assert (Hseg : trimmed seg) by apply strings_TrimSpace_trimmed.
  assert (Hcolon : forall x, In x (Name h) -> In x part).
  { intros x Hx'. rewrite Hname in Hx'.
    destruct (Oversigned h || OptionalOversigned h).
    - apply In_TrimSpace, In_drop in Hx'. apply In_TrimSpace. exact Hx'.
    - apply In_TrimSpace. exact Hx'. }
  split; [exact Hne|]. split; [|split; [|split]].
  - rewrite Hname. destruct (Oversigned h || OptionalOversigned h);
      [apply strings_TrimSpace_trimmed|exact Hseg].
  - intros Hc. exact (strings_Split_no_sep raw _ part Hpart (Hcolon _ Hc)).
  - destruct (Oversigned h) eqn:E; [|reflexivity].
    symmetry in Ho. rewrite Hx. simpl. exact (markers_exclusive _ Ho).
  - intros Hflags. rewrite Hname, Hflags, <- Ho, <- Hx.
    apply orb_false_elim in Hflags. exact Hflags.
Qed.

Lemma signHeaderOf_render (h : SignHeader) :
  wfSignHeader h -> signHeaderOf (renderSignHeader h) = [h].
Proof.
  destruct h as [name o x]. unfold wfSignHeader, renderSignHeader. simpl.
  intros (Hne & Htrim & _ & Hflags & Hmark).
  pose proof (trimmed_TrimSpace name Htrim) as Hname.
  destruct Htrim as [Hl Hr].
  assert (Hmarked : forall marker : gostring,
            trimLeft marker = marker -> marker <> [] ->
            strings_TrimSpace (marker ++ name) = marker ++ name).
  { intros marker Hm Hmne. apply trimmed_TrimSpace. split.
    - apply trimLeft_app; assumption.
    - rewrite rev_app_distr. apply trimLeft_app; [|exact Hr].
      intros Hnil. apply Hne. rewrite <- (rev_involutive name), Hnil. reflexivity. }
  unfold signHeaderOf. cbv zeta. destruct name as [|c name]; [contradiction|].
  destruct o.
  - rewrite (Hmarked (str "(o)") eq_refl ltac:(discriminate)).
    cbn [isEmpty app str list_ascii_of_string List.map strings_HasPrefix].
    rewrite !Z.eqb_refl. cbn [andb drop]. rewrite Hname. cbn [isEmpty].
    simpl in Hflags. subst x. reflexivity.
  - destruct x.
    + rewrite (Hmarked (str "(x)") eq_refl ltac:(discriminate)).
      cbn [isEmpty app str list_ascii_of_string List.map strings_HasPrefix].
      rewrite !Z.eqb_refl. cbn [andb drop]. rewrite Hname. reflexivity.
    + cbn [app]. rewrite Hname. cbn [isEmpty].
      destruct (Hmark eq_refl) as [H1 H2]. rewrite H1, H2. reflexivity.
Qed.

Lemma renderSignHeader_no_colon (h : SignHeader) :
  wfSignHeader h -> ~ In (ch ":") (renderSignHeader h).
Proof.
  intros (_ & _ & Hc & _). unfold renderSignHeader. intros H.
  apply in_app_or in H as [H|H]; [|exact (Hc H)].
  destruct (Oversigned h); [|destruct (OptionalOversigned h)];
    simpl in H; repeat (destruct H as [H|H]; [discriminate H|]); exact H.
Qed.

Lemma parseSignHeaders_one (h : SignHeader) :
  wfSignHeader h -> parseSignHeaders (renderSignHeader h) = [h].
Proof.
  intros Hwf. unfold parseSignHeaders.
  rewrite (strings_Split_whole _ _ (renderSignHeader_no_colon h Hwf)). simpl.
  rewrite (signHeaderOf_render h Hwf). reflexivity.
Qed.

(** X12: writing a list of well-formed entries with their markers, joined by
    colons, and reading it back with [parseSignHeaders] gives the list, in
    order. *)
Theorem parseSignHeaders_reads_back (hs : list SignHeader) :
  Forall wfSignHeader hs -> parseSignHeaders (renderSignHeaders hs) = hs.
Proof.
  induction 1 as [|h hs Hh Hhs IH]; [reflexivity|].
  destruct hs as [|h2 hs].
  - apply parseSignHeaders_one. exact Hh.
  - change (renderSignHeaders (h :: h2 :: hs))
      with (renderSignHeader h ++ str ":" ++ renderSignHeaders (h2 :: hs)).
    rewrite parseSignHeaders_app, IH, (parseSignHeaders_one h Hh). reflexivity.
Qed.

(** ** Termination *)

(** X13: the loops of the lexer and of the parser end on every input: the
    generic parser and both entry points return a result or an error, and a
    larger iteration budget than the one the model gives them computes the
    same answer. *)
Theorem parsing_always_returns (input : list rune) (budget : nat) :
  (length input < budget)%nat ->
  parseRspamdConfig input <> OutOfFuel
  /\ ParseDKIMConf input <> OutOfFuel
  /\ ParseDKIMSigningConf input <> OutOfFuel
  /\ fst (next (newLexer input)) <> OutOfFuel
  /\ configLoop budget ∅ ∅ (newLexer input)
     = configLoop (S (length input)) ∅ ∅ (newLexer input).
Proof.
  intros Hb. split; [apply parseRspamdConfig_total|].
  split; [apply ParseDKIMConf_total|]. split; [apply ParseDKIMSigningConf_total|].
  split; [apply (next_good (newLexer input))|].
  apply configLoop_fuel; unfold size; simpl; lia.
Qed.

(** ** Domain blocks that are cut short *)

Lemma firstTokenOk_body_any (body : list assignment) (rest : list rune) :
  forallb wfAssign body = true -> firstTokenOk rest = true ->
  firstTokenOk (renderBody body ++ rest) = true.
Proof.
  destruct body as [|a body]; intros Hwf Hrest; [exact Hrest|].
  simpl in Hwf. apply andb_prop in Hwf as [Ha _]. apply andb_prop in Ha as [Hk _].
  unfold renderBody. cbn [flat_map]. rewrite <- !app_assoc, renderAssign_app.
  apply firstTokenOk_identifier; [exact Hk|apply delimited_sp].
Qed.

(** The assignments of a rule, in front of any text whose first token reads
    well. *)
Lemma parseRule_prefix {B : Type} (body : list assignment) (r : smap)
    (rest : list rune) (k : smap -> M B) :
  forallb wfAssign body = true -> firstTokenOk rest = true ->
  bind (parseRule r) k (at_ (renderBody body ++ rest))
  = bind (parseRule (fold_left assign body r)) k (at_ rest).
Proof.
  revert r; induction body as [|a body IH]; intros r Hwf Hrest; [reflexivity|].
  simpl in Hwf. apply andb_prop in Hwf as [Ha Hbody].
  pose proof Ha as Ha'. apply andb_prop in Ha' as [Hkey Hval].
  unfold renderBody. cbn [flat_map fold_left]. rewrite <- !app_assoc.
  fold (renderBody body). rewrite renderAssign_app.
  rewrite parseRule_then.
  rewrite (step_next _ _ _ _ (lex_identifier (akey a) _ Hkey (delimited_sp _))).
  cbn [typ val tokenType_eqb negb].
  change (str " " ++ str "= " ++ ?x) with (str " = " ++ x).
  rewrite step_assignment;
    [|exact Hval|apply delimited_semicolon_opt; rewrite orb_true_r; reflexivity].
  rewrite step_optional_semicolon.
  - rewrite (peeks_blank _ (str " ") _ (peeks_bind _ _ (peeks_parseRule _)) eq_refl).
    apply (IH _ Hbody Hrest).
  - apply peeks_bind, peeks_parseRule.
  - rewrite firstTokenOk_sp, (firstTokenOk_body_any body _ Hbody Hrest).
    apply orb_true_r.
Qed.

Lemma firstTokenOk_entries_any (es : list entry) (rest : list rune) :
  forallb wfEntry es = true -> firstTokenOk rest = true ->
  firstTokenOk (renderEntries es ++ rest) = true.
Proof.
  destruct es as [|e es]; intros Hwf Hrest; [exact Hrest|].
  simpl in Hwf. apply andb_prop in Hwf as [He _]. apply andb_prop in He as [Hl _].
  unfold renderEntries. cbn [flat_map]. rewrite <- !app_assoc, renderEntry_app.
  apply firstTokenOk_value; [exact Hl|apply delimited_sp].
Qed.

(** The entries of a domain block, in front of any text whose first token
    reads well. *)
Lemma parseDomains_prefix {B : Type} (es : list entry) (d : dmap)
    (rest : list rune) (k : dmap -> M B) :
  forallb wfEntry es = true -> firstTokenOk rest = true ->
  bind (parseDomains d) k (at_ (renderEntries es ++ rest))
  = bind (parseDomains (fold_left addEntry es d)) k (at_ rest).
Proof.
  revert d; induction es as [|e es IH]; intros d Hwf Hrest; [reflexivity|].
  simpl in Hwf. apply andb_prop in Hwf as [He Hes].
  pose proof He as He'. apply andb_prop in He' as [Hlabel Hbody].
  unfold renderEntries. cbn [flat_map fold_left]. rewrite <- !app_assoc.
  fold (renderEntries es). rewrite renderEntry_app.
  rewrite parseDomains_then.
  rewrite (step_next _ _ _ _ (lex_value (elabel e) _ Hlabel (delimited_sp _))).
  cbn [typ val].
  assert (Hentry :
    (expect tokenLBrace ;;; rule <- parseRule ∅ ;;
     bind (parseDomains (<[valueText (elabel e) := rule]> d)) k)
      (at_ (str " " ++ str "{" ++ str " " ++ renderBody (ebody e) ++ str "}"
            ++ semicolon (esemi e) ++ str " " ++ renderEntries es ++ rest))
    = bind (parseDomains (fold_left addEntry es (addEntry d e))) k (at_ rest)).
  { erewrite (step_expect _ _ tokenLBrace []); [|rewrite lex_sp; apply lex_lbrace].
    rewrite (peeks_blank _ (str " ") _ (peeks_bind _ _ (peeks_parseRule _)) eq_refl).
    rewrite parseRule_body.
    - rewrite (peeks_blank _ (str " ") _ (peeks_bind _ _ (peeks_parseDomains _))
                 eq_refl).
      apply (IH _ Hes Hrest).
    - exact Hbody.
    - intros x. apply peeks_bind, peeks_parseDomains.
    - rewrite firstTokenOk_sp, (firstTokenOk_entries_any es _ Hes Hrest).
      apply orb_true_r. }
  destruct (elabel e); exact Hentry.
Qed.

Lemma parseRspamdConfig_in_domain (rest : list rune) :
  parseRspamdConfig (str "domain { " ++ rest)
  = fst ((domains' <- parseDomains ∅ ;; parseConfig ∅ domains') (at_ rest)).
Proof.
  rewrite parseRspamdConfig_parseConfig. change (newLexer ?x) with (at_ x).
  change (str "domain { " ++ rest)
    with (str "domain" ++ str " " ++ str "{" ++ str " " ++ rest).
  rewrite parseConfig_eq.
  rewrite (step_next _ _ _ _ (lex_identifier (str "domain") _ eq_refl (delimited_sp _))).
  cbn [typ val]. destruct (decide (str "domain" = str "domain")) as [_|Hne];
    [|contradiction].
  unfold bind at 1.
  erewrite (step_expect _ _ tokenLBrace []); [|rewrite lex_sp; apply lex_lbrace].
  rewrite (peeks_blank _ (str " ") _ (peeks_parseDomains _) eq_refl).
  reflexivity.
Qed.

(** X14: a domain block that is cut short is a syntax error, never a
    partial result: the input that ends after [domain], after the label of
    an entry, inside the list of entries or inside the assignments of a rule
    returns the error that names the end of the input. *)
Theorem unfinished_domain_block_is_an_error (es : list entry) (label : value)
    (body : list assignment) :
  forallb wfEntry es = true -> wfValue label = true ->
  forallb wfAssign body = true ->
  parseRspamdConfig (str "domain") = Err (ErrExpectedToken tokenLBrace tokenEOF)
  /\ parseRspamdConfig (str "domain { " ++ renderEntries es)
     = Err (ErrUnexpectedTokenInDomainBlock tokenEOF)
  /\ parseRspamdConfig (str "domain { " ++ renderEntries es ++ renderValue label)
     = Err (ErrExpectedToken tokenLBrace tokenEOF)
  /\ parseRspamdConfig
       (str "domain { " ++ renderEntries es ++ renderValue label ++ str " { "
        ++ renderBody body)
     = Err (ErrUnexpectedTokenInDomainRule tokenEOF).
Proof.
  intros Hes Hlabel Hbody. split; [vm_compute; reflexivity|].
  split; [|split].
  - rewrite parseRspamdConfig_in_domain, <- (app_nil_r (renderEntries es)).
    rewrite (parseDomains_prefix es ∅ [] _ Hes eq_refl).
    rewrite parseDomains_then. reflexivity.
  - rewrite parseRspamdConfig_in_domain.
    rewrite (parseDomains_prefix es ∅ _ _ Hes);
      [|rewrite <- (app_nil_r (renderValue label));
        apply (firstTokenOk_value label [] Hlabel eq_refl)].
    rewrite parseDomains_then, <- (app_nil_r (renderValue label)).
    rewrite (step_next _ _ _ _ (lex_value label [] Hlabel eq_refl)).
    destruct label; reflexivity.
  - rewrite parseRspamdConfig_in_domain.
    change (str " { " ++ renderBody body) with (str " " ++ str "{ " ++ renderBody body).
    rewrite (parseDomains_prefix es ∅ _ _ Hes);
      [|apply (firstTokenOk_value label _ Hlabel (delimited_sp _))].
    rewrite parseDomains_then.
    rewrite (step_next _ _ _ _ (lex_value label _ Hlabel (delimited_sp _))).
    assert (Hrule : forall key,
      (expect tokenLBrace ;;; rule <- parseRule ∅ ;;
       bind (parseDomains (<[key := rule]> (fold_left addEntry es ∅)))
            (fun domains' => parseConfig ∅ domains'))
        (at_ (str " " ++ str "{ " ++ renderBody body))
      = (Err (ErrUnexpectedTokenInDomainRule tokenEOF), at_ [])).
    { intros key.
      change (str " " ++ str "{ " ++ renderBody body)
        with (str " " ++ str "{" ++ str " " ++ renderBody body).
      erewrite (step_expect _ _ tokenLBrace []); [|rewrite lex_sp; apply lex_lbrace].
      rewrite (peeks_blank _ (str " ") _ (peeks_bind _ _ (peeks_parseRule _)) eq_refl).
      rewrite <- (app_nil_r (renderBody body)).
      rewrite (parseRule_prefix body ∅ [] _ Hbody eq_refl).
      rewrite parseRule_then. reflexivity. }
    cbn [typ val]. destruct label; cbn [kind valueText]; rewrite Hrule; reflexivity.
Qed.

(** ** Compact text *)

Lemma delimited_equal (rest : list rune) : delimited (str "=" ++ rest) = true.
Proof. reflexivity. Qed.

(** X15: whitespace between tokens is not needed where a semicolon or an
    equals sign separates them: assignments written as [key=value;] one after
    the other parse to the map of their last values. *)
Theorem compact_assignments_parse (body : list assignment) :
  forallb (fun a => wfItem (ItemAssign a)) body = true ->
  parseRspamdConfig (renderCompact body) = Ok (fold_left assign body ∅, ∅).
Proof.
  intros Hwf. rewrite parseRspamdConfig_parseConfig. change (newLexer ?x) with (at_ x).
  rewrite <- bind_ret_r.
  assert (H : forall a,
    bind (parseConfig a ∅) ret (at_ (renderCompact body))
    = bind (parseConfig (fold_left assign body a) ∅) ret (at_ [])).
  { induction body as [|x body IH]; intros a; [reflexivity|].
    simpl in Hwf. apply andb_prop in Hwf as [Hx Hbody].
    apply andb_prop in Hx as [Hx Hnd]. apply andb_prop in Hx as [Hkey Hval].
    apply negb_true_iff, bool_decide_eq_false in Hnd.
    unfold renderCompact. cbn [flat_map fold_left]. rewrite <- !app_assoc.
    fold (renderCompact body). rewrite parseConfig_then.
    rewrite (step_next _ _ _ _ (lex_identifier (akey x) _ Hkey (delimited_equal _))).
    cbn [typ val]. destruct (decide (akey x = str "domain")) as [Heq|_];
      [contradiction|].
    rewrite (step_expect _ _ tokenEqual [] _ (lex_equal _)).
    rewrite (step_parseValue _ _ (avalue x) _
               (lex_value (avalue x) _ Hval (delimited_semicolon _))).
    rewrite step_semicolon. apply (IH Hbody). }
  rewrite H, bind_ret_r, parseConfig_end. reflexivity.
Qed.

(** ** What the signing configuration reads *)

Lemma fold_left_addEntry_domains (es : list entry) (d1 d2 : dmap) :
  projectDomainRule <$> d1 = projectDomainRule <$> d2 ->
  projectDomainRule <$> fold_left addEntry es d1
  = projectDomainRule <$> fold_left addEntry es d2.
Proof.
  revert d1 d2; induction es as [|e es IH]; intros d1 d2 Hd; [exact Hd|].
  simpl. apply IH. unfold addEntry. rewrite !fmap_insert, Hd. reflexivity.
Qed.

Lemma fold_left_addItem_domains (items : list item) (st1 st2 : smap * dmap) :
  projectDomainRule <$> snd st1 = projectDomainRule <$> snd st2 ->
  projectDomainRule <$> snd (fold_left addItem items st1)
  = projectDomainRule <$> snd (fold_left addItem items st2).
Proof.
  revert st1 st2; induction items as [|i items IH]; intros st1 st2 H; [exact H|].
  simpl. apply IH. destruct i as [x|es b]; simpl; [exact H|].
  apply fold_left_addEntry_domains. exact H.
Qed.

Lemma projectDKIMSigningConf_ext (a1 a2 : smap) (d1 d2 : dmap) :
  (forall key, In key signingKeys -> a1 !! key = a2 !! key) ->
  projectDomainRule <$> d1 = projectDomainRule <$> d2 ->
  projectDKIMSigningConf a1 d1 = projectDKIMSigningConf a2 d2.
Proof.
  intros H Hd. unfold projectDKIMSigningConf, setBool, index. rewrite Hd.
  unfold signingKeys in H.
  repeat match goal with
         | |- context [a1 !! ?k] =>
             let E := fresh "E" in
             assert (E : a1 !! k = a2 !! k) by (apply H; simpl; tauto);
             unfold gostring, rune in *; rewrite E; clear E
         end.
  reflexivity.
Qed.

(** X16: [ParseDKIMSigningConf] ignores every top-level key it does not
    read: an assignment to another key, anywhere in a well-formed
    configuration, leaves its result unchanged. *)
Theorem ParseDKIMSigningConf_ignores_other_keys (items : list item)
    (a : assignment) (more : list item) :
  forallb wfItem (items ++ ItemAssign a :: more) = true ->
  ~ In (akey a) signingKeys ->
  ParseDKIMSigningConf (render (items ++ ItemAssign a :: more))
  = ParseDKIMSigningConf (render (items ++ more)).
Proof.
  intros Hwf Hkey.
  assert (Hwf' : forallb wfItem (items ++ more) = true).
  { rewrite forallb_app in *. simpl in Hwf.
    apply andb_prop in Hwf as [H1 H2]. apply andb_prop in H2 as [_ H2].
    rewrite H1, H2. reflexivity. }
  unfold ParseDKIMSigningConf.
  rewrite (parseRspamdConfig_render _ Hwf), (parseRspamdConfig_render _ Hwf').
  assert (Ha : forall key, In key signingKeys ->
            fst (meaning (items ++ ItemAssign a :: more)) !! key
            = fst (meaning (items ++ more)) !! key).
  { intros key Hin. unfold meaning. rewrite !fold_left_app. cbn [fold_left].
    apply fold_left_addItem_agree. simpl. unfold assign.
    apply lookup_insert_ne. intros Heq. apply Hkey. rewrite Heq. exact Hin. }
  assert (Hd : projectDomainRule <$> snd (meaning (items ++ ItemAssign a :: more))
               = projectDomainRule <$> snd (meaning (items ++ more))).
  { unfold meaning. rewrite !fold_left_app. cbn [fold_left].
    apply fold_left_addItem_domains. reflexivity. }
  pose proof (projectDKIMSigningConf_ext _ _ _ _ Ha Hd) as Hp.
  destruct (meaning (items ++ ItemAssign a :: more)), (meaning (items ++ more)).
  exact Hp.
Qed.

Lemma fold_left_assign_agree (body : list assignment) (r1 r2 : smap)
    (key : gostring) :
  r1 !! key = r2 !! key ->
  fold_left assign body r1 !! key = fold_left assign body r2 !! key.
Proof.
  revert r1 r2; induction body as [|x body IH]; intros r1 r2 H; [exact H|].
  simpl. apply IH. unfold assign. destruct (decide (akey x = key)) as [->|Hne].
  - rewrite !lookup_insert_eq. reflexivity.
  - rewrite !lookup_insert_ne by exact Hne. exact H.
Qed.

Lemma projectDomainRule_other_key (before after : list assignment) (x : assignment) :
  akey x <> str "selector" -> akey x <> str "path" ->
  projectDomainRule (ruleOf (before ++ x :: after))
  = projectDomainRule (ruleOf (before ++ after)).
Proof.
  intros Hs Hp. unfold projectDomainRule, index, ruleOf.
  rewrite !fold_left_app. cbn [fold_left].
  assert (H : forall key, akey x <> key ->
            fold_left assign after (assign (fold_left assign before ∅) x) !! key
            = fold_left assign after (fold_left assign before ∅) !! key).
  { intros key Hne. apply fold_left_assign_agree. unfold assign.
    apply lookup_insert_ne. exact Hne. }
  pose proof (H _ Hs) as E1. pose proof (H _ Hp) as E2.
  unfold gostring, rune in *. rewrite E1, E2. reflexivity.
Qed.

(** X17: inside a domain block only [selector] and [path] count: an
    assignment to another key in the rule of an entry, anywhere in a
    well-formed configuration, leaves the result of [ParseDKIMSigningConf]
    unchanged. *)
Theorem ParseDKIMSigningConf_ignores_other_rule_keys (items : list item)
    (es1 : list entry) (label : value) (before : list assignment) (x : assignment)
    (after : list assignment) (s : bool) (es2 : list entry) (s' : bool)
    (more : list item) :
  forallb wfItem
    (items ++ ItemDomain (es1 ++ Entry label (before ++ x :: after) s :: es2) s'
     :: more) = true ->
  akey x <> str "selector" -> akey x <> str "path" ->
  ParseDKIMSigningConf
    (render (items
             ++ ItemDomain (es1 ++ Entry label (before ++ x :: after) s :: es2) s'
             :: more))
  = ParseDKIMSigningConf
      (render (items
               ++ ItemDomain (es1 ++ Entry label (before ++ after) s :: es2) s'
               :: more)).
Proof.
  intros Hwf Hs Hp.
  assert (Hwf' : forallb wfItem
    (items ++ ItemDomain (es1 ++ Entry label (before ++ after) s :: es2) s' :: more)
    = true).
  { rewrite forallb_app in *. cbn [forallb wfItem] in *.
    rewrite forallb_app in *. cbn [forallb] in *. unfold wfEntry in *.
    cbn [elabel ebody] in *. rewrite forallb_app in *. cbn [forallb] in *.
    repeat match goal with
           | H : _ && _ = true |- _ => apply andb_prop in H as [? ?]
           end.
    repeat (apply andb_true_intro; split); assumption. }
  unfold ParseDKIMSigningConf.
  rewrite (parseRspamdConfig_render _ Hwf), (parseRspamdConfig_render _ Hwf').
  set (i1 := ItemDomain (es1 ++ Entry label (before ++ x :: after) s :: es2) s').
  set (i2 := ItemDomain (es1 ++ Entry label (before ++ after) s :: es2) s').
  assert (Ha : forall key, In key signingKeys ->
            fst (meaning (items ++ i1 :: more)) !! key
            = fst (meaning (items ++ i2 :: more)) !! key).
  { intros key _. unfold meaning. rewrite !fold_left_app. cbn [fold_left].
    apply fold_left_addItem_agree. reflexivity. }
  assert (Hd : projectDomainRule <$> snd (meaning (items ++ i1 :: more))
               = projectDomainRule <$> snd (meaning (items ++ i2 :: more))).
  { unfold meaning. rewrite !fold_left_app. cbn [fold_left].
    apply fold_left_addItem_domains. unfold i1, i2. cbn [addItem snd].
    rewrite !fold_left_app. cbn [fold_left].
    apply fold_left_addEntry_domains. unfold addEntry. cbn [elabel ebody].
    rewrite !fmap_insert, (projectDomainRule_other_key before after x Hs Hp).
    reflexivity. }
  pose proof (projectDKIMSigningConf_ext _ _ _ _ Ha Hd) as Hproj.
  destruct (meaning (items ++ i1 :: more)), (meaning (items ++ i2 :: more)).
  exact Hproj.
Qed.

(** ** The word [domain] *)

(** X18: [domain] is a keyword only where an item starts: as a value, as
    the label of an entry and as a key inside a rule it is an ordinary
    identifier. *)
Theorem domain_is_reserved_only_at_item_start (key : gostring) (v label : value) :
  isIdentifier key = true -> key <> str "domain" ->
  wfValue v = true -> wfValue label = true ->
  parseRspamdConfig (renderAssign (Assign key (Bare (str "domain")) false))
  = Ok ({[ key := str "domain" ]}, ∅)
  /\ parseRspamdConfig
       (renderDomain [Entry label [Assign (str "domain") v false] false] false)
     = Ok (∅, {[ valueText label := {[ str "domain" := valueText v ]} ]})
  /\ parseRspamdConfig (renderDomain [Entry (Bare (str "domain")) [] false] false)
     = Ok (∅, {[ str "domain" := ∅ ]})
  /\ parseRspamdConfig (renderAssign (Assign (str "domain") v false))
     = Err (ErrExpectedToken tokenLBrace tokenEqual).
Proof.
  intros Hkey Hne Hv Hlabel. split; [|split; [|split]].
  - apply (parseRspamdConfig_item (ItemAssign (Assign key (Bare (str "domain")) false))).
    unfold wfItem, wfAssign. cbn [akey avalue]. rewrite Hkey. simpl.
    apply negb_true_iff, bool_decide_eq_false. exact Hne.
  - apply (parseRspamdConfig_item
             (ItemDomain [Entry label [Assign (str "domain") v false] false] false)).
    cbn [wfItem forallb]. unfold wfEntry, wfAssign. cbn [elabel ebody forallb akey avalue].
    rewrite Hlabel, Hv. reflexivity.
  - apply (parseRspamdConfig_item
             (ItemDomain [Entry (Bare (str "domain")) [] false] false)).
    reflexivity.
  - apply parseRspamdConfig_domain_key.
Qed.

End Unicode.

(** * Runs on ASCII texts *)

Local Abbreviation W := Latin1.White_Space.
Local Abbreviation L := Latin1.Letter.
Local Abbreviation D := Latin1.Digit.
Local Abbreviation C := Latin1.To_LowerCase.

(** C2 on the line of section 8, on a line of one field, and on whole map
    files. *)
Lemma map_file_lines_witness :
  (str "foo.com" <> [] /\ forallb (nonspace W) (str "foo.com") = true
   /\ strings_HasPrefix (str "foo.com") (str "#") = false
   /\ str "   " <> [] /\ forallb (unicode_IsSpace W) (str "   ") = true
   /\ str "bar" <> [] /\ forallb (nonspace W) (str "bar") = true)
  /\ parseMapLine W ∅ (str "foo.com" ++ str "   " ++ str "bar")
     = inl {[ str "foo.com" := str "bar" ]}
  /\ parseMapLine W ∅ (str "foo.com") = inr (str "foo.com")
  /\ ParseDKIMSelectorsMap W (str "foo.com" ++ str "   " ++ str "bar")
     = inl {[ str "foo.com" := str "bar" ]}
  /\ ParseDKIMSelectorsMap W sampleMapFile
     = inl {[ str "foo.com" := str "baz"; str "test.mailer.com" := str "mail" ]}
  /\ ParseDKIMPathsMap W sampleBadMapFile = inr (str "lonely").
Proof.
  assert (H : str "foo.com" <> [] /\ forallb (nonspace W) (str "foo.com") = true
   /\ strings_HasPrefix (str "foo.com") (str "#") = false
   /\ str "   " <> [] /\ forallb (unicode_IsSpace W) (str "   ") = true
   /\ str "bar" <> [] /\ forallb (nonspace W) (str "bar") = true).
  { repeat split; try discriminate; vm_compute; reflexivity. }
  split; [exact H|].
  destruct H as (H1 & H2 & H3 & H4 & H5 & H6 & H7).
  destruct (map_file_lines W ∅ [] (str "foo.com") (str "   ") (str "bar") []
              sampleMapFile H1 H2 H3 H4 H5 H6 H7)
    as (_ & _ & _ & Hadd & Hbad & _ & _ & _ & _ & Hone & Hfile & Hbadfile & _).
  split; [exact Hadd|]. split; [exact Hbad|].
  split; [|split; [exact Hfile|exact Hbadfile]].
  apply Hone. intros [E|[E|[E|[]]]]; discriminate E.
Defined.

(** C3 on a key present with the value false in mixed case, and on a
    configuration that assigns only [enabled]. *)
Lemma optional_boolean_fields_witness :
  (parseRspamdConfig W L D (str "enabled = FaLsE")
   = Ok ({[ str "enabled" := str "FaLsE" ]}, ∅)
   /\ forallb (wfItem W L D) sampleEnabled = true)
  /\ (forall conf,
        ParseDKIMSigningConf W L D C (str "enabled = FaLsE") = Ok conf ->
        Forall (fieldAgrees C {[ str "enabled" := str "FaLsE" ]} conf) boolFields)
  /\ (forall conf,
        ParseDKIMSigningConf W L D C (render sampleEnabled) = Ok conf ->
        Forall (fun kf => snd kf conf = None <-> ~ In (fst kf) (topKeys sampleEnabled))
               boolFields)
  /\ ParseDKIMConf W L D C (str "enabled = FaLsE") = Ok (mkDKIMConf (Some false) [] [])
  /\ (forall conf,
        ParseDKIMConf W L D C (render sampleEnabled) = Ok conf ->
        Enabled conf = None <-> ~ In (str "enabled") (topKeys sampleEnabled))
  /\ coerce C (str "TRUE") = Some true
  /\ coerce C (str "yes") = None
  /\ ParseDKIMSigningConf W L D C (str "sign_local = True") = Ok (onlySignLocal true).
Proof.
  assert (H : parseRspamdConfig W L D (str "enabled = FaLsE")
              = Ok ({[ str "enabled" := str "FaLsE" ]}, ∅))
    by (vm_compute; reflexivity).
  assert (H' : forallb (wfItem W L D) sampleEnabled = true) by (vm_compute; reflexivity).
  split; [split; assumption|].
  destruct (optional_boolean_fields W L D C (str "enabled = FaLsE") _ _ sampleEnabled
              H H') as (H1 & H2 & _ & _ & H5 & H6 & H7 & H8 & _ & _ & _ & _ & H9 & _).
  split; [exact H1|]. split; [exact H2|].
  split; [etransitivity; [exact H5|vm_compute; reflexivity]|].
  split; [exact H6|].
  split; [apply H7; vm_compute; reflexivity|].
  split; [|exact H9].
  etransitivity; [apply H8|]; vm_compute; reflexivity.
Defined.

(** C4 on a whitespace-only part between two colons. *)
Lemma parseSignHeaders_example_and_blank_parts_witness :
  forallb (unicode_IsSpace W) (str "  ") = true
  /\ parseSignHeaders W (str "(o)from" ++ str ":" ++ str "  " ++ str ":" ++ str "plain")
     = parseSignHeaders W (str "(o)from" ++ str ":" ++ str "plain").
Proof.
  split; [vm_compute; reflexivity|].
  exact (proj1 (proj2 (parseSignHeaders_example_and_blank_parts W
                         (str "(o)from") (str "  ") (str "plain") eq_refl))).
Defined.

(** C5 on a block for [a.com] that comes after an assignment and an earlier
    block for the same label. *)
Lemma later_domain_entry_replaces_earlier_witness :
  (forallb (wfItem W L D) sampleEarlier = true
   /\ wfEntry W L D (Entry (Quoted (str "a.com")) sampleRule false) = true
   /\ ~ In (str "path") (List.map akey sampleRule))
  /\ exists a d,
       parseRspamdConfig W L D
         (render (sampleEarlier
                  ++ [ItemDomain [Entry (Quoted (str "a.com")) sampleRule false] true]))
       = Ok (a, d)
       /\ d !! str "a.com" = Some (ruleOf sampleRule)
       /\ ruleOf sampleRule !! str "path" = None.
Proof.
  assert (H1 : forallb (wfItem W L D) sampleEarlier = true) by (vm_compute; reflexivity).
  assert (H2 : wfEntry W L D (Entry (Quoted (str "a.com")) sampleRule false) = true)
    by (vm_compute; reflexivity).
  assert (H3 : ~ In (str "path") (List.map akey sampleRule)).
  { simpl. intros [H|[]]. discriminate H. }
  split; [repeat split; assumption|].
  exact (proj2 (proj2 (proj2
    (later_domain_entry_replaces_earlier W L D C sampleEarlier (Quoted (str "a.com"))
       sampleRule false true (str "path") H1 H2 H3)))).
Defined.

(** C6 on one assignment, and on a configuration written with every
    semicolon and with none. *)
Lemma trailing_semicolon_is_optional_witness :
  (isIdentifier W L D (str "key") = true /\ wfValue W L D (Bare (str "val")) = true
   /\ forallb (wfEntry W L D) sampleEntries = true
   /\ forallb (wfItem W L D) sampleItems = true
   /\ List.map (itemSemi false) (List.map (itemSemi false) sampleItems)
      = List.map (itemSemi false) sampleItems)
  /\ parseRspamdConfig W L D (str "key = val;") = parseRspamdConfig W L D (str "key = val")
  /\ parseRspamdConfig W L D (render (List.map (itemSemi false) sampleItems))
     = parseRspamdConfig W L D (render sampleItems).
Proof.
  assert (H1 : isIdentifier W L D (str "key") = true) by (vm_compute; reflexivity).
  assert (H2 : wfValue W L D (Bare (str "val")) = true) by (vm_compute; reflexivity).
  assert (H3 : forallb (wfEntry W L D) sampleEntries = true) by (vm_compute; reflexivity).
  assert (H4 : forallb (wfItem W L D) sampleItems = true) by (vm_compute; reflexivity).
  assert (H5 : List.map (itemSemi false) (List.map (itemSemi false) sampleItems)
               = List.map (itemSemi false) sampleItems) by reflexivity.
  split; [repeat split; assumption|].
  destruct (trailing_semicolon_is_optional W L D sampleItems
              (List.map (itemSemi false) sampleItems) (str "key")
              (Bare (str "val")) sampleEntries H1 H2 H3 H4 H5)
    as (Ha & _ & _ & _ & Hc & _).
  split; [exact Ha|exact Hc].
Defined.

(** C7 on the literal whose body is [a], backslash, quote, [b]. *)
Lemma quoted_string_lexing_witness :
  literal [ch "a"; backslash; quote; ch "b"] [ch "a"; quote; ch "b"]
  /\ lex W L D (quote :: [ch "a"; backslash; quote; ch "b"] ++ quote :: str " x")
     = (Ok (Token tokenString [ch "a"; quote; ch "b"]), str " x")
  /\ lex W L D (quote :: [ch "a"; backslash; quote; ch "b"]) = (Err io_EOF, []).
Proof.
  assert (H : literal [ch "a"; backslash; quote; ch "b"] [ch "a"; quote; ch "b"]).
  { apply literal_plain; [discriminate..|]. apply literal_escape.
    apply literal_plain; [discriminate..|]. apply literal_nil. }
  split; [exact H|].
  destruct (quoted_string_lexing W L D _ _ (str " x") H) as (H1 & _ & H3 & _).
  split; [exact H1|exact H3].
Defined.

(** C8 on the first entry of a two-part list. *)
Lemma oversign_flags_exclusive_witness :
  In (mkSignHeader (str "from") true false) (parseSignHeaders W (str "(o)from:(x)date"))
  /\ Oversigned (mkSignHeader (str "from") true false)
     && OptionalOversigned (mkSignHeader (str "from") true false) = false.
Proof.
  assert (H : In (mkSignHeader (str "from") true false)
                (parseSignHeaders W (str "(o)from:(x)date")))
    by (vm_compute; left; reflexivity).
  split; [exact H|].
  exact (proj1 (oversign_flags_exclusive W (str "(o)from:(x)date") _ H)).
Defined.

(** C9 on a stream of two spaces. *)
Lemma blank_input_gives_unset_configuration_witness :
  forallb (unicode_IsSpace W) (str "  ") = true
  /\ ParseDKIMConf W L D C (str "  ") = Ok (mkDKIMConf None [] [])
  /\ ParseDKIMSigningConf W L D C (str "  ") = Ok unsetSigningConf.
Proof.
  split; [vm_compute; reflexivity|].
  destruct (blank_input_gives_unset_configuration W L D C (str "  ") eq_refl)
    as (H1 & H2 & _).
  split; [exact H1|exact H2].
Defined.

(** C10 on a block in front of an accepted input, and between two
    assignments. *)
Lemma domain_block_leaves_DKIMConf_unchanged_witness :
  (ParseDKIMConf W L D C (str "enabled = FALSE # off" ++ [10] ++ str "sign_headers = from")
   = Ok (mkDKIMConf (Some false) (str "from") [mkSignHeader (str "from") false false])
   /\ forallb (wfEntry W L D) sampleBlock = true
   /\ forallb (wfItem W L D) sampleEnabled = true
   /\ forallb (wfItem W L D) sampleItems = true)
  /\ ParseDKIMConf W L D C
       (renderDomain sampleBlock false
        ++ 10 :: str "enabled = FALSE # off" ++ [10] ++ str "sign_headers = from")
     = Ok (mkDKIMConf (Some false) (str "from") [mkSignHeader (str "from") false false])
  /\ ParseDKIMConf W L D C
       (render (sampleEnabled ++ ItemDomain sampleBlock true :: sampleItems))
     = Ok (mkDKIMConf (Some true) [] [])
  /\ parseRspamdConfig W L D
       (render (sampleEnabled ++ ItemDomain sampleBlock true :: sampleItems))
     = Ok ({[ str "enabled" := str "true"; str "path" := str "/k" ]},
           {[ str "x" := {[ str "k" := str "v" ]};
              str "example.org" := {[ str "selector" := str "s1" ]} ]}).
Proof.
  assert (H1 : ParseDKIMConf W L D C
                 (str "enabled = FALSE # off" ++ [10] ++ str "sign_headers = from")
               = Ok (mkDKIMConf (Some false) (str "from")
                       [mkSignHeader (str "from") false false]))
    by (vm_compute; reflexivity).
  assert (H2 : forallb (wfEntry W L D) sampleBlock = true) by (vm_compute; reflexivity).
  assert (H3 : forallb (wfItem W L D) sampleEnabled = true) by (vm_compute; reflexivity).
  assert (H4 : forallb (wfItem W L D) sampleItems = true) by (vm_compute; reflexivity).
  split; [repeat split; assumption|].
  destruct (domain_block_leaves_DKIMConf_unchanged W L D C _ _ sampleEnabled sampleItems
              sampleBlock false H1 H2 H3 H4) as (Hfront & _).
  destruct (domain_block_leaves_DKIMConf_unchanged W L D C _ _ sampleEnabled sampleItems
              sampleBlock true H1 H2 H3 H4) as (_ & Hin & Hparse & _).
  split; [exact Hfront|].
  split; [etransitivity; [exact Hin|vm_compute; reflexivity]|].
  etransitivity; [exact Hparse|vm_compute; reflexivity].
Defined.

(** X1 on a space and a comment line in front of an assignment. *)
Lemma gap_before_text_is_skipped_witness :
  (gap W sampleGap /\ forallb (fun c => negb (c =? 10)) (str " note") = true)
  /\ parseRspamdConfig W L D (sampleGap ++ str "a = b")
     = parseRspamdConfig W L D (str "a = b")
  /\ parseRspamdConfig W L D (sampleGap ++ ch "#" :: str " note") = Ok (∅, ∅).
Proof.
  assert (H1 : gap W sampleGap).
  { apply gap_space; [reflexivity|].
    apply (gap_comment W (str " note") []); [reflexivity|apply gap_nil]. }
  assert (H2 : forallb (fun c => negb (c =? 10)) (str " note") = true) by reflexivity.
  split; [split; assumption|].
  destruct (gap_before_text_is_skipped W L D C sampleGap (str " note") (str "a = b")
              H1 H2) as (Ha & _ & _ & Hb).
  split; [exact Ha|exact Hb].
Defined.

(** X2 on an assignment followed by a comment line and a domain block. *)
Lemma gaps_between_items_do_not_matter_witness :
  Forall (fun x => wfItem W L D (fst x) = true /\ gap W (snd x)
                   /\ separates L D (snd x) = true) sampleSpaced
  /\ parseRspamdConfig W L D (renderSpaced sampleSpaced)
     = Ok (meaning (List.map fst sampleSpaced)).
Proof.
  assert (H : Forall (fun x => wfItem W L D (fst x) = true /\ gap W (snd x)
                               /\ separates L D (snd x) = true) sampleSpaced).
  { constructor; [split; [reflexivity|split; [|reflexivity]]|].
    - apply gap_space; [reflexivity|].
      apply (gap_comment W (str " note") []); [reflexivity|apply gap_nil].
    - constructor; [split; [reflexivity|split; [|reflexivity]]|constructor].
      apply gap_space; [reflexivity|apply gap_nil]. }
  split; [exact H|].
  exact (gaps_between_items_do_not_matter W L D sampleSpaced H).
Defined.

(** X3 on the text [ab.c/d = x]. *)
Lemma identifier_is_the_longest_run_witness :
  (isIdentStart L (ch "a") = true /\ unicode_IsSpace W (ch "a") = false)
  /\ exists id rest,
       lex W L D (ch "a" :: str "b.c/d = x") = (Ok (Token tokenIdent (ch "a" :: id)), rest)
       /\ str "b.c/d = x" = id ++ rest
       /\ forallb (isIdentPart L D) id = true
       /\ delimited L D rest = true.
Proof.
  split; [split; reflexivity|].
  exact (proj2 (identifier_is_the_longest_run W L D (ch "a") (str "b.c/d = x")
                  eq_refl eq_refl)).
Defined.

(** X4 on an unquoted absolute path. *)
Lemma unquoted_value_must_start_an_identifier_witness :
  (isIdentifier W L D (str "path") = true /\ str "path" <> str "domain"
   /\ isIdentPart L D (ch "/") = true /\ isIdentStart L (ch "/") = false
   /\ unicode_IsSpace W (ch "/") = false)
  /\ ParseDKIMSigningConf W L D C (str "path" ++ str " = " ++ ch "/" :: str "var/lib/x")
     = Err (ErrUnexpectedCharacter (ch "/")).
Proof.
  assert (Hne : str "path" <> str "domain") by discriminate.
  split; [repeat split; try reflexivity; exact Hne|].
  exact (proj2 (proj2 (unquoted_value_must_start_an_identifier W L D C (str "path")
                         (ch "/") (str "var/lib/x") eq_refl Hne eq_refl eq_refl
                         eq_refl))).
Defined.

(** X5 on the key [key] and the value [val]. *)
Lemma incomplete_assignment_is_an_error_witness :
  (isIdentifier W L D (str "key") = true /\ str "key" <> str "domain"
   /\ wfValue W L D (Bare (str "val")) = true)
  /\ parseRspamdConfig W L D (str "key") = Err (ErrExpectedToken tokenEqual tokenEOF)
  /\ parseRspamdConfig W L D (str "key" ++ str " " ++ str "val")
     = Err (ErrExpectedToken tokenEqual tokenIdent).
Proof.
  assert (Hne : str "key" <> str "domain") by discriminate.
  split; [repeat split; try reflexivity; exact Hne|].
  destruct (incomplete_assignment_is_an_error W L D (str "key") (Bare (str "val"))
              eq_refl Hne eq_refl) as (H1 & H2 & _).
  split; [exact H1|exact H2].
Defined.


(** X7 on the probe for a semicolon in front of [a b]. *)
Lemma tryConsume_keeps_the_token_witness :
  next W L D (newLexer (str "a b"))
  = (Ok (Token tokenIdent (str "a")), newLexer (str " b"))
  /\ (tryConsume W L D tokenSemicolon ;;; next W L D) (newLexer (str "a b"))
     = next W L D (newLexer (str "a b")).
Proof.
  assert (H : next W L D (newLexer (str "a b"))
              = (Ok (Token tokenIdent (str "a")), newLexer (str " b")))
    by (vm_compute; reflexivity).
  split; [exact H|].
  exact (proj2 (tryConsume_keeps_the_token W L D _ _ tokenSemicolon _ H)).
Defined.

(** X8 on [enabled] assigned twice, true and then false. *)
Lemma last_assignment_wins_witness :
  (forallb (wfItem W L D)
     (sampleEnabled ++ ItemAssign sampleAgain :: [ItemDomain sampleBlock false]) = true
   /\ ~ In (akey sampleAgain) (topKeys [ItemDomain sampleBlock false]))
  /\ exists m d,
       parseRspamdConfig W L D
         (render (sampleEnabled ++ ItemAssign sampleAgain
                  :: [ItemDomain sampleBlock false])) = Ok (m, d)
       /\ m !! akey sampleAgain = Some (valueText (avalue sampleAgain)).
Proof.
  assert (H1 : forallb (wfItem W L D)
     (sampleEnabled ++ ItemAssign sampleAgain :: [ItemDomain sampleBlock false]) = true)
    by (vm_compute; reflexivity).
  assert (H2 : ~ In (akey sampleAgain) (topKeys [ItemDomain sampleBlock false]))
    by (simpl; tauto).
  split; [split; assumption|].
  exact (last_assignment_wins W L D sampleEnabled sampleAgain
           [ItemDomain sampleBlock false] H1 H2).
Defined.

(** X9 on an assignment to [other] after [enabled = true]. *)
Lemma ParseDKIMConf_ignores_other_keys_witness :
  (forallb (wfItem W L D) (sampleEnabled ++ ItemAssign sampleOther :: []) = true
   /\ akey sampleOther <> str "enabled" /\ akey sampleOther <> str "sign_headers")
  /\ ParseDKIMConf W L D C (render (sampleEnabled ++ ItemAssign sampleOther :: []))
     = ParseDKIMConf W L D C (render (sampleEnabled ++ [])).
Proof.
  assert (H1 : forallb (wfItem W L D) (sampleEnabled ++ ItemAssign sampleOther :: [])
               = true) by (vm_compute; reflexivity).
  assert (H2 : akey sampleOther <> str "enabled") by discriminate.
  assert (H3 : akey sampleOther <> str "sign_headers") by discriminate.
  split; [repeat split; assumption|].
  exact (ParseDKIMConf_ignores_other_keys W L D C sampleEnabled sampleOther [] H1 H2 H3).
Defined.

(** X10 on a configuration with one sign header. *)
Lemma SignHeaderList_is_derived_witness :
  ParseDKIMConf W L D C (str "sign_headers = from")
  = Ok (mkDKIMConf None (str "from") [mkSignHeader (str "from") false false])
  /\ SignHeaderList (mkDKIMConf None (str "from") [mkSignHeader (str "from") false false])
     = parseSignHeaders W
         (SignHeaders (mkDKIMConf None (str "from")
                         [mkSignHeader (str "from") false false])).
Proof.
  assert (H : ParseDKIMConf W L D C (str "sign_headers = from")
              = Ok (mkDKIMConf None (str "from") [mkSignHeader (str "from") false false]))
    by (vm_compute; reflexivity).
  split; [exact H|].
  exact (proj1 (SignHeaderList_is_derived W L D C _ _ H)).
Defined.

(** X11 on the second entry of a list with a space after the colon. *)
Lemma parseSignHeaders_entries_are_well_formed_witness :
  In (mkSignHeader (str "date") false true) (parseSignHeaders W (str "(o)from: (x)date"))
  /\ wfSignHeader W (mkSignHeader (str "date") false true).
Proof.
  assert (H : In (mkSignHeader (str "date") false true)
                (parseSignHeaders W (str "(o)from: (x)date")))
    by (vm_compute; right; left; reflexivity).
  split; [exact H|].
  exact (parseSignHeaders_entries_are_well_formed W _ _ H).
Defined.

(** X13 on a short input and a generous budget. *)
Lemma parsing_always_returns_witness :
  (length (str "a = b") < 100)%nat
  /\ configLoop W L D 100 ∅ ∅ (newLexer (str "a = b"))
     = configLoop W L D (S (length (str "a = b"))) ∅ ∅ (newLexer (str "a = b")).
Proof.
  assert (H : (length (str "a = b") < 100)%nat) by (vm_compute; lia).
  split; [exact H|].
  exact (proj2 (proj2 (proj2 (proj2
           (parsing_always_returns W L D C (str "a = b") 100 H))))).
Defined.

(** X14 on a block that ends inside the rule of its second entry. *)
Lemma unfinished_domain_block_is_an_error_witness :
  (forallb (wfEntry W L D) sampleBlock = true /\ wfValue W L D (Bare (str "y")) = true
   /\ forallb (wfAssign W L D) sampleRule = true)
  /\ parseRspamdConfig W L D (str "domain { " ++ renderEntries sampleBlock)
     = Err (ErrUnexpectedTokenInDomainBlock tokenEOF)
  /\ parseRspamdConfig W L D
       (str "domain { " ++ renderEntries sampleBlock ++ renderValue (Bare (str "y"))
        ++ str " { " ++ renderBody sampleRule)
     = Err (ErrUnexpectedTokenInDomainRule tokenEOF).
Proof.
  split; [repeat split; reflexivity|].
  destruct (unfinished_domain_block_is_an_error W L D sampleBlock (Bare (str "y"))
              sampleRule eq_refl eq_refl eq_refl) as (_ & H2 & _ & H4).
  split; [exact H2|exact H4].
Defined.

(** X15 on two assignments without any whitespace. *)
Lemma compact_assignments_parse_witness :
  forallb (fun a => wfItem W L D (ItemAssign a)) sampleCompact = true
  /\ parseRspamdConfig W L D (renderCompact sampleCompact)
     = Ok (fold_left assign sampleCompact ∅, ∅).
Proof.
  split; [reflexivity|].
  exact (compact_assignments_parse W L D sampleCompact eq_refl).
Defined.

(** X16 on an assignment to [other] after [enabled = true]. *)
Lemma ParseDKIMSigningConf_ignores_other_keys_witness :
  (forallb (wfItem W L D) (sampleEnabled ++ ItemAssign sampleOther :: []) = true
   /\ ~ In (akey sampleOther) signingKeys)
  /\ ParseDKIMSigningConf W L D C (render (sampleEnabled ++ ItemAssign sampleOther :: []))
     = ParseDKIMSigningConf W L D C (render (sampleEnabled ++ [])).
Proof.
  assert (H1 : forallb (wfItem W L D) (sampleEnabled ++ ItemAssign sampleOther :: [])
               = true) by (vm_compute; reflexivity).
  assert (H2 : ~ In (akey sampleOther) signingKeys).
  { simpl. intros H. repeat (destruct H as [H|H]; [discriminate H|]). exact H. }
  split; [split; assumption|].
  exact (ParseDKIMSigningConf_ignores_other_keys W L D C sampleEnabled sampleOther []
           H1 H2).
Defined.

(** X17 on a rule that assigns [selector] and [other]. *)
Lemma ParseDKIMSigningConf_ignores_other_rule_keys_witness :
  (forallb (wfItem W L D)
     ([] ++ ItemDomain ([] ++ Entry (Bare (str "x")) (sampleRule ++ sampleOther :: [])
                               false :: []) false :: []) = true
   /\ akey sampleOther <> str "selector" /\ akey sampleOther <> str "path")
  /\ ParseDKIMSigningConf W L D C
       (render ([] ++ ItemDomain ([] ++ Entry (Bare (str "x"))
                                         (sampleRule ++ sampleOther :: []) false :: [])
                        false :: []))
     = ParseDKIMSigningConf W L D C
         (render ([] ++ ItemDomain ([] ++ Entry (Bare (str "x")) (sampleRule ++ [])
                                           false :: []) false :: [])).
Proof.
  assert (H1 : forallb (wfItem W L D)
     ([] ++ ItemDomain ([] ++ Entry (Bare (str "x")) (sampleRule ++ sampleOther :: [])
                               false :: []) false :: []) = true)
    by (vm_compute; reflexivity).
  assert (H2 : akey sampleOther <> str "selector") by discriminate.
  assert (H3 : akey sampleOther <> str "path") by discriminate.
  split; [repeat split; assumption|].
  exact (ParseDKIMSigningConf_ignores_other_rule_keys W L D C [] [] (Bare (str "x"))
           sampleRule sampleOther [] false [] false [] H1 H2 H3).
Defined.

(** X18 on the key [key], the value [v] and a quoted label. *)
Lemma domain_is_reserved_only_at_item_start_witness :
  (isIdentifier W L D (str "key") = true /\ str "key" <> str "domain"
   /\ wfValue W L D (Bare (str "v")) = true
   /\ wfValue W L D (Quoted (str "a b")) = true)
  /\ parseRspamdConfig W L D (str "key = domain") = Ok ({[ str "key" := str "domain" ]}, ∅)
  /\ parseRspamdConfig W L D
       (renderDomain [Entry (Quoted (str "a b")) [Assign (str "domain") (Bare (str "v")) false]
                        false] false)
     = Ok (∅, {[ str "a b" := {[ str "domain" := str "v" ]} ]}).
Proof.
  assert (Hne : str "key" <> str "domain") by discriminate.
  split; [repeat split; try reflexivity; exact Hne|].
  destruct (domain_is_reserved_only_at_item_start W L D (str "key") (Bare (str "v"))
              (Quoted (str "a b")) eq_refl Hne eq_refl eq_refl) as (H1 & H2 & _).
  split; [exact H1|exact H2].
Defined.

(** X12 on three entries, one of each kind. *)
Lemma parseSignHeaders_reads_back_witness :
  Forall (wfSignHeader W) sampleHeaders
  /\ parseSignHeaders W (renderSignHeaders sampleHeaders) = sampleHeaders.
Proof.
  assert (H : Forall (wfSignHeader W) sampleHeaders).
  { repeat constructor; simpl; try discriminate;
      try (intros Hc; repeat (destruct Hc as [Hc|Hc]; [discriminate Hc|]); exact Hc). }
  split; [exact H|].
  exact (parseSignHeaders_reads_back W sampleHeaders H).
Defined.
